(** * Code Translators: the text transcoding engine of [app/routes/home.tsx]

    A shallow embedding of the pure encode/decode functions of the page
    (Morse, binary, hexadecimal, Base64, percent-encoding, ROT, Unicode
    inspector) together with the parts of the JavaScript platform they call:
    strings as sequences of UTF-16 code units, the string iterator, regular
    expressions (a backtracking matcher and the pattern parser used by
    [new RegExp]), [TextEncoder]/[TextDecoder], [encodeURIComponent] and its
    relatives, [btoa]/[atob]. *)

From Stdlib Require Import Ascii String.
From Stdlib Require Import ZArith List Bool Lia.
Import ListNotations.
Open Scope Z_scope.

(** ** Strings, completions *)

(** A JavaScript string is its sequence of UTF-16 code units. *)
Abbreviation jsstring := (list Z).

(** An ASCII literal as a JavaScript string. *)
Definition str (s : string) : jsstring :=
  map (fun a => Z.of_N (N_of_ascii a)) (list_ascii_of_string s).

Fixpoint jsstring_eqb (a b : jsstring) : bool :=
  match a, b with
  | [], [] => true
  | x :: a', y :: b' => (x =? y) && jsstring_eqb a' b'
  | _, _ => false
  end.

(** The exceptions the modelled code can raise. *)
Inductive error : Type :=
| SyntaxError
| RangeError
| TypeError
| URIError
| InvalidCharacterError.

(** How a call completes.  [OutsideModel] is produced by [RegExp_new], for
    pattern text that uses constructs of the pattern language this
    development does not model (see [parsed]), and where a function
    defined with fuel would run out of it, which the initial fuel
    excludes. *)
Inductive completion (A : Type) : Type :=
| Returns (a : A)
| Throws (e : error)
| OutsideModel.
Arguments Returns {A} a.
Arguments Throws {A} e.
Arguments OutsideModel {A}.

Definition bind {A B} (c : completion A) (k : A -> completion B) : completion B :=
  match c with
  | Returns a => k a
  | Throws e => Throws e
  | OutsideModel => OutsideModel
  end.

Notation "'let*' x ':=' c 'in' k" := (bind c (fun x => k))
  (at level 10, x name, c at level 200, k at level 200).

(** [Array.prototype.map] with a callback that may throw: the first
    exception aborts the traversal. *)
Fixpoint map_completion {A B} (f : A -> completion B) (l : list A) : completion (list B) :=
  match l with
  | [] => Returns []
  | a :: l' =>
      let* b := f a in
      let* bs := map_completion f l' in
      Returns (b :: bs)
  end.

(** [try { body } catch { return fallback }]: every exception is caught. *)
Definition try_catch {A} (body : completion A) (fallback : A) : completion A :=
  match body with
  | Throws _ => Returns fallback
  | other => other
  end.

(** ** Code points and the string iterator *)

Definition is_lead (u : Z) : bool := (0xD800 <=? u) && (u <=? 0xDBFF).
Definition is_trail (u : Z) : bool := (0xDC00 <=? u) && (u <=? 0xDFFF).
Definition is_surrogate (u : Z) : bool := (0xD800 <=? u) && (u <=? 0xDFFF).

(** [[...s]]: the string iterator yields one string per code point; a
    surrogate pair stays together, an unpaired surrogate is yielded alone. *)
Fixpoint chars (s : jsstring) : list jsstring :=
  match s with
  | [] => []
  | u :: rest =>
      match rest with
      | v :: rest' =>
          if is_lead u && is_trail v then [u; v] :: chars rest'
          else [u] :: chars rest
      | [] => [[u]]
      end
  end.

(** [ch.codePointAt(0)]; [None] is [undefined] (empty string). *)
Definition codePointAt0 (ch : jsstring) : option Z :=
  match ch with
  | [] => None
  | [u] => Some u
  | u :: v :: _ =>
      if is_lead u && is_trail v
      then Some ((u - 0xD800) * 0x400 + (v - 0xDC00) + 0x10000)
      else Some u
  end.

(** [ch.charCodeAt(0)]; [None] is [NaN]. *)
Definition charCodeAt0 (ch : jsstring) : option Z := hd_error ch.

(** The UTF-16 encoding of a code point (CodePointsToString). *)
Definition utf16_of_code_point (cp : Z) : jsstring :=
  if cp <? 0x10000 then [cp]
  else [0xD800 + (cp - 0x10000) / 0x400; 0xDC00 + (cp - 0x10000) mod 0x400].

(** [String.fromCodePoint(n)] for a number that is an integer or [NaN]
    ([None]): a RangeError outside [0, 0x10FFFF]. *)
Definition fromCodePoint (n : option Z) : completion jsstring :=
  match n with
  | None => Throws RangeError
  | Some cp =>
      if (0 <=? cp) && (cp <=? 0x10FFFF) then Returns (utf16_of_code_point cp)
      else Throws RangeError
  end.

(** [String.fromCharCode(n)]: ToUint16 of the number, [NaN] giving 0. *)
Definition fromCharCode (n : option Z) : jsstring :=
  match n with
  | None => [0]
  | Some c => [c mod 65536]
  end.

(** ** White space *)

(** WhiteSpace and LineTerminator code units: what [\s] matches and what
    [String.prototype.trim] strips. *)
Definition is_line_terminator (u : Z) : bool :=
  (u =? 0x0A) || (u =? 0x0D) || (u =? 0x2028) || (u =? 0x2029).

Definition is_space (u : Z) : bool :=
  ((0x09 <=? u) && (u <=? 0x0D)) || (u =? 0x20) || (u =? 0xA0) || (u =? 0x1680)
  || ((0x2000 <=? u) && (u <=? 0x200A)) || (u =? 0x2028) || (u =? 0x2029)
  || (u =? 0x202F) || (u =? 0x205F) || (u =? 0x3000) || (u =? 0xFEFF).

Fixpoint trim_start (s : jsstring) : jsstring :=
  match s with
  | u :: s' => if is_space u then trim_start s' else s
  | [] => []
  end.

Definition trim (s : jsstring) : jsstring :=
  rev (trim_start (rev (trim_start s))).

(** ** Array helpers *)

(** [parts.join(sep)]. *)
Fixpoint join (sep : jsstring) (parts : list jsstring) : jsstring :=
  match parts with
  | [] => []
  | [p] => p
  | p :: rest => p ++ sep ++ join sep rest
  end.

Definition nonempty (s : jsstring) : bool :=
  match s with [] => false | _ => true end.

(** ** Regular expressions *)

(** The members of a character class [[...]]. *)
Inductive class_item : Type :=
| One (c : Z)               (* a single code unit *)
| Range (lo hi : Z)         (* [lo-hi] *)
| Space.                    (* [\s] *)

Definition item_matches (u : Z) (i : class_item) : bool :=
  match i with
  | One c => u =? c
  | Range lo hi => (lo <=? u) && (u <=? hi)
  | Space => is_space u
  end.

(** Patterns without the [u], [i], [m], [s] flags, over code units.  Only
    greedy quantifiers and no capturing groups: a non-capturing group
    [(?:r)] is [r] itself. *)
Inductive regex : Type :=
| Empty                                       (* the empty alternative *)
| Char (c : Z)                                (* a pattern character *)
| Dot                                         (* [.] *)
| Class (negated : bool) (items : list class_item)
| Seq (r1 r2 : regex)
| Alt (r1 r2 : regex)                         (* [r1|r2] *)
| Repeat (lo : nat) (hi : option nat) (r : regex)   (* [r{lo,hi}], greedy *)
| InputEnd.                                   (* [$] *)

(** RepeatMatcher.  [m] matches the quantified atom; an iteration that
    consumes nothing once the lower bound is reached is rejected, as the
    language prescribes, so [lo + length x] decreases and [fuel] never
    runs out when it starts above that. *)
Fixpoint repeat_matcher (m : jsstring -> list jsstring)
    (fuel lo : nat) (hi : option nat) (x : jsstring) : list jsstring :=
  match fuel with
  | O => []
  | S fuel' =>
      match hi with
      | Some O => [x]
      | _ =>
          let again :=
            flat_map
              (fun y =>
                 if Nat.eqb lo 0 && Nat.eqb (length y) (length x) then []
                 else repeat_matcher m fuel' (Nat.pred lo) (option_map Nat.pred hi) y)
              (m x) in
          if Nat.eqb lo 0 then again ++ [x] else again
      end
  end.

(** [matches r x]: every way [r] can match a prefix of [x], as the text
    left after the match, in the order the backtracking matcher of the
    language tries them.  The matcher's answer for a continuation is the
    first element that satisfies it. *)
Fixpoint matches (r : regex) (x : jsstring) : list jsstring :=
  match r with
  | Empty => [x]
  | Char c =>
      match x with
      | u :: x' => if u =? c then [x'] else []
      | [] => []
      end
  | Dot =>
      match x with
      | u :: x' => if is_line_terminator u then [] else [x']
      | [] => []
      end
  | Class negated items =>
      match x with
      | u :: x' => if xorb negated (existsb (item_matches u) items) then [x'] else []
      | [] => []
      end
  | Seq r1 r2 => flat_map (matches r2) (matches r1 x)
  | Alt r1 r2 => matches r1 x ++ matches r2 x
  | Repeat lo hi r0 =>
      repeat_matcher (matches r0) (S (lo + length x)) lo hi x
  | InputEnd =>
      match x with
      | [] => [[]]
      | _ => []
      end
  end.

(** The match starting exactly at the front of [x], if any. *)
Definition match_here (r : regex) (x : jsstring) : option jsstring :=
  hd_error (matches r x).

(** RegExpBuiltinExec without the sticky flag: the leftmost position at or
    after the current one where the pattern matches (the end of the input
    included).  Returns the text skipped (reversed onto [skipped]), the
    text the search stopped at and the text left after the match. *)
Fixpoint exec (r : regex) (skipped : jsstring) (x : jsstring)
  : option (jsstring * jsstring * jsstring) :=
  match match_here r x with
  | Some y => Some (rev skipped, x, y)
  | None =>
      match x with
      | [] => None
      | u :: x' => exec r (u :: skipped) x'
      end
  end.

(** The text matched, when the match started at [x] and left [y]. *)
Definition matched_text (x y : jsstring) : jsstring :=
  firstn (length x - length y) x.

(** GetSubstitution for patterns without capturing groups: [$$], [$&],
    [$`] and [$'] are expanded, any other [$] stays as it is. *)
Fixpoint get_substitution (matched before after template : jsstring) : jsstring :=
  match template with
  | [] => []
  | c :: t =>
      if c =? 36 then
        match t with
        | d :: t' =>
            if d =? 36 then 36 :: get_substitution matched before after t'
            else if d =? 38 then matched ++ get_substitution matched before after t'
            else if d =? 96 then before ++ get_substitution matched before after t'
            else if d =? 39 then after ++ get_substitution matched before after t'
            else c :: get_substitution matched before after t
        | [] => [c]
        end
      else c :: get_substitution matched before after t
  end.

(** [s.replace(r, template)] for a pattern without the [g] flag: the
    leftmost match only. *)
Definition replace_first (r : regex) (template : jsstring) (s : jsstring) : jsstring :=
  match exec r [] s with
  | None => s
  | Some (before, x, y) =>
      before ++ get_substitution (matched_text x y) before y template ++ y
  end.

(** [s.replace(r, template)] for a pattern with the [g] flag.  [done] is
    the input before the current position, reversed.  After an empty match
    the search resumes one code unit further. *)
Fixpoint replace_all_from (fuel : nat) (r : regex) (template : jsstring)
    (done x : jsstring) : jsstring :=
  match fuel with
  | O => x
  | S fuel' =>
      match exec r [] x with
      | None => x
      | Some (skipped, x1, y) =>
          let before := rev done ++ skipped in
          let out := skipped ++ get_substitution (matched_text x1 y) before y template in
          if Nat.eqb (length y) (length x1) then
            match y with
            | [] => out
            | u :: y' => out ++ u :: replace_all_from fuel' r template (u :: rev before) y'
            end
          else out ++ replace_all_from fuel' r template (rev (before ++ matched_text x1 y)) y
      end
  end.

Definition replace_all (r : regex) (template : jsstring) (s : jsstring) : jsstring :=
  replace_all_from (S (length s)) r template [] s.

(** A RegExp object: its pattern and whether it carries the [g] flag. *)
Record RegExp : Type := mkRegExp { pattern : regex; global : bool }.

(** [s.replace(re, template)]. *)
Definition replace (re : RegExp) (template : jsstring) (s : jsstring) : jsstring :=
  if global re then replace_all (pattern re) template s
  else replace_first (pattern re) template s.

(** [s.split(re)], RegExp.prototype[Symbol.split] for a pattern without
    capturing groups.  [token] is the text since the end of the previous
    separator, reversed; the pattern is tried (sticky) at every position
    before the end of the input, and a separator that would end where the
    current token starts is skipped. *)
Fixpoint split_from (fuel : nat) (r : regex) (token x : jsstring) : list jsstring :=
  match fuel with
  | O => []
  | S fuel' =>
      match x with
      | [] => [rev token]
      | u :: x' =>
          match match_here r x with
          | None => split_from fuel' r (u :: token) x'
          | Some y =>
              if negb (nonempty token) && Nat.eqb (length y) (length x)
              then split_from fuel' r (u :: token) x'
              else rev token :: split_from fuel' r [] y
          end
      end
  end.

Definition split (re : RegExp) (s : jsstring) : list jsstring :=
  match s with
  | [] => match match_here (pattern re) [] with Some _ => [] | None => [[]] end
  | _ => split_from (S (2 * length s)) (pattern re) [] s
  end.

(** [x] without its prefix [p], when [p] is a prefix of [x]. *)
Fixpoint strip_prefix (p x : jsstring) : option jsstring :=
  match p with
  | [] => Some x
  | c :: p' =>
      match x with
      | u :: x' => if u =? c then strip_prefix p' x' else None
      | [] => None
      end
  end.

(** [s.split(sep)] for a string separator. *)
Fixpoint split_string_from (fuel : nat) (sep token x : jsstring) : list jsstring :=
  match fuel with
  | O => []
  | S fuel' =>
      match x with
      | [] => [rev token]
      | u :: x' =>
          match strip_prefix sep x with
          | Some y => rev token :: split_string_from fuel' sep [] y
          | None => split_string_from fuel' sep (u :: token) x'
          end
      end
  end.

Definition split_string (sep s : jsstring) : list jsstring :=
  match sep with
  | [] => map (fun u => [u]) s
  | _ => split_string_from (S (length s)) sep [] s
  end.

(** ** The pattern parser behind [new RegExp(text)] *)

(** The parser covers this part of the pattern language (web-compatible
    grammar, no flags that change parsing): alternation, non-capturing
    groups, pattern characters, [.], [$], the escapes [\s \S \d \D \w \W
    \t \n \v \f \r] and identity escapes, and the greedy quantifiers
    [* + ? {n} {n,} {n,m}].  [BadSyntax] is the SyntaxError of the
    language; [Unmodelled] is returned for everything else (character
    classes, capturing groups, look-around, [^], back-references, lazy
    quantifiers, the remaining escapes) and when [fuel] runs out. *)
Inductive parsed (A : Type) : Type :=
| Parsed (a : A)
| BadSyntax
| Unmodelled.
Arguments Parsed {A} a.
Arguments BadSyntax {A}.
Arguments Unmodelled {A}.

Definition is_digit (c : Z) : bool := (48 <=? c) && (c <=? 57).

Fixpoint read_digits (s : jsstring) : jsstring * jsstring :=
  match s with
  | c :: s' =>
      if is_digit c then let (ds, rest) := read_digits s' in (c :: ds, rest)
      else ([], s)
  | [] => ([], [])
  end.

Definition decimal_value (ds : jsstring) : nat :=
  Z.to_nat (fold_left (fun acc d => acc * 10 + (d - 48)) ds 0).

(** The text after a [{]: the bounds and the rest when it reads as
    [n}], [n,}] or [n,m}]. *)
Definition read_braces (s : jsstring) : option (nat * option nat * jsstring) :=
  match read_digits s with
  | ([], _) => None
  | (ds, rest) =>
      match rest with
      | c :: rest1 =>
          if c =? 125 then Some (decimal_value ds, Some (decimal_value ds), rest1)
          else if c =? 44 then
            match read_digits rest1 with
            | ([], c2 :: rest2) =>
                if c2 =? 125 then Some (decimal_value ds, None, rest2) else None
            | (ds2, c2 :: rest2) =>
                if c2 =? 125 then Some (decimal_value ds, Some (decimal_value ds2), rest2)
                else None
            | (_, []) => None
            end
          else None
      | [] => None
      end
  end.

(** The quantifier, if any, that follows the atom [a]. *)
Definition parse_quantifier (a : regex) (s : jsstring) : parsed (regex * jsstring) :=
  let lazy_check (q : regex) (rest : jsstring) : parsed (regex * jsstring) :=
    match rest with
    | c :: _ => if c =? 63 then Unmodelled else Parsed (q, rest)
    | [] => Parsed (q, rest)
    end in
  match s with
  | c :: rest =>
      if c =? 42 then lazy_check (Repeat 0 None a) rest
      else if c =? 43 then lazy_check (Repeat 1 None a) rest
      else if c =? 63 then lazy_check (Repeat 0 (Some 1%nat) a) rest
      else if c =? 123 then
        match read_braces rest with
        | Some (lo, None, rest') => lazy_check (Repeat lo None a) rest'
        | Some (lo, Some hi, rest') =>
            if Nat.ltb hi lo then BadSyntax else lazy_check (Repeat lo (Some hi) a) rest'
        | None => Parsed (a, s)
        end
      else Parsed (a, s)
  | [] => Parsed (a, s)
  end.

Definition word_items : list class_item :=
  [Range 97 122; Range 65 90; Range 48 57; One 95].

(** The atom after a backslash. *)
Definition parse_escape (s : jsstring) : parsed (regex * jsstring) :=
  match s with
  | [] => BadSyntax
  | e :: rest =>
      if e =? 115 then Parsed (Class false [Space], rest)
      else if e =? 83 then Parsed (Class true [Space], rest)
      else if e =? 100 then Parsed (Class false [Range 48 57], rest)
      else if e =? 68 then Parsed (Class true [Range 48 57], rest)
      else if e =? 119 then Parsed (Class false word_items, rest)
      else if e =? 87 then Parsed (Class true word_items, rest)
      else if e =? 116 then Parsed (Char 9, rest)
      else if e =? 110 then Parsed (Char 10, rest)
      else if e =? 118 then Parsed (Char 11, rest)
      else if e =? 102 then Parsed (Char 12, rest)
      else if e =? 114 then Parsed (Char 13, rest)
      else if (e =? 98) || (e =? 66) || (e =? 99) || (e =? 120) || (e =? 117)
              || (e =? 107) || is_digit e then Unmodelled
      else Parsed (Char e, rest)
  end.

Fixpoint parse_disjunction (fuel : nat) (s : jsstring) : parsed (regex * jsstring) :=
  match fuel with
  | O => Unmodelled
  | S f =>
      match parse_alternative f s with
      | Parsed (r1, rest) =>
          match rest with
          | c :: rest' =>
              if c =? 124 then
                match parse_disjunction f rest' with
                | Parsed (r2, rest2) => Parsed (Alt r1 r2, rest2)
                | other => other
                end
              else Parsed (r1, rest)
          | [] => Parsed (r1, [])
          end
      | other => other
      end
  end
with parse_alternative (fuel : nat) (s : jsstring) : parsed (regex * jsstring) :=
  match fuel with
  | O => Unmodelled
  | S f =>
      match s with
      | [] => Parsed (Empty, [])
      | c :: s' =>
          if (c =? 124) || (c =? 41) then Parsed (Empty, s)
          else
            let term :=
              if c =? 36 then Parsed (InputEnd, s')
              else if c =? 94 then Unmodelled
              else if c =? 91 then Unmodelled
              else if (c =? 42) || (c =? 43) || (c =? 63) then BadSyntax
              else if c =? 123 then
                match read_braces s' with
                | Some _ => BadSyntax
                | None => parse_quantifier (Char c) s'
                end
              else if c =? 46 then parse_quantifier Dot s'
              else if c =? 92 then
                match parse_escape s' with
                | Parsed (a, rest) => parse_quantifier a rest
                | other => other
                end
              else if c =? 40 then
                match s' with
                | q :: s2 =>
                    if q =? 63 then
                      match s2 with
                      | k :: s3 =>
                          if k =? 58 then
                            match parse_disjunction f s3 with
                            | Parsed (r, close :: rest) =>
                                if close =? 41 then parse_quantifier r rest else BadSyntax
                            | Parsed (_, []) => BadSyntax
                            | other => other
                            end
                          else Unmodelled
                      | [] => Unmodelled
                      end
                    else
                      match parse_disjunction f s' with
                      | Parsed (_, close :: _) =>
                          if close =? 41 then Unmodelled else BadSyntax
                      | Parsed (_, []) => BadSyntax
                      | other => other
                      end
                | [] => BadSyntax
                end
              else parse_quantifier (Char c) s' in
            match term with
            | Parsed (t, rest) =>
                match parse_alternative f rest with
                | Parsed (r, rest') => Parsed (Seq t r, rest')
                | other => other
                end
            | other => other
            end
      end
  end.

(** [new RegExp(text, flags)] with flags [""] or ["g"]. *)
Definition RegExp_new (text : jsstring) (g : bool) : completion RegExp :=
  match parse_disjunction (2 * length text + 3) text with
  | Parsed (r, []) => Returns (mkRegExp r g)
  | Parsed (_, _ :: _) => Throws SyntaxError
  | BadSyntax => Throws SyntaxError
  | Unmodelled => OutsideModel
  end.

(** ** Numbers *)

(** The numbers that reach the engine are array lengths, code points and
    results of [parseInt]: an integer, or [NaN] ([None]).  Arithmetic on
    lengths, indices and code points is exact integer arithmetic, which is
    what the Number type does as long as every intermediate value stays
    below 2^53 in absolute value.  A sum that a number of the caller
    enters is rounded as the Number type rounds it ([to_double]). *)
Definition number := option Z.

(** The Number nearest to an integer: round to nearest, ties to even, with
    53 bits of precision.  The integers up to 2^53 in absolute value are
    Numbers themselves.  (The sum of a Number and a small integer is never
    rounded to Infinity.) *)
Definition to_double (z : Z) : Z :=
  let a := Z.abs z in
  if a <? 0x20000000000000 then z
  else
    let e := Z.log2 a - 52 in
    let q := Z.shiftr a e in
    let r := a - Z.shiftl q e in
    let half := Z.shiftl 1 (e - 1) in
    let q' :=
      if r <? half then q
      else if half <? r then q + 1
      else if Z.even q then q else q + 1 in
    Z.sgn z * Z.shiftl q' e.

Definition digit_char (d : Z) : Z := if d <? 10 then 48 + d else 87 + d.

Fixpoint digits_from (fuel : nat) (radix n : Z) (acc : jsstring) : jsstring :=
  match fuel with
  | O => acc
  | S f =>
      if n <? radix then digit_char n :: acc
      else digits_from f radix (n / radix) (digit_char (n mod radix) :: acc)
  end.

(** [n.toString(radix)] for an integer [n] and a radix of 2 to 36. *)
Definition number_toString (radix n : Z) : jsstring :=
  if n <? 0 then 45 :: digits_from (S (Z.to_nat (Z.log2 (- n)))) radix (- n) []
  else digits_from (S (Z.to_nat (Z.log2 n))) radix n [].

(** [n] code units taken from the repetition of [fill]; [cur] is what is
    left of the current copy. *)
Fixpoint cycle_fill (n : nat) (fill cur : jsstring) : jsstring :=
  match n with
  | O => []
  | S n' =>
      match cur with
      | c :: cur' => c :: cycle_fill n' fill cur'
      | [] =>
          match fill with
          | c :: fill' => c :: cycle_fill n' fill fill'
          | [] => []
          end
      end
  end.

(** [s.padStart(target, fill)], where the engine builds the result (see
    [padStart_limited] for a target that a caller chooses). *)
Definition padStart (target : Z) (fill s : jsstring) : jsstring :=
  let len := Z.of_nat (length s) in
  if (target <=? len) || negb (nonempty fill) then s
  else cycle_fill (Z.to_nat (target - len)) fill fill ++ s.

Definition digit_value (c : Z) : option Z :=
  if (48 <=? c) && (c <=? 57) then Some (c - 48)
  else if (97 <=? c) && (c <=? 122) then Some (c - 87)
  else if (65 <=? c) && (c <=? 90) then Some (c - 55)
  else None.

(** The value of the longest prefix of [s] made of digits of the radix,
    and whether there was any digit. *)
Fixpoint read_radix (radix : Z) (s : jsstring) (acc : Z) (any : bool) : Z * bool :=
  match s with
  | c :: s' =>
      match digit_value c with
      | Some d => if d <? radix then read_radix radix s' (acc * radix + d) true else (acc, any)
      | None => (acc, any)
      end
  | [] => (acc, any)
  end.

(** [parseInt(s, radix)].  The value is the exact integer the digits
    denote (the Number type rounds it above 2^53). *)
Definition parseInt (s : jsstring) (radix : Z) : number :=
  let s1 := trim_start s in
  let (sign, s2) :=
    match s1 with
    | c :: t => if c =? 45 then (-1, t) else if c =? 43 then (1, t) else (1, s1)
    | [] => (1, s1)
    end in
  if negb (radix =? 0) && ((radix <? 2) || (36 <? radix)) then None
  else
    let r := if radix =? 0 then 10 else radix in
    let (r', s3) :=
      if (radix =? 0) || (radix =? 16) then
        match s2 with
        | z :: x :: t =>
            if (z =? 48) && ((x =? 120) || (x =? 88)) then (16, t) else (r, s2)
        | _ => (r, s2)
        end
      else (r, s2) in
    let (v, any) := read_radix r' s3 0 false in
    if any then Some (sign * v) else None.

(** ** The host

    Three things of the platform are not part of the program: the Unicode
    case mapping that [toUpperCase] applies outside ASCII, the text an
    engine prints for the built-in members every object inherits from
    [Object.prototype] (the source text of a native function is
    implementation-defined), and the length of the longest string the
    engine builds (the language allows up to 2^53 - 1 code units; every
    engine stops far below and throws a RangeError beyond its limit). *)
Class Host : Type := {
  (** the UTF-16 text of the uppercase mapping of a code point above 127 *)
  unicode_upper : Z -> jsstring;
  (** [String(Object.prototype[name])] for the name of a member of
      [Object.prototype] *)
  inherited_text : jsstring -> jsstring;
  (** the length of the longest string *)
  max_string_length : Z;
  max_string_length_bounds : 0xFFFF <= max_string_length < 0x1FFFFFFFFFFFFF
}.

(** [s.padStart(target, fill)] for a target the caller chooses: ToLength
    bounds the target by 2^53 - 1, and a result longer than the longest
    string of the engine is a RangeError. *)
Definition padStart_limited `{Host} (target : Z) (fill s : jsstring)
  : completion jsstring :=
  let intMaxLength := Z.min target 0x1FFFFFFFFFFFFF in
  if (Z.of_nat (length s) <? intMaxLength) && nonempty fill
     && (max_string_length <? intMaxLength)
  then Throws RangeError
  else Returns (padStart intMaxLength fill s).

Definition ascii_upper (u : Z) : Z :=
  if (97 <=? u) && (u <=? 122) then u - 32 else u.

(** [s.toUpperCase()]: code point by code point. *)
Definition toUpperCase `{Host} (s : jsstring) : jsstring :=
  flat_map
    (fun ch =>
       match codePointAt0 ch with
       | Some cp => if cp <? 128 then [ascii_upper cp] else unicode_upper cp
       | None => []
       end)
    (chars s).

(** ** Objects used as tables *)

(** What a property read can give in this program. *)
Inductive value : Type :=
| VString (s : jsstring)
| VInherited (name : jsstring).     (* a member of [Object.prototype] *)

(** An object with string-valued own properties, in creation order, whose
    prototype is [Object.prototype]. *)
Definition object := list (jsstring * jsstring).

Fixpoint own_property (o : object) (key : jsstring) : option jsstring :=
  match o with
  | [] => None
  | (k, v) :: o' => if jsstring_eqb k key then Some v else own_property o' key
  end.

(** CreateDataProperty: an existing key keeps its place and takes the new
    value. *)
Fixpoint set_property (o : object) (key v : jsstring) : object :=
  match o with
  | [] => [(key, v)]
  | (k, w) :: o' =>
      if jsstring_eqb k key then (k, v) :: o' else (k, w) :: set_property o' key v
  end.

(** [Object.fromEntries(entries)]. *)
Definition fromEntries (entries : list (jsstring * jsstring)) : object :=
  fold_left (fun o kv => set_property o (fst kv) (snd kv)) entries [].

(** The property names of [Object.prototype]. *)
Definition object_prototype_names : list jsstring :=
  map str
    ["constructor"; "__defineGetter__"; "__defineSetter__"; "hasOwnProperty";
     "__lookupGetter__"; "__lookupSetter__"; "isPrototypeOf";
     "propertyIsEnumerable"; "toString"; "valueOf"; "__proto__";
     "toLocaleString"]%string.

(** [o[key]]; [None] is [undefined]. *)
Definition get (o : object) (key : jsstring) : option value :=
  match own_property o key with
  | Some v => Some (VString v)
  | None =>
      if existsb (jsstring_eqb key) object_prototype_names
      then Some (VInherited key) else None
  end.

(** [!v] for the result of a property read. *)
Definition falsy (v : option value) : bool :=
  match v with
  | None => true
  | Some (VString s) => negb (nonempty s)
  | Some (VInherited _) => false
  end.

(** ToString, as [join] applies it to the elements. *)
Definition to_text `{Host} (v : value) : jsstring :=
  match v with
  | VString s => s
  | VInherited name => inherited_text name
  end.

(** ** UTF-8 *)

Definition utf8_bytes (cp : Z) : list Z :=
  if cp <? 0x80 then [cp]
  else if cp <? 0x800 then
    [Z.lor 0xC0 (Z.shiftr cp 6); Z.lor 0x80 (Z.land cp 0x3F)]
  else if cp <? 0x10000 then
    [Z.lor 0xE0 (Z.shiftr cp 12); Z.lor 0x80 (Z.land (Z.shiftr cp 6) 0x3F);
     Z.lor 0x80 (Z.land cp 0x3F)]
  else
    [Z.lor 0xF0 (Z.shiftr cp 18); Z.lor 0x80 (Z.land (Z.shiftr cp 12) 0x3F);
     Z.lor 0x80 (Z.land (Z.shiftr cp 6) 0x3F); Z.lor 0x80 (Z.land cp 0x3F)].

(** [new TextEncoder().encode(s)]: the UTF-8 bytes of the code points of
    [s], an unpaired surrogate being encoded as U+FFFD. *)
Definition TextEncoder_encode (s : jsstring) : list Z :=
  flat_map
    (fun ch =>
       match codePointAt0 ch with
       | Some cp => utf8_bytes (if is_surrogate cp then 0xFFFD else cp)
       | None => []
       end)
    (chars s).

(** The state of the UTF-8 decoder of the Encoding standard. *)
Record utf8_state : Type := mkUtf8 {
  code_point : Z;
  bytes_seen : Z;
  bytes_needed : Z;
  lower_boundary : Z;
  upper_boundary : Z
}.

Definition utf8_initial : utf8_state := mkUtf8 0 0 0 0x80 0xBF.

(** A byte read when no sequence is open: the new state and the code
    points emitted (U+FFFD for an error). *)
Definition utf8_lead (b : Z) : utf8_state * list Z :=
  if (0 <=? b) && (b <=? 0x7F) then (utf8_initial, [b])
  else if (0xC2 <=? b) && (b <=? 0xDF) then
    (mkUtf8 (Z.land b 0x1F) 0 1 0x80 0xBF, [])
  else if (0xE0 <=? b) && (b <=? 0xEF) then
    (mkUtf8 (Z.land b 0xF) 0 2
       (if b =? 0xE0 then 0xA0 else 0x80) (if b =? 0xED then 0x9F else 0xBF), [])
  else if (0xF0 <=? b) && (b <=? 0xF4) then
    (mkUtf8 (Z.land b 0x7) 0 3
       (if b =? 0xF0 then 0x90 else 0x80) (if b =? 0xF4 then 0x8F else 0xBF), [])
  else (utf8_initial, [0xFFFD]).

(** The handler of the decoder.  A byte outside the boundaries ends the
    open sequence with an error and is read again as a lead byte. *)
Definition utf8_handler (st : utf8_state) (b : Z) : utf8_state * list Z :=
  if bytes_needed st =? 0 then utf8_lead b
  else if negb ((lower_boundary st <=? b) && (b <=? upper_boundary st)) then
    let (st', out) := utf8_lead b in (st', 0xFFFD :: out)
  else
    let cp := Z.lor (Z.shiftl (code_point st) 6) (Z.land b 0x3F) in
    if bytes_seen st + 1 =? bytes_needed st then (utf8_initial, [cp])
    else (mkUtf8 cp (bytes_seen st + 1) (bytes_needed st) 0x80 0xBF, []).

Fixpoint utf8_decode_from (st : utf8_state) (bytes : list Z) : list Z :=
  match bytes with
  | [] => if bytes_needed st =? 0 then [] else [0xFFFD]
  | b :: rest =>
      let (st', out) := utf8_handler st b in
      out ++ utf8_decode_from st' rest
  end.

(** [new TextDecoder().decode(bytes)]: UTF-8, errors replaced by U+FFFD
    ([fatal] is false by default, so it never throws), and a U+FEFF at the
    very start of the output dropped ([ignoreBOM] is false by default). *)
Definition TextDecoder_decode (bytes : list Z) : jsstring :=
  let cps := utf8_decode_from utf8_initial bytes in
  let cps' :=
    match cps with
    | c :: rest => if c =? 0xFEFF then rest else cps
    | [] => []
    end in
  flat_map utf16_of_code_point cps'.

(** ** URI encoding and Base64 *)

Definition is_alnum (u : Z) : bool :=
  ((48 <=? u) && (u <=? 57)) || ((65 <=? u) && (u <=? 90)) || ((97 <=? u) && (u <=? 122)).

(** The characters [encodeURIComponent] leaves alone: letters, digits and
    [- _ . ! ~ * ' ( )]. *)
Definition uri_unescaped (u : Z) : bool :=
  is_alnum u || existsb (Z.eqb u) [45; 95; 46; 33; 126; 42; 39; 40; 41].

Definition upper_hex_digit (d : Z) : Z := if d <? 10 then 48 + d else 55 + d.

(** [%XX] with uppercase digits. *)
Definition percent_byte (b : Z) : jsstring :=
  [37; upper_hex_digit (b / 16); upper_hex_digit (b mod 16)].

(** [encodeURIComponent(s)]: a URIError for an unpaired surrogate. *)
Definition encodeURIComponent (s : jsstring) : completion jsstring :=
  let* parts :=
    map_completion
      (fun ch =>
         match codePointAt0 ch with
         | None => Throws TypeError
         | Some cp =>
             if is_surrogate cp then Throws URIError
             else if uri_unescaped cp then Returns [cp]
             else Returns (flat_map percent_byte (utf8_bytes cp))
         end)
      (chars s) in
  Returns (concat parts).

(** The value of two hexadecimal digits. *)
Definition hex_octet (h1 h2 : Z) : option Z :=
  match digit_value h1, digit_value h2 with
  | Some a, Some b => if (a <? 16) && (b <? 16) then Some (a * 16 + b) else None
  | _, _ => None
  end.

(** [n] more escapes [%XX]: their bytes and the rest of the text. *)
Fixpoint read_escapes (n : nat) (s : jsstring) : option (list Z * jsstring) :=
  match n with
  | O => Some ([], s)
  | S n' =>
      match s with
      | p :: h1 :: h2 :: rest =>
          if p =? 37 then
            match hex_octet h1 h2 with
            | Some b =>
                match read_escapes n' rest with
                | Some (bs, rest') => Some (b :: bs, rest')
                | None => None
                end
            | None => None
            end
          else None
      | _ => None
      end
  end.

Definition is_continuation (b : Z) : bool := (0x80 <=? b) && (b <=? 0xBF).

(** The code point of a well-formed UTF-8 sequence of 2 to 4 bytes (no
    overlong form, no surrogate, nothing above U+10FFFF). *)
Definition utf8_code_point (octets : list Z) : option Z :=
  match octets with
  | [b0; b1] =>
      if (0xC2 <=? b0) && (b0 <=? 0xDF) && is_continuation b1
      then Some ((b0 - 0xC0) * 64 + (b1 - 0x80)) else None
  | [b0; b1; b2] =>
      if (0xE0 <=? b0) && (b0 <=? 0xEF)
         && ((if b0 =? 0xE0 then 0xA0 else 0x80) <=? b1)
         && (b1 <=? (if b0 =? 0xED then 0x9F else 0xBF))
         && is_continuation b2
      then Some ((b0 - 0xE0) * 4096 + (b1 - 0x80) * 64 + (b2 - 0x80)) else None
  | [b0; b1; b2; b3] =>
      if (0xF0 <=? b0) && (b0 <=? 0xF4)
         && ((if b0 =? 0xF0 then 0x90 else 0x80) <=? b1)
         && (b1 <=? (if b0 =? 0xF4 then 0x8F else 0xBF))
         && is_continuation b2 && is_continuation b3
      then Some ((b0 - 0xF0) * 262144 + (b1 - 0x80) * 4096 + (b2 - 0x80) * 64 + (b3 - 0x80))
      else None
  | _ => None
  end.

(** The number of leading 1 bits of a byte, up to 5. *)
Definition leading_ones (b : Z) : nat :=
  if b <? 0x80 then 0 else if b <? 0xC0 then 1 else if b <? 0xE0 then 2
  else if b <? 0xF0 then 3 else if b <? 0xF8 then 4 else 5.

(** [decodeURIComponent(s)] (Decode with an empty set of preserved
    escapes). *)
Fixpoint decode_from (fuel : nat) (s : jsstring) : completion jsstring :=
  match fuel with
  | O => OutsideModel
  | S fuel' =>
      match s with
      | [] => Returns []
      | c :: rest =>
          if c =? 37 then
            match rest with
            | h1 :: h2 :: rest2 =>
                match hex_octet h1 h2 with
                | None => Throws URIError
                | Some b =>
                    match leading_ones b with
                    | O => let* r := decode_from fuel' rest2 in Returns (b :: r)
                    | S O => Throws URIError
                    | S n' =>
                        if Nat.ltb 4 (S n') then Throws URIError
                        else
                          match read_escapes n' rest2 with
                          | None => Throws URIError
                          | Some (bs, rest3) =>
                              match utf8_code_point (b :: bs) with
                              | None => Throws URIError
                              | Some v =>
                                  let* r := decode_from fuel' rest3 in
                                  Returns (utf16_of_code_point v ++ r)
                              end
                          end
                    end
                end
            | _ => Throws URIError
            end
          else let* r := decode_from fuel' rest in Returns (c :: r)
      end
  end.

Definition decodeURIComponent (s : jsstring) : completion jsstring :=
  decode_from (S (length s)) s.

(** The characters [escape] leaves alone: letters, digits and
    [@ * _ + - . /]. *)
Definition escape_unescaped (u : Z) : bool :=
  is_alnum u || existsb (Z.eqb u) [64; 42; 95; 43; 45; 46; 47].

(** [escape(s)]. *)
Definition escape (s : jsstring) : jsstring :=
  flat_map
    (fun u =>
       if escape_unescaped u then [u]
       else if u <? 256 then percent_byte u
       else [37; 117; upper_hex_digit (u / 4096); upper_hex_digit ((u / 256) mod 16);
             upper_hex_digit ((u / 16) mod 16); upper_hex_digit (u mod 16)])
    s.

Definition hex_quad (a b c d : Z) : option Z :=
  match hex_octet a b, hex_octet c d with
  | Some hi, Some lo => Some (hi * 256 + lo)
  | _, _ => None
  end.

(** [unescape(s)]: [%uXXXX] and [%XX] are replaced, anything else stays. *)
Fixpoint unescape_from (fuel : nat) (s : jsstring) : jsstring :=
  match fuel with
  | O => s
  | S fuel' =>
      match s with
      | [] => []
      | c :: rest =>
          let short :=
            match rest with
            | h1 :: h2 :: rest2 =>
                match hex_octet h1 h2 with
                | Some b => b :: unescape_from fuel' rest2
                | None => c :: unescape_from fuel' rest
                end
            | _ => c :: unescape_from fuel' rest
            end in
          if c =? 37 then
            match rest with
            | u :: a :: b :: c' :: d :: rest5 =>
                if u =? 117 then
                  match hex_quad a b c' d with
                  | Some v => v :: unescape_from fuel' rest5
                  | None => short
                  end
                else short
            | _ => short
            end
          else c :: unescape_from fuel' rest
      end
  end.

Definition unescape (s : jsstring) : jsstring := unescape_from (S (length s)) s.

(** The Base64 alphabet. *)
Definition base64_char (v : Z) : Z :=
  if v <? 26 then 65 + v
  else if v <? 52 then 97 + (v - 26)
  else if v <? 62 then 48 + (v - 52)
  else if v =? 62 then 43 else 47.

Definition base64_value (c : Z) : option Z :=
  if (65 <=? c) && (c <=? 90) then Some (c - 65)
  else if (97 <=? c) && (c <=? 122) then Some (c - 97 + 26)
  else if (48 <=? c) && (c <=? 57) then Some (c - 48 + 52)
  else if c =? 43 then Some 62
  else if c =? 47 then Some 63
  else None.

Fixpoint base64_encode (bytes : list Z) : jsstring :=
  match bytes with
  | a :: b :: c :: rest =>
      base64_char (Z.shiftr a 2)
      :: base64_char (Z.lor (Z.shiftl (Z.land a 3) 4) (Z.shiftr b 4))
      :: base64_char (Z.lor (Z.shiftl (Z.land b 15) 2) (Z.shiftr c 6))
      :: base64_char (Z.land c 63)
      :: base64_encode rest
  | [a; b] =>
      [base64_char (Z.shiftr a 2);
       base64_char (Z.lor (Z.shiftl (Z.land a 3) 4) (Z.shiftr b 4));
       base64_char (Z.shiftl (Z.land b 15) 2); 61]
  | [a] =>
      [base64_char (Z.shiftr a 2); base64_char (Z.shiftl (Z.land a 3) 4); 61; 61]
  | [] => []
  end.

(** [btoa(data)]: an InvalidCharacterError above U+00FF. *)
Definition btoa (data : jsstring) : completion jsstring :=
  if forallb (fun u => u <? 256) data then Returns (base64_encode data)
  else Throws InvalidCharacterError.

Definition is_ascii_whitespace (u : Z) : bool :=
  (u =? 9) || (u =? 10) || (u =? 12) || (u =? 13) || (u =? 32).

(** The bytes of a sequence of 6-bit values whose length is not 1 modulo
    4; the bits left over at the end are dropped. *)
Fixpoint base64_bytes (vs : list Z) : list Z :=
  match vs with
  | p :: q :: r :: s :: rest =>
      Z.lor (Z.shiftl p 2) (Z.shiftr q 4)
      :: Z.lor (Z.shiftl (Z.land q 15) 4) (Z.shiftr r 2)
      :: Z.lor (Z.shiftl (Z.land r 3) 6) s
      :: base64_bytes rest
  | [p; q; r] =>
      [Z.lor (Z.shiftl p 2) (Z.shiftr q 4);
       Z.lor (Z.shiftl (Z.land q 15) 4) (Z.shiftr r 2)]
  | [p; q] => [Z.lor (Z.shiftl p 2) (Z.shiftr q 4)]
  | _ => []
  end.

Fixpoint all_some {A} (l : list (option A)) : option (list A) :=
  match l with
  | [] => Some []
  | Some a :: l' => option_map (cons a) (all_some l')
  | None :: _ => None
  end.

(** [atob(data)]: forgiving-base64 decode, a failure being an
    InvalidCharacterError. *)
Definition atob (data : jsstring) : completion jsstring :=
  let d1 := filter (fun u => negb (is_ascii_whitespace u)) data in
  let d2 :=
    if Nat.eqb (Nat.modulo (length d1) 4) 0 then
      match rev d1 with
      | e1 :: e2 :: r => if e1 =? 61 then (if e2 =? 61 then rev r else rev (e2 :: r)) else d1
      | _ => d1
      end
    else d1 in
  if Nat.eqb (Nat.modulo (length d2) 4) 1 then Throws InvalidCharacterError
  else
    match all_some (map base64_value d2) with
    | None => Throws InvalidCharacterError
    | Some vs => Returns (base64_bytes vs)
    end.

(** ** Translators: Morse *)

Definition MORSE : object :=
  [ (str "A", str ".-");     (str "B", str "-...");   (str "C", str "-.-.");
    (str "D", str "-..");    (str "E", str ".");      (str "F", str "..-.");
    (str "G", str "--.");    (str "H", str "....");   (str "I", str "..");
    (str "J", str ".---");   (str "K", str "-.-");    (str "L", str ".-..");
    (str "M", str "--");     (str "N", str "-.");     (str "O", str "---");
    (str "P", str ".--.");   (str "Q", str "--.-");   (str "R", str ".-.");
    (str "S", str "...");    (str "T", str "-");      (str "U", str "..-");
    (str "V", str "...-");   (str "W", str ".--");    (str "X", str "-..-");
    (str "Y", str "-.--");   (str "Z", str "--..");
    (str "0", str "-----");  (str "1", str ".----");  (str "2", str "..---");
    (str "3", str "...--");  (str "4", str "....-");  (str "5", str ".....");
    (str "6", str "-....");  (str "7", str "--...");  (str "8", str "---..");
    (str "9", str "----.");
    (str ".", str ".-.-.-"); (str ",", str "--..--"); (str "?", str "..--..");
    (str "'", str ".----."); (str "!", str "-.-.--"); (str "/", str "-..-.");
    (str "(", str "-.--.");  (str ")", str "-.--.-"); (str "&", str ".-...");
    (str ":", str "---..."); (str ";", str "-.-.-."); (str "=", str "-...-");
    (str "+", str ".-.-.");  (str "-", str "-....-"); (str "_", str "..--.-");
    ([34], str ".-..-.");    (str "$", str "...-..-"); (str "@", str ".--.-.") ].

(** [Object.fromEntries(Object.entries(MORSE).map(([k, v]) => [v, k]))]. *)
Definition REVMORSE : object :=
  fromEntries (map (fun kv => (snd kv, fst kv)) MORSE).

Section Translators.
Context {host : Host}.

Definition toMorse (text letterSep wordSep : jsstring) (keepUnknown : bool) : jsstring :=
  join wordSep
    (map
       (fun word =>
          join letterSep
            (map to_text
               (filter
                  (fun s => match s with VString [] => false | _ => true end)
                  (map
                     (fun ch =>
                        let code := get MORSE ch in
                        if falsy code then VString (if keepUnknown then ch else [])
                        else match code with Some c => c | None => VString [] end)
                     (chars word)))))
       (split_string (str " ") (toUpperCase text))).

(** The three literal patterns of [normalizePunctuation], all with [g]. *)
Definition dash_like : RegExp :=
  mkRegExp (Class false [One 0x2013; One 0x2014; One 0x2212]) true.
Definition dot_like : RegExp :=
  mkRegExp (Class false [One 0xB7; One 0x2022; One 0x2219]) true.
Definition zero_width : RegExp :=
  mkRegExp (Alt (Char 0x200B) (Alt (Char 0x200C) (Alt (Char 0x200D) (Char 0xFEFF)))) true.

Definition normalizePunctuation (s : jsstring) : jsstring :=
  trim (replace zero_width [] (replace dot_like (str ".") (replace dash_like (str "-") s))).

(** [/[.*+?^${}()|[\]\\]/g] *)
Definition pattern_syntax : RegExp :=
  mkRegExp
    (Class false
       [One 46; One 42; One 43; One 63; One 94; One 36; One 123; One 125;
        One 40; One 41; One 124; One 91; One 93; One 92])
    true.

(** [s.replace(/[.*+?^${}()|[\]\\]/g, "\\$&")] *)
Definition esc (s : jsstring) : jsstring :=
  replace pattern_syntax (str "\$&") s.

Definition fromMorse (code letterSep wordSep : jsstring) (strict : bool)
  : completion jsstring :=
  let cleaned := normalizePunctuation code in
  let wsep := if nonempty wordSep then esc wordSep else [] in
  let lsep := if nonempty letterSep then esc letterSep else [] in
  let* wordSplitter :=
    RegExp_new
      (join (str "|")
         (filter nonempty
            [ (if nonempty wsep then str "(?:" ++ wsep ++ str ")" else wsep);
              str "(?:\s*/\s*)";
              str "(?:\s{3,})" ]))
      true in
  let words := filter nonempty (split wordSplitter cleaned) in
  let* letterSplitter := RegExp_new (if nonempty lsep then lsep else str "\s+") true in
  let decodedWords :=
    map
      (fun w =>
         join []
           (map to_text
              (map
                 (fun sym =>
                    let t := get REVMORSE sym in
                    if falsy t then VString (if strict then [0xFFFD] else [])
                    else match t with Some v => v | None => VString [] end)
                 (filter nonempty (split letterSplitter w)))))
      words in
  Returns (join (str " ") decodedWords).

(** ** Translators: binary and hexadecimal *)

(** [Math.ceil(len / groupSize) * groupSize] for a positive integer
    [groupSize]. *)
Definition ceil_to_multiple (len groupSize : Z) : Z :=
  ((len + groupSize - 1) / groupSize) * groupSize.

Definition textToBinary (text : jsstring) (groupSize : number)
    (delimiter : jsstring) (upper : bool) : completion jsstring :=
  let* bits :=
    map_completion
      (fun ch =>
         match codePointAt0 ch with
         | None => Throws TypeError
         | Some code =>
             let bin := number_toString 2 code in
             match groupSize with
             | Some g =>
                 if 0 <? g
                 then padStart_limited (ceil_to_multiple (Z.of_nat (length bin)) g)
                        (str "0") bin
                 else Returns bin
             | None => Returns bin
             end
         end)
      (chars text) in
  let out := join delimiter bits in
  Returns (if upper then toUpperCase out else out).

(** [/[^01\s]/g] and [/\s+/g] *)
Definition not_binary : RegExp := mkRegExp (Class true [One 48; One 49; Space]) true.
Definition space_run : RegExp := mkRegExp (Repeat 1 None (Class false [Space])) true.

Definition binaryToText (binary : jsstring) : completion jsstring :=
  let cleaned := replace space_run (str " ") (replace not_binary (str " ") (trim binary)) in
  if negb (nonempty cleaned) then Returns []
  else
    let bytes := filter nonempty (split_string (str " ") cleaned) in
    try_catch
      (let* chars' := map_completion (fun b => fromCodePoint (parseInt b 2)) bytes in
       Returns (join [] chars'))
      (str "Invalid binary sequence").

(** The loop of [textToHex]: the parts pushed from index [i] on. *)
Fixpoint hex_parts (delimiter : jsstring) (upper : bool) (bytesPerGroup : number)
    (i : Z) (bytes : list Z) : list jsstring :=
  match bytes with
  | [] => []
  | b :: rest =>
      let hex := padStart 2 (str "0") (number_toString 16 b) in
      let boundary :=
        match bytesPerGroup with
        | Some g => (1 <? g) && (Z.rem (i + 1) g =? 0)
        | None => false
        end in
      (if upper then toUpperCase hex else hex)
      :: (if boundary then [delimiter] else [])
      ++ hex_parts delimiter upper bytesPerGroup (i + 1) rest
  end.

Definition textToHex (text delimiter : jsstring) (upper : bool)
    (bytesPerGroup : number) : completion jsstring :=
  let bytes := TextEncoder_encode text in
  let parts := hex_parts delimiter upper bytesPerGroup 0 bytes in
  let joined := join delimiter parts in
  let* trailing := RegExp_new (delimiter ++ str "+$") false in
  Returns (replace trailing [] joined).

(** [/[^0-9a-fA-F]/g] *)
Definition not_hex : RegExp :=
  mkRegExp (Class true [Range 48 57; Range 97 102; Range 65 70]) true.

(** The store into a [Uint8Array]: [NaN] becomes 0. *)
Definition to_uint8 (n : number) : Z :=
  match n with
  | Some v => v mod 256
  | None => 0
  end.

(** The loop of [hexToText] over the pairs of [cleaned]. *)
Fixpoint hex_pairs (cleaned : jsstring) : list Z :=
  match cleaned with
  | a :: b :: rest => to_uint8 (parseInt [a; b] 16) :: hex_pairs rest
  | _ => []
  end.

Definition hexToText (hex : jsstring) : completion jsstring :=
  let cleaned := replace not_hex [] hex in
  if negb (Z.rem (Z.of_nat (length cleaned)) 2 =? 0) then Returns (str "Invalid hex length")
  else
    let bytes := hex_pairs cleaned in
    try_catch (Returns (TextDecoder_decode bytes)) (str "Invalid hex sequence").

(** ** Translators: Base64 *)

Definition textToBase64 (text : jsstring) : completion jsstring :=
  try_catch
    (let* e := encodeURIComponent text in btoa (unescape e))
    (str "Encoding error").

Definition base64ToText (b64 : jsstring) : completion jsstring :=
  try_catch
    (let* b := atob b64 in decodeURIComponent (escape b))
    (str "Invalid Base64").

(** ** Translators: ROT *)

(** [shift] is [NaN] or an integer of the Number type.  The sum
    [code - start + shift] is the one place where the Number type can
    round; what follows it stays below 52. *)
Definition rot (text : jsstring) (shift : number) : jsstring :=
  let a := 97 in
  let z := 122 in
  let A := 65 in
  let Z' := 90 in
  let wrap (code start : Z) : number :=
    match shift with
    | Some s => Some (Z.rem (Z.rem (to_double (code - start + s)) 26 + 26) 26 + start)
    | None => None
    end in
  join []
    (map
       (fun ch =>
          match charCodeAt0 ch with
          | Some c =>
              if (a <=? c) && (c <=? z) then fromCharCode (wrap c a)
              else if (A <=? c) && (c <=? Z') then fromCharCode (wrap c A)
              else ch
          | None => ch
          end)
       (chars text)).

(** ** Translators: URL *)

Definition urlEncode (s : jsstring) : completion jsstring := encodeURIComponent s.

Definition urlDecode (s : jsstring) : completion jsstring :=
  try_catch (decodeURIComponent s) (str "Invalid URL encoding").

(** ** Unicode inspector *)

Record CodepointRecord : Type := mkRecord {
  ch : jsstring;
  dec : Z;
  hex : jsstring
}.

Definition inspectUnicode (s : jsstring) : completion (list CodepointRecord) :=
  map_completion
    (fun c =>
       match codePointAt0 c with
       | None => Throws TypeError
       | Some cp =>
           Returns
             (mkRecord c cp
                (str "U+" ++ padStart 4 (str "0") (toUpperCase (number_toString 16 cp))))
       end)
    (chars s).

End Translators.

(** ** Notions the statements use *)

(** The diagnostic strings of the program. *)
Definition diagnostics : list jsstring :=
  map str
    ["Invalid binary sequence"; "Invalid hex length"; "Invalid hex sequence";
     "Encoding error"; "Invalid Base64"; "Invalid URL encoding"]%string.

(** The call returned one of the diagnostic strings. *)
Definition returns_diagnostic (c : completion jsstring) : bool :=
  match c with
  | Returns s => existsb (jsstring_eqb s) diagnostics
  | _ => false
  end.

(** Comparison of two strings up to the case of ASCII letters. *)
Definition same_ignoring_case (a b : jsstring) : bool :=
  jsstring_eqb (map ascii_upper a) (map ascii_upper b).

(** A host that leaves every code point above 127 as it is and builds
    strings of up to 2^29 - 24 code units; used to run the translators on
    concrete inputs. *)
Definition plain_host : Host :=
  {| unicode_upper := fun cp => utf16_of_code_point cp;
     inherited_text := fun _ => str "[object Object]";
     max_string_length := 0x1FFFFFE8;
     max_string_length_bounds :=
       conj (proj1 (Z.leb_le 0xFFFF 0x1FFFFFE8) eq_refl)
            (proj1 (Z.ltb_lt 0x1FFFFFE8 0x1FFFFFFFFFFFFF) eq_refl) |}.

(** The emoji U+1F600 as a JavaScript string. *)
Definition grinning_face : jsstring := [0xD83D; 0xDE00].

(** ** Notions the proofs use *)

Definition is_lower (u : Z) : bool := (97 <=? u) && (u <=? 122).
Definition is_upper (u : Z) : bool := (65 <=? u) && (u <=? 90).

(** What the specification says [rot] does with one code unit: a lowercase
    letter moves within a-z, an uppercase letter within A-Z, anything else
    stays. *)
Definition rotate_unit (s u : Z) : Z :=
  if is_lower u then 97 + (u - 97 + s) mod 26
  else if is_upper u then 65 + (u - 65 + s) mod 26
  else u.

(** The shifts that [rot] adds without rounding: the sum of the shift and
    the rank of a letter stays below 2^53 in absolute value. *)
Definition exact_shift (s : Z) : bool := Z.abs s + 25 <? 0x20000000000000.

(** Printable ASCII: below 128, not a line terminator, and kept printable
    by uppercasing. *)
Definition plain (u : Z) : bool := (32 <=? u) && (u <? 127).

(** One byte as [textToHex] prints it. *)
Definition hex_pair {host : Host} (upper : bool) (b : Z) : jsstring :=
  let hex := padStart 2 (str "0") (number_toString 16 b) in
  if upper then toUpperCase hex else hex.

(** The pattern that matches the text [s] and then [r]. *)
Definition seq_literal (s : jsstring) (r : regex) : regex :=
  fold_right (fun c acc => Seq (Char c) acc) r s.

(** No position of [s], its end included, is the start of a match. *)
Fixpoint never_matches (r : regex) (s : jsstring) : bool :=
  match match_here r s with
  | Some _ => false
  | None =>
      match s with
      | [] => true
      | _ :: s' => never_matches r s'
      end
  end.

(** No position of [s] before its end is the start of a match. *)
Fixpoint never_matches_inside (r : regex) (s : jsstring) : bool :=
  match s with
  | [] => true
  | _ :: s' =>
      match match_here r s with
      | Some _ => false
      | None => never_matches_inside r s'
      end
  end.

(** The code unit belongs to the class. *)
Definition class_has (negated : bool) (items : list class_item) (u : Z) : bool :=
  xorb negated (existsb (item_matches u) items).

Definition syntax_items : list class_item :=
  [One 46; One 42; One 43; One 63; One 94; One 36; One 123; One 125;
   One 40; One 41; One 124; One 91; One 93; One 92].

Definition is_syntax (c : Z) : bool := existsb (item_matches c) syntax_items.

(** What [esc] does with one code unit. *)
Definition esc_unit (c : Z) : jsstring := if is_syntax c then [92; c] else [c].

(** The text ahead does not start with a quantifier. *)
Definition no_quantifier_ahead (s : jsstring) : bool :=
  match s with
  | c :: _ => negb ((c =? 42) || (c =? 43) || (c =? 63) || (c =? 123))
  | [] => true
  end.

(** The text ahead ends the current alternative. *)
Definition alternative_ends (s : jsstring) : bool :=
  match s with
  | c :: _ => (c =? 124) || (c =? 41)
  | [] => true
  end.

(** The two fixed alternatives of the word splitter, as parsed. *)
Definition slash_pattern : regex :=
  Seq (Seq (Repeat 0 None (Class false [Space]))
         (Seq (Char 47) (Seq (Repeat 0 None (Class false [Space])) Empty)))
      Empty.

Definition gap_pattern : regex :=
  Seq (Seq (Repeat 3 None (Class false [Space])) Empty) Empty.

(** The word splitter for a non-empty word separator. *)
Definition word_pattern (wordSep : jsstring) : regex :=
  Alt (Seq (seq_literal wordSep Empty) Empty) (Alt slash_pattern gap_pattern).

(** [sep] occurs somewhere in [s]. *)
Fixpoint occurs (sep s : jsstring) : bool :=
  match strip_prefix sep s with
  | Some _ => true
  | None =>
      match s with
      | [] => false
      | _ :: s' => occurs sep s'
      end
  end.

(** [s] starts with three white-space code units; [s] contains three
    white-space code units in a row. *)
Definition starts_with_gap (s : jsstring) : bool :=
  match s with
  | a :: b :: c :: _ => is_space a && is_space b && is_space c
  | _ => false
  end.

Fixpoint has_gap (s : jsstring) : bool :=
  starts_with_gap s || match s with [] => false | _ :: s' => has_gap s' end.

(** A dot or a dash. *)
Definition signal (u : Z) : bool := (u =? 46) || (u =? 45).

(** The character can be encoded: its uppercase form is a key of the
    table.  These are the keys themselves and the lowercase letters. *)
Definition encodable (u : Z) : bool :=
  match own_property MORSE [ascii_upper u] with
  | Some _ => true
  | None => false
  end.

(** The Morse code of a key of the table. *)
Definition morse_code (c : Z) : jsstring :=
  match own_property MORSE [c] with
  | Some v => v
  | None => []
  end.

(** What the round trip needs of an entry of the table: the key is one
    printable character other than the space, already uppercase; the code
    is a non-empty text of dots and dashes; and the inverse table maps the
    code back to the key. *)
Definition entry_ok (kv : jsstring * jsstring) : bool :=
  match fst kv with
  | [c] => plain c && negb (c =? 32) && (ascii_upper c =? c)
  | _ => false
  end
  && nonempty (snd kv) && forallb signal (snd kv)
  && match get REVMORSE (snd kv) with
     | Some (VString k) => jsstring_eqb k (fst kv)
     | _ => false
     end.

(** The codes of the characters of [t]. *)
Definition codes_of (t : jsstring) : list jsstring :=
  map morse_code (map ascii_upper t).

(** Characters [normalizePunctuation] rewrites or removes. *)
Definition normalized_away (u : Z) : bool :=
  existsb (Z.eqb u)
    [0x2013; 0x2014; 0x2212; 0xB7; 0x2022; 0x2219; 0x200B; 0x200C; 0x200D; 0xFEFF].

(** A character a letter separator can contain without being confused
    with the signals, the slash or the characters the decoder rewrites. *)
Definition separator_safe (u : Z) : bool :=
  negb ((u =? 46) || (u =? 45) || (u =? 47) || normalized_away u).

(** *** Code points, bytes and digits *)

Definition code_unit (u : Z) : bool := (0 <=? u) && (u <? 65536).

(** Well-formed UTF-16: code units in range, every surrogate paired. *)
Fixpoint well_formed (s : jsstring) : bool :=
  match s with
  | [] => true
  | u :: rest =>
      if is_lead u then
        match rest with
        | v :: rest' => is_trail v && well_formed rest'
        | [] => false
        end
      else code_unit u && negb (is_trail u) && well_formed rest
  end.

(** The code point of an element of [chars s]. *)
Definition cp_of (ch : jsstring) : Z :=
  match codePointAt0 ch with
  | Some c => c
  | None => 0
  end.

(** The code points of a string. *)
Definition code_points (s : jsstring) : list Z := map cp_of (chars s).

(** A Unicode scalar value. *)
Definition scalar_value (cp : Z) : bool :=
  (0 <=? cp) && (cp <=? 0x10FFFF) && negb (is_surrogate cp).

(** The code point of a surrogate pair. *)
Definition pair_code_point (u v : Z) : Z :=
  (u - 0xD800) * 0x400 + (v - 0xDC00) + 0x10000.

(** The text starts with U+FEFF. *)
Definition starts_with_feff (s : jsstring) : bool :=
  match s with
  | u :: _ => u =? 0xFEFF
  | [] => false
  end.

(** The last code unit of the text is a space. *)
Fixpoint ends_in_space (s : jsstring) : bool :=
  match s with
  | [] => false
  | [u] => u =? 32
  | _ :: s' => ends_in_space s'
  end.

Definition is_byte (b : Z) : bool := (0 <=? b) && (b <? 256).

Definition is_hex_digit (u : Z) : bool :=
  ((48 <=? u) && (u <=? 57)) || ((97 <=? u) && (u <=? 102)) || ((65 <=? u) && (u <=? 70)).

(** [hex_pair] without the host: on hexadecimal digits [toUpperCase] is
    the ASCII mapping. *)
Definition hex_pair_text (upper : bool) (b : Z) : jsstring :=
  let hex := padStart 2 (str "0") (number_toString 16 b) in
  if upper then map ascii_upper hex else hex.

(** A byte is printed as two hexadecimal digits that [parseInt] reads
    back. *)
Definition hex_pair_ok (upper : bool) (b : Z) : bool :=
  match hex_pair_text upper b with
  | [d1; d2] =>
      is_hex_digit d1 && is_hex_digit d2 && (to_uint8 (parseInt [d1; d2] 16) =? b)
  | _ => false
  end.

(** Percent-encoded bytes: the bytes [keep] accepts are written as they
    are, the others as [%XX]. *)
Definition percent_text (keep : Z -> bool) (bytes : list Z) : jsstring :=
  flat_map (fun b => if keep b then [b] else percent_byte b) bytes.

(** [keep] accepts ASCII characters only, and not the percent sign. *)
Definition keeps_ascii (keep : Z -> bool) : Prop :=
  forall b, keep b = true -> 0 <= b < 128 /\ b <> 37.

(** The two digits of [%XX] are read back as the byte, and the first is
    not the letter u. *)
Definition percent_byte_ok (b : Z) : bool :=
  match hex_octet (upper_hex_digit (b / 16)) (upper_hex_digit (b mod 16)) with
  | Some v => (v =? b) && negb (upper_hex_digit (b / 16) =? 117)
  | None => false
  end.

(** The 6-bit values [btoa] writes for a list of bytes, and the padding
    that follows them. *)
Fixpoint sextets (bytes : list Z) : list Z :=
  match bytes with
  | a :: b :: c :: rest =>
      Z.shiftr a 2
      :: Z.lor (Z.shiftl (Z.land a 3) 4) (Z.shiftr b 4)
      :: Z.lor (Z.shiftl (Z.land b 15) 2) (Z.shiftr c 6)
      :: Z.land c 63
      :: sextets rest
  | [a; b] =>
      [Z.shiftr a 2; Z.lor (Z.shiftl (Z.land a 3) 4) (Z.shiftr b 4);
       Z.shiftl (Z.land b 15) 2]
  | [a] => [Z.shiftr a 2; Z.shiftl (Z.land a 3) 4]
  | [] => []
  end.

Fixpoint padding (bytes : list Z) : jsstring :=
  match bytes with
  | _ :: _ :: _ :: rest => padding rest
  | [_; _] => [61]
  | [_] => [61; 61]
  | [] => []
  end.

Definition is_sextet (v : Z) : bool := (0 <=? v) && (v <? 64).

(** A 6-bit value is read back from its character, which is neither [=]
    nor white space. *)
Definition sextet_ok (v : Z) : bool :=
  match base64_value (base64_char v) with
  | Some w =>
      (w =? v) && negb (base64_char v =? 61)
      && negb (is_ascii_whitespace (base64_char v))
  | None => false
  end.

(** The removal of the padding in [atob]. *)
Definition strip_padding (d : jsstring) : jsstring :=
  match rev d with
  | e1 :: e2 :: r => if e1 =? 61 then (if e2 =? 61 then rev r else rev (e2 :: r)) else d
  | _ => d
  end.

Definition binary_digit (u : Z) : bool := (u =? 48) || (u =? 49).

(** A non-empty word of binary digits. *)
Definition binary_word (w : jsstring) : bool := nonempty w && forallb binary_digit w.

(** The word [textToBinary] writes for a code point, in groups of 8 bits. *)
Definition binary_of (cp : Z) : jsstring :=
  let bin := number_toString 2 cp in
  padStart (ceil_to_multiple (Z.of_nat (length bin)) 8) (str "0") bin.

(** A part printed for a byte: two hexadecimal digits. *)
Definition digit_pair (p : jsstring) : Prop :=
  exists d1 d2, p = [d1; d2] /\ is_hex_digit d1 = true /\ is_hex_digit d2 = true.

(** Side conditions on the state of the UTF-8 decoder. *)
Ltac utf8_side :=
  cbn [bytes_needed bytes_seen code_point lower_boundary upper_boundary];
  repeat match goal with
         | |- context [if ?c then _ else _] => destruct c eqn:?
         end;
  Z.to_euclidean_division_equations; lia.

(** ** Vocabulary of the further properties *)

(** An ASCII letter. *)
Definition is_letter (u : Z) : bool := is_lower u || is_upper u.

(** The byte two hexadecimal digits denote does not depend on their
    case. *)
Definition pair_case_ok (a b : Z) : bool :=
  negb (is_hex_digit a && is_hex_digit b)
  || (to_uint8 (parseInt [ascii_upper a; ascii_upper b] 16)
      =? to_uint8 (parseInt [a; b] 16)).

(** A character of the Base64 alphabet. *)
Definition is_base64_char (c : Z) : bool :=
  match base64_value c with
  | Some _ => true
  | None => false
  end.

Definition not_whitespace (c : Z) : bool := negb (is_ascii_whitespace c).

(** A Base64 text without its [=] signs. *)
Definition unpadded (e : jsstring) : jsstring := filter (fun c => negb (c =? 61)) e.

Definition not_percent (u : Z) : bool := negb (u =? 37).

(** What follows a percent sign is not two hexadecimal digits. *)
Definition bad_escape (rest : jsstring) : bool :=
  match rest with
  | h1 :: h2 :: _ =>
      match hex_octet h1 h2 with
      | Some _ => false
      | None => true
      end
  | _ => true
  end.

(** The characters a percent-encoded text is made of: the unreserved
    ones (which include the digits and the letters A to F) and the percent
    sign. *)
Definition url_safe (u : Z) : bool := uri_unescaped u || (u =? 37).

(** Both digits of [%XX] are unreserved characters. *)
Definition percent_digits_ok (b : Z) : bool :=
  uri_unescaped (upper_hex_digit (b / 16)) && uri_unescaped (upper_hex_digit (b mod 16)).

(** A digit or a letter from A to F. *)
Definition is_upper_hex (u : Z) : bool :=
  ((48 <=? u) && (u <=? 57)) || ((65 <=? u) && (u <=? 70)).

(** The label of a code point, without the host: on hexadecimal digits
    [toUpperCase] is the ASCII mapping. *)
Definition label_digits (cp : Z) : jsstring :=
  padStart 4 (str "0") (map ascii_upper (number_toString 16 cp)).

(** The word [textToBinary] writes for a code point, for any group
    size. *)
Definition binary_group (groupSize : number) (cp : Z) : jsstring :=
  let bin := number_toString 2 cp in
  match groupSize with
  | Some g =>
      if 0 <? g
      then padStart (ceil_to_multiple (Z.of_nat (length bin)) g) (str "0") bin
      else bin
  | None => bin
  end.

(** The length of a word agrees with the group size, when that is
    positive. *)
Definition fits_group (groupSize : number) (w : jsstring) : Prop :=
  match groupSize with
  | Some g => 0 < g -> Z.of_nat (length w) mod g = 0
  | None => True
  end.

Definition not_binary_digit (u : Z) : bool := negb (binary_digit u).

(** The engine builds a string of this length. *)
Definition string_fits `{Host} (s : jsstring) : bool :=
  Z.of_nat (length s) <=? max_string_length.

(** The characters [toMorse] can write when unknown characters are not
    kept: dots, dashes and the characters of the two separators. *)
Definition morse_output_char (letterSep wordSep : jsstring) (u : Z) : bool :=
  signal u || existsb (Z.eqb u) letterSep || existsb (Z.eqb u) wordSep.

(** What [fromMorse] makes of one token: the character the inverse table
    has for it; without one, nothing, or U+FFFD in strict mode. *)
Definition decode_token (strict : bool) (sym : jsstring) : jsstring :=
  match own_property REVMORSE sym with
  | Some k => if nonempty k then k else (if strict then [0xFFFD] else [])
  | None => if strict then [0xFFFD] else []
  end.

(** A Morse token: a non-empty text of dots and dashes. *)
Definition morse_token (c : jsstring) : Prop := c <> [] /\ forallb signal c = true.

(** The tokens of a Morse word: at least one. *)
Definition morse_tokens (toks : list jsstring) : Prop :=
  toks <> [] /\ Forall morse_token toks.

(** The text starts and ends with a dot or a dash. *)
Definition signal_ends (w : jsstring) : Prop :=
  (exists u s, w = u :: s /\ signal u = true)
  /\ (exists v r, rev w = v :: r /\ signal v = true).

(** A character of a Morse text with the default separators. *)
Definition morse_char (u : Z) : bool := signal u || (u =? 32) || (u =? 47).

(** The pattern [new RegExp(delimiter + "+$")] is, for a delimiter
    without pattern syntax: its characters, the last one repeated, then
    the end of the input. *)
Fixpoint trailing_pattern (d : jsstring) : regex :=
  match d with
  | [] => Empty
  | [c] => Seq (Repeat 1 None (Char c)) (Seq InputEnd Empty)
  | c :: d' => Seq (Char c) (trailing_pattern d')
  end.

(** A delimiter for hexadecimal output that is read as itself by the
    pattern language and cannot be taken for digits: not empty, no
    pattern syntax, no hexadecimal digit. *)
Definition plain_delimiter (d : jsstring) : bool :=
  nonempty d && forallb (fun c => negb (is_syntax c) && negb (is_hex_digit c)) d.


(** Pairs of digits in groups: one delimiter character between the pairs
    of a group, three between two groups, nothing at the end.  [i] is the
    index of the first pair. *)
Fixpoint grouped (c g i : Z) (pairs : list jsstring) : jsstring :=
  match pairs with
  | [] => []
  | [p] => p
  | p :: rest =>
      p ++ (if Z.rem (i + 1) g =? 0 then [c; c; c] else [c]) ++ grouped c g (i + 1) rest
  end.

(** What [join] leaves after the last pair when it ends a group. *)
Definition group_tail (c g i : Z) (pairs : list jsstring) : jsstring :=
  match pairs with
  | [] => []
  | _ => if Z.rem (i + Z.of_nat (length pairs)) g =? 0 then [c; c] else []
  end.

(** The number a word of binary digits denotes. *)
Definition binary_value (w : jsstring) : Z :=
  fold_left (fun acc d => acc * 2 + (d - 48)) w 0.

(** The number is a code point. *)
Definition is_code_point (v : Z) : bool := v <=? 0x10FFFF.

(** The ASCII signal a typographic dash or dot stands for. *)
Definition ascii_signal (u : Z) : Z :=
  if (u =? 0x2013) || (u =? 0x2014) || (u =? 0x2212) then 45
  else if (u =? 0xB7) || (u =? 0x2022) || (u =? 0x2219) then 46
  else u.

Definition is_zero_width (u : Z) : bool :=
  (u =? 0x200B) || (u =? 0x200C) || (u =? 0x200D) || (u =? 0xFEFF).

(** * Properties *)

(** ** The fixed examples of the specification

    The translators run on the examples the specification lists; they hold
    on every host. *)

(** Every engine builds the short strings. *)
Lemma padStart_limited_short {host : Host} target fill s :
  target <= 0xFFFF ->
  padStart_limited target fill s = Returns (padStart target fill s).
Proof.
  intros Ht. unfold padStart_limited.
  pose proof max_string_length_bounds as Hmax.
  rewrite Z.min_l by lia.
  assert ((max_string_length <? target) = false) as -> by lia.
  now rewrite andb_false_r.
Qed.

Example textToBinary_A :
  forall host : Host,
    @textToBinary host (str "A") (Some 8) (str " ") false = Returns (str "01000001").
Proof.
  intros host. cbv - [padStart_limited].
  rewrite padStart_limited_short by discriminate. reflexivity.
Qed.

Example binaryToText_hello :
  binaryToText (str "01001000 01100101 01101100 01101100 01101111")
  = Returns (str "Hello").
Proof. vm_compute. reflexivity. Qed.

Example textToHex_Hi :
  forall host : Host,
    @textToHex host (str "Hi") (str " ") true (Some 1) = Returns (str "48 69").
Proof. intros host. vm_compute. reflexivity. Qed.

Example hexToText_hello_world :
  hexToText (str "48 65 6C 6C 6F 2C 20 77 6F 72 6C 64 21")
  = Returns (str "Hello, world!").
Proof. vm_compute. reflexivity. Qed.

Example textToBase64_Hello :
  textToBase64 (str "Hello") = Returns (str "SGVsbG8=")
  /\ base64ToText (str "SGVsbG8=") = Returns (str "Hello").
Proof. split; vm_compute; reflexivity. Qed.

Example urlEncode_hello_world :
  urlEncode (str "hello world") = Returns (str "hello%20world")
  /\ urlDecode (str "hello%20world") = Returns (str "hello world").
Proof. split; vm_compute; reflexivity. Qed.

Example rot13_attack_at_dawn :
  rot (str "Attack At Dawn") (Some 13) = str "Nggnpx Ng Qnja".
Proof. vm_compute. reflexivity. Qed.

Example toMorse_sos_help :
  forall host : Host,
    @toMorse host (str "SOS help!") (str " ") (str " / ") false
    = str "... --- ... / .... . .-.. .--. -.-.--".
Proof. intros host. vm_compute. reflexivity. Qed.

Example fromMorse_strict_placeholder :
  forall host : Host,
    @fromMorse host (str "-.-.-. garbage") (str " ") (str " / ") true
    = Returns [59; 0xFFFD].
Proof. intros host. vm_compute. reflexivity. Qed.

(** ** Evaluations on the inputs the specification names *)

(** A text that starts with U+FEFF does not survive [textToHex] followed
    by [hexToText].  The bytes EF BB BF are produced, and the decoder drops
    them as a byte order mark: U+FEFF followed by "Hi" comes back as
    "Hi". *)
Example hex_round_trip_loses_leading_feff :
  forall host : Host,
    @textToHex host (0xFEFF :: str "Hi") (str " ") true (Some 1)
      = Returns (str "EF BB BF 48 69")
    /\ hexToText (str "EF BB BF 48 69") = Returns (str "Hi").
Proof. intros host. split; vm_compute; reflexivity. Qed.

(** [textToBinary] throws a RangeError when the group size is above the
    length of the longest string, here 2^29 on an engine that stops at
    2^29 - 24. *)
Example textToBinary_group_of_2_29 :
  @textToBinary plain_host (str "A") (Some (2 ^ 29)) (str " ") false = Throws RangeError.
Proof. vm_compute. reflexivity. Qed.

(** [textToHex] throws a SyntaxError when the delimiter is not a valid
    pattern (here an opening parenthesis, or the empty delimiter), and
    [urlEncode] throws a URIError on an unpaired surrogate. *)
Example encoders_can_throw :
  (forall host : Host,
      @textToHex host (str "A") (str "(") true (Some 1) = Throws SyntaxError
      /\ @textToHex host (str "A") [] true (Some 1) = Throws SyntaxError)
  /\ urlEncode [0xD800] = Throws URIError.
Proof. split; [intros host; split|]; vm_compute; reflexivity. Qed.

Lemma fromMorse_example_value :
  forall host : Host,
    @fromMorse host (str "... --- ... / .... . .-.. .--. -.-.--") (str " ") (str " / ") false
      = Returns (str "SOS HELP!").
Proof. intros host. vm_compute. reflexivity. Qed.

(** C4, as amended: the Morse text of the specification decodes to
    "SOS HELP!"; the last token, [-.-.--], is the code of the exclamation
    mark in the table and is decoded, not dropped. *)
Theorem fromMorse_sos_help :
  forall host : Host,
    @fromMorse host (str "... --- ... / .... . .-.. .--. -.-.--") (str " ") (str " / ") false
      = Returns (str "SOS HELP!")
    /\ get REVMORSE (str "-.-.--") = Some (VString (str "!")).
Proof. intros host. split; [apply fromMorse_example_value | vm_compute; reflexivity]. Qed.

(** C4, counterexample: on no host is the result "sos help" up to case. *)
Lemma fromMorse_sos_help_not_dropped :
  ~ (exists (host : Host) (r : jsstring),
        @fromMorse host (str "... --- ... / .... . .-.. .--. -.-.--") (str " ") (str " / ") false
          = Returns r
        /\ same_ignoring_case r (str "sos help") = true).
Proof.
  intros (host & r & Hr & Hsame).
  rewrite fromMorse_example_value in Hr.
  inversion Hr; subst r. vm_compute in Hsame. discriminate.
Qed.

(** C5, as amended: [hexToText("ABC")] returns the diagnostic
    "Invalid hex length"; [binaryToText("2")] returns the empty string,
    the character "2" being read as a separator that leaves no token.
    Neither call throws. *)
Theorem malformed_input_results :
  hexToText (str "ABC") = Returns (str "Invalid hex length")
  /\ returns_diagnostic (hexToText (str "ABC")) = true
  /\ binaryToText (str "2") = Returns [].
Proof. repeat split; vm_compute; reflexivity. Qed.

(** C5, counterexample: [binaryToText("2")] does not return a diagnostic
    string. *)
Lemma binaryToText_2_not_diagnostic :
  ~ (returns_diagnostic (hexToText (str "ABC")) = true
     /\ returns_diagnostic (binaryToText (str "2")) = true).
Proof. intros [_ H]. vm_compute in H. discriminate. Qed.

(** C6, at the failing input: the bytes of "FF" are not valid UTF-8, and
    [hexToText] returns the replacement character U+FFFD, not the
    diagnostic "Invalid hex sequence": the decoder is not created with
    [fatal], so the [catch] branch is never taken. *)
Theorem hexToText_invalid_utf8_is_replaced :
  hexToText (str "FF") = Returns [0xFFFD]
  /\ returns_diagnostic (hexToText (str "FF")) = false.
Proof. split; vm_compute; reflexivity. Qed.

(** C7, at the failing input: with two bytes per group the delimiter is
    put between all bytes and three times between groups. *)
Theorem textToHex_groups_of_two :
  forall host : Host,
    @textToHex host (str "Hello") (str " ") true (Some 2)
      = Returns (str "48 65   6C 6C   6F").
Proof. intros host. vm_compute. reflexivity. Qed.

(** C9: the emoji U+1F600 is rendered by [textToHex] as its four UTF-8
    bytes, four two-digit pairs separated by single spaces, and
    [inspectUnicode] yields exactly one record for it, with code point
    128512 and label "U+1F600". *)
Theorem emoji_bytes_and_code_point :
  forall host : Host,
    @textToHex host grinning_face (str " ") true (Some 1) = Returns (str "F0 9F 98 80")
    /\ map (@length Z) (split_string (str " ") (str "F0 9F 98 80")) = [2; 2; 2; 2]%nat
    /\ @inspectUnicode host grinning_face
         = Returns [mkRecord grinning_face 128512 (str "U+1F600")].
Proof. intros host. repeat split; vm_compute; reflexivity. Qed.

(** ** The string iterator *)

(** Induction along the way [chars] cuts a string: one code unit at a
    time, or a surrogate pair at once. *)
Lemma chars_ind (P : jsstring -> Prop) :
  P [] ->
  (forall u rest,
      (forall v rest', rest = v :: rest' -> is_lead u && is_trail v = false) ->
      P rest -> P (u :: rest)) ->
  (forall u v rest, is_lead u = true -> is_trail v = true -> P rest -> P (u :: v :: rest)) ->
  forall t, P t.
Proof.
  intros Hnil Hone Hpair t.
  assert (H : forall n t, (length t <= n)%nat -> P t).
  { induction n as [|n IH]; intros [|u rest] Hlen; simpl in Hlen; try assumption; try lia.
    destruct rest as [|v rest'].
    - apply Hone; [intros; discriminate | assumption].
    - destruct (is_lead u && is_trail v) eqn:E.
      + apply andb_prop in E as [E1 E2].
        apply Hpair; trivial. apply IH. simpl in Hlen. lia.
      + apply Hone.
        * intros v0 r0 Heq. inversion Heq; subst. exact E.
        * apply IH. simpl in *. lia. }
  apply (H (length t)). lia.
Qed.

Lemma chars_single u rest :
  (forall v rest', rest = v :: rest' -> is_lead u && is_trail v = false) ->
  chars (u :: rest) = [u] :: chars rest.
Proof.
  intros H. destruct rest as [|v rest']; [reflexivity|].
  simpl. rewrite (H v rest' eq_refl). reflexivity.
Qed.

Lemma chars_pair u v rest :
  is_lead u = true -> is_trail v = true ->
  chars (u :: v :: rest) = [u; v] :: chars rest.
Proof. intros Hu Hv. simpl. rewrite Hu, Hv. reflexivity. Qed.

Lemma join_nil parts : join [] parts = concat parts.
Proof.
  induction parts as [|p [|q rest] IH]; simpl in *.
  - reflexivity.
  - now rewrite app_nil_r.
  - now rewrite IH.
Qed.

(** ** ROT *)

Lemma rem_wrap x : Z.rem (Z.rem x 26 + 26) 26 = x mod 26.
Proof. Z.to_euclidean_division_equations. lia. Qed.

Lemma surrogate_not_letter u :
  is_surrogate u = true -> is_lower u = false /\ is_upper u = false.
Proof. unfold is_surrogate, is_lower, is_upper. lia. Qed.

Lemma lead_is_surrogate u : is_lead u = true -> is_surrogate u = true.
Proof. unfold is_lead, is_surrogate. lia. Qed.

Lemma trail_is_surrogate u : is_trail u = true -> is_surrogate u = true.
Proof. unfold is_trail, is_surrogate. lia. Qed.

Lemma rotate_unit_surrogate s u : is_surrogate u = true -> rotate_unit s u = u.
Proof.
  intros H. apply surrogate_not_letter in H as [H1 H2].
  unfold rotate_unit. now rewrite H1, H2.
Qed.

Lemma to_double_exact z : Z.abs z < 0x20000000000000 -> to_double z = z.
Proof.
  intros H. unfold to_double.
  now assert ((Z.abs z <? 9007199254740992) = true) as -> by lia.
Qed.

(** [rot] works code unit by code unit. *)
Lemma rot_is_map t s : exact_shift s = true -> rot t (Some s) = map (rotate_unit s) t.
Proof.
  intros Hs. unfold exact_shift in Hs. unfold rot. rewrite join_nil.
  induction t as [|u rest Hsingle IH|u v rest Hu Hv IH] using chars_ind.
  - reflexivity.
  - rewrite (chars_single _ _ Hsingle). cbn [map concat]. rewrite IH.
    cbn [charCodeAt0 hd_error]. unfold rotate_unit, is_lower, is_upper, fromCharCode.
    rewrite !rem_wrap.
    destruct ((97 <=? u) && (u <=? 122)) eqn:El.
    + rewrite to_double_exact by lia.
      cbn [app]. f_equal. rewrite Z.mod_small.
      * lia.
      * pose proof (Z.mod_pos_bound (u - 97 + s) 26). lia.
    + destruct ((65 <=? u) && (u <=? 90)) eqn:Eu.
      * rewrite to_double_exact by lia.
        cbn [app]. f_equal. rewrite Z.mod_small.
        -- lia.
        -- pose proof (Z.mod_pos_bound (u - 65 + s) 26). lia.
      * reflexivity.
  - rewrite (chars_pair _ _ _ Hu Hv). cbn [map concat]. rewrite IH.
    cbn [charCodeAt0 hd_error].
    pose proof (surrogate_not_letter u (lead_is_surrogate u Hu)) as [Hl Hup].
    unfold is_lower in Hl. unfold is_upper in Hup. rewrite Hl, Hup.
    rewrite (rotate_unit_surrogate s u (lead_is_surrogate u Hu)).
    rewrite (rotate_unit_surrogate s v (trail_is_surrogate v Hv)).
    reflexivity.
Qed.

Lemma rotate_unit_keeps_class s u :
  is_lower (rotate_unit s u) = is_lower u
  /\ is_upper (rotate_unit s u) = is_upper u.
Proof.
  unfold rotate_unit.
  destruct (is_lower u) eqn:El; [|destruct (is_upper u) eqn:Eu].
  - pose proof (Z.mod_pos_bound (u - 97 + s) 26).
    unfold is_lower, is_upper in *. lia.
  - pose proof (Z.mod_pos_bound (u - 65 + s) 26).
    unfold is_lower, is_upper in *. lia.
  - now rewrite El, Eu.
Qed.

Lemma rotate_unit_inverse s1 s2 u :
  (s1 + s2) mod 26 = 0 -> rotate_unit s2 (rotate_unit s1 u) = u.
Proof.
  intros H.
  pose proof (rotate_unit_keeps_class s1 u) as [Hl Hu].
  unfold rotate_unit at 1. rewrite Hl, Hu.
  unfold rotate_unit.
  destruct (is_lower u) eqn:El; [|destruct (is_upper u) eqn:Eu]; trivial.
  - unfold is_lower in El.
    replace (97 + (u - 97 + s1) mod 26 - 97 + s2) with ((u - 97 + s1) mod 26 + s2) by lia.
    rewrite Zplus_mod_idemp_l.
    replace (u - 97 + s1 + s2) with ((u - 97) + (s1 + s2)) by lia.
    rewrite <- Zplus_mod_idemp_r, H, Z.add_0_r, Z.mod_small; lia.
  - unfold is_upper in Eu.
    replace (65 + (u - 65 + s1) mod 26 - 65 + s2) with ((u - 65 + s1) mod 26 + s2) by lia.
    rewrite Zplus_mod_idemp_l.
    replace (u - 65 + s1 + s2) with ((u - 65) + (s1 + s2)) by lia.
    rewrite <- Zplus_mod_idemp_r, H, Z.add_0_r, Z.mod_small; lia.
Qed.

Lemma rot_inverse t s1 s2 :
  exact_shift s1 = true -> exact_shift s2 = true ->
  (s1 + s2) mod 26 = 0 -> rot (rot t (Some s1)) (Some s2) = t.
Proof.
  intros H1 H2 H. rewrite !rot_is_map, map_map by assumption.
  rewrite <- (map_id t) at 2. apply map_ext.
  intros u. now apply rotate_unit_inverse.
Qed.

Lemma exact_shift_small s : -51 <= s <= 51 -> exact_shift s = true.
Proof. unfold exact_shift. lia. Qed.

(** C8: for a shift [s] that the Number type adds to the rank of a letter
    without rounding (at most 2^53 - 26 in absolute value), [rot] by [s]
    is undone by [rot] by [26 - (s mod 26)], whether [mod] is the
    mathematical remainder or the [%] of the language; a shift of 0 is the
    identity; a shift of 13 applied twice is the identity; and [rot] maps
    each code unit on its own: a lowercase letter to a lowercase letter,
    an uppercase letter to an uppercase letter, anything else to
    itself. *)
Theorem rot_involution :
  forall (t : jsstring) (s : Z),
    exact_shift s = true ->
    rot (rot t (Some s)) (Some (26 - s mod 26)) = t
    /\ rot (rot t (Some s)) (Some (26 - Z.rem s 26)) = t
    /\ rot t (Some 0) = t
    /\ rot (rot t (Some 13)) (Some 13) = t
    /\ rot t (Some s) = map (rotate_unit s) t
    /\ (forall u,
          is_lower (rotate_unit s u) = is_lower u
          /\ is_upper (rotate_unit s u) = is_upper u
          /\ (is_lower u = false -> is_upper u = false -> rotate_unit s u = u)).
Proof.
  intros t s Hs. repeat split.
  - apply rot_inverse; trivial.
    + apply exact_shift_small. pose proof (Z.mod_pos_bound s 26). lia.
    + Z.to_euclidean_division_equations. lia.
  - apply rot_inverse; trivial.
    + apply exact_shift_small. Z.to_euclidean_division_equations. lia.
    + Z.to_euclidean_division_equations. lia.
  - rewrite rot_is_map by reflexivity. rewrite <- (map_id t) at 2. apply map_ext.
    intros u. unfold rotate_unit.
    destruct (is_lower u) eqn:El; [|destruct (is_upper u) eqn:Eu]; trivial.
    + unfold is_lower in El. rewrite Z.add_0_r, Z.mod_small; lia.
    + unfold is_upper in Eu. rewrite Z.add_0_r, Z.mod_small; lia.
  - apply rot_inverse; reflexivity.
  - now apply rot_is_map.
  - apply rotate_unit_keeps_class.
  - apply rotate_unit_keeps_class.
  - intros Hl Hu. unfold rotate_unit. now rewrite Hl, Hu.
Qed.

Lemma rot_involution_witness :
  exact_shift 3 = true
  /\ rot (rot (str "Hello, World!") (Some 3)) (Some (26 - 3 mod 26)) = str "Hello, World!"
  /\ rot (str "Hello, World!") (Some 3) = map (rotate_unit 3) (str "Hello, World!").
Proof.
  split; [reflexivity|].
  pose proof (rot_involution (str "Hello, World!") 3 eq_refl) as (H1 & _ & _ & _ & H5 & _).
  split; [exact H1|exact H5].
Defined.

(** C8, counterexample: 2^53 is an integer and a Number, but the sum
    1 + 2^53 is rounded to 2^53, so [rot] by 2^53 sends "a" and "b" to the
    same letter, and no second rotation gives "ab" back. *)
Lemma rot_involution_fails_beyond_2_53 :
  rot (str "ab") (Some (2 ^ 53)) = str "gg"
  /\ ~ (forall (t : jsstring) (s : Z), rot (rot t (Some s)) (Some (26 - s mod 26)) = t).
Proof.
  split; [vm_compute; reflexivity|].
  intros H. specialize (H (str "ab") (2 ^ 53)). vm_compute in H. discriminate.
Qed.

(** ** Hexadecimal output *)

Lemma plain_not_line_terminator u : plain u = true -> is_line_terminator u = false.
Proof. unfold plain, is_line_terminator. lia. Qed.

Lemma plain_ascii_upper u : plain u = true -> plain (ascii_upper u) = true.
Proof.
  unfold plain, ascii_upper. intros H.
  destruct ((97 <=? u) && (u <=? 122)) eqn:E; lia.
Qed.

Lemma plain_not_surrogate u : plain u = true -> is_lead u = false.
Proof. unfold plain, is_lead. lia. Qed.

Lemma chars_plain s :
  forallb plain s = true -> chars s = map (fun u => [u]) s.
Proof.
  induction s as [|u rest IH]; intros H; [reflexivity|].
  cbn [forallb] in H. apply andb_prop in H as [Hu Hrest].
  rewrite chars_single.
  - cbn [map]. now rewrite IH.
  - intros v rest' _. now rewrite (plain_not_surrogate u Hu).
Qed.

(** On plain text [toUpperCase] does not consult the host. *)
Lemma toUpperCase_plain {host : Host} s :
  forallb plain s = true -> toUpperCase s = map ascii_upper s.
Proof.
  intros H. unfold toUpperCase. rewrite (chars_plain s H).
  induction s as [|u rest IH]; [reflexivity|].
  cbn [forallb] in H. apply andb_prop in H as [Hu Hrest].
  cbn [map flat_map codePointAt0].
  assert ((u <? 128) = true) as -> by (unfold plain in Hu; lia).
  cbn [app]. f_equal. now apply IH.
Qed.

Lemma forallb_map_plain_upper s :
  forallb plain s = true -> forallb plain (map ascii_upper s) = true.
Proof.
  induction s as [|u rest IH]; intros H; [reflexivity|].
  cbn [forallb map] in *. apply andb_prop in H as [Hu Hrest].
  now rewrite (plain_ascii_upper u Hu), IH.
Qed.

Lemma digit_char_plain d : 0 <= d < 36 -> plain (digit_char d) = true.
Proof. unfold plain, digit_char. intros H. destruct (d <? 10) eqn:E; lia. Qed.

Lemma digits_from_plain fuel n acc :
  0 <= n -> forallb plain acc = true ->
  forallb plain (digits_from fuel 16 n acc) = true.
Proof.
  revert n acc. induction fuel as [|f IH]; intros n acc Hn Hacc; [exact Hacc|].
  cbn [digits_from]. destruct (n <? 16) eqn:E.
  - cbn [forallb]. rewrite digit_char_plain by lia. exact Hacc.
  - apply IH.
    + apply Z.div_pos; lia.
    + cbn [forallb]. rewrite digit_char_plain, Hacc; trivial.
      pose proof (Z.mod_pos_bound n 16). lia.
Qed.

Lemma number_toString_16_plain n : forallb plain (number_toString 16 n) = true.
Proof.
  unfold number_toString. destruct (n <? 0) eqn:E.
  - cbn [forallb]. rewrite digits_from_plain; trivial. lia.
  - apply digits_from_plain; trivial. lia.
Qed.

Lemma cycle_fill_zero_plain n cur :
  forallb plain cur = true -> forallb plain (cycle_fill n (str "0") cur) = true.
Proof.
  revert cur. induction n as [|n IH]; intros cur H; [reflexivity|].
  destruct cur as [|c cur']; cbn [cycle_fill].
  - change (str "0") with [48]. cbn [forallb]. rewrite IH; reflexivity.
  - cbn [forallb] in *. apply andb_prop in H as [Hc Hcur]. now rewrite Hc, IH.
Qed.

Lemma padStart_zero_plain target s :
  forallb plain s = true -> forallb plain (padStart target (str "0") s) = true.
Proof.
  intros H. unfold padStart.
  destruct ((target <=? Z.of_nat (length s)) || negb (nonempty (str "0"))); trivial.
  rewrite forallb_app, H, cycle_fill_zero_plain; reflexivity.
Qed.

Lemma padStart_2_nonempty s : padStart 2 (str "0") s <> [].
Proof.
  unfold padStart. destruct s as [|u s'].
  - vm_compute. discriminate.
  - destruct ((2 <=? Z.of_nat (length (u :: s'))) || negb (nonempty (str "0")));
      [discriminate|].
    intros H. apply app_eq_nil in H as [_ H]. discriminate.
Qed.

Section HexParts.
Context {host : Host}.

Lemma hex_pair_plain upper b : forallb plain (hex_pair upper b) = true.
Proof.
  unfold hex_pair.
  pose proof (padStart_zero_plain 2 _ (number_toString_16_plain b)) as H.
  destruct upper; trivial.
  rewrite (toUpperCase_plain _ H). now apply forallb_map_plain_upper.
Qed.

Lemma hex_pair_nonempty upper b : hex_pair upper b <> [].
Proof.
  unfold hex_pair.
  pose proof (padStart_zero_plain 2 _ (number_toString_16_plain b)) as H.
  destruct upper; [|apply padStart_2_nonempty].
  rewrite (toUpperCase_plain _ H). intros E.
  apply map_eq_nil in E. now apply padStart_2_nonempty in E.
Qed.

Lemma hex_parts_plain delimiter upper bytesPerGroup i bytes :
  forallb plain delimiter = true ->
  forallb (forallb plain) (hex_parts delimiter upper bytesPerGroup i bytes) = true.
Proof.
  intros Hd. revert i. induction bytes as [|b rest IH]; intros i; [reflexivity|].
  cbn [hex_parts]. fold (hex_pair upper b).
  cbn [forallb]. rewrite hex_pair_plain. rewrite forallb_app, IH.
  destruct (match bytesPerGroup with
            | Some g => (1 <? g) && (Z.rem (i + 1) g =? 0)
            | None => false
            end); cbn [forallb]; now rewrite ?Hd.
Qed.

Lemma hex_parts_head delimiter upper bytesPerGroup i b rest :
  exists more,
    hex_parts delimiter upper bytesPerGroup i (b :: rest) = hex_pair upper b :: more.
Proof. cbn [hex_parts]. fold (hex_pair upper b). eexists. reflexivity. Qed.

End HexParts.

Lemma join_plain sep parts :
  forallb plain sep = true -> forallb (forallb plain) parts = true ->
  forallb plain (join sep parts) = true.
Proof.
  intros Hs. induction parts as [|p [|q rest] IH]; intros H; trivial.
  - cbn [forallb] in H. cbn [join]. now apply andb_prop in H as [H _].
  - cbn [forallb] in H. apply andb_prop in H as [Hp Hrest].
    change (join sep (p :: q :: rest)) with (p ++ sep ++ join sep (q :: rest)).
    rewrite !forallb_app, Hp, Hs. apply IH. exact Hrest.
Qed.

Lemma join_head_nonempty sep p rest : p <> [] -> join sep (p :: rest) <> [].
Proof.
  intros Hp. destruct rest as [|q rest]; cbn [join]; trivial.
  intros H. apply app_eq_nil in H as [H _]. contradiction.
Qed.

Lemma utf8_bytes_nonempty cp : utf8_bytes cp <> [].
Proof.
  unfold utf8_bytes.
  destruct (cp <? 0x80); [discriminate|].
  destruct (cp <? 0x800); [discriminate|].
  destruct (cp <? 0x10000); discriminate.
Qed.

Lemma TextEncoder_encode_nonempty t : t <> [] -> TextEncoder_encode t <> [].
Proof.
  intros Ht. destruct t as [|u rest]; [contradiction|]. clear Ht.
  unfold TextEncoder_encode.
  assert (exists c more, chars (u :: rest) = c :: more
                         /\ exists cp, codePointAt0 c = Some cp) as (c & more & -> & cp & Hcp).
  { destruct rest as [|v rest']; cbn [chars].
    - exists [u], []. split; trivial. now exists u.
    - destruct (is_lead u && is_trail v) eqn:E.
      + eexists _, _. split; [reflexivity|]. cbn [codePointAt0]. rewrite E. eauto.
      + eexists _, _. split; [reflexivity|]. cbn [codePointAt0]. eauto. }
  cbn [flat_map]. rewrite Hcp. intros H. apply app_eq_nil in H as [H _].
  now apply utf8_bytes_nonempty in H.
Qed.

(** ** Greedy repetition of [.] *)

Lemma matches_seq r1 r2 x :
  matches (Seq r1 r2) x = flat_map (matches r2) (matches r1 x).
Proof. reflexivity. Qed.

Lemma matches_alt r1 r2 x : matches (Alt r1 r2) x = matches r1 x ++ matches r2 x.
Proof. reflexivity. Qed.

Lemma matches_repeat lo hi r x :
  matches (Repeat lo hi r) x = repeat_matcher (matches r) (S (lo + length x)) lo hi x.
Proof. reflexivity. Qed.

(** One more iteration of an unbounded repetition. *)
Lemma repeat_matcher_unbounded m fuel lo x :
  repeat_matcher m (S fuel) lo None x =
  let again :=
    flat_map
      (fun y =>
         if Nat.eqb lo 0 && Nat.eqb (length y) (length x) then []
         else repeat_matcher m fuel (Nat.pred lo) None y)
      (m x) in
  if Nat.eqb lo 0 then again ++ [x] else again.
Proof. reflexivity. Qed.

Lemma length_tail_neq {A} (u : A) (x : list A) :
  Nat.eqb (length x) (length (u :: x)) = false.
Proof. apply Nat.eqb_neq. cbn [length]. lia. Qed.

Lemma star_dot_takes_all fuel x :
  forallb plain x = true -> (length x < fuel)%nat ->
  exists l, repeat_matcher (matches Dot) fuel 0 None x = [] :: l.
Proof.
  revert x. induction fuel as [|f IH]; intros x Hx Hlen; [lia|].
  destruct x as [|u x'].
  - eexists. reflexivity.
  - cbn [forallb] in Hx. apply andb_prop in Hx as [Hu Hx'].
    rewrite repeat_matcher_unbounded.
    change (matches Dot (u :: x')) with (if is_line_terminator u then [] else [x']).
    rewrite (plain_not_line_terminator u Hu).
    cbn [flat_map Nat.eqb andb]. rewrite length_tail_neq. cbn [Nat.pred].
    destruct (IH x' Hx') as [l Hl]; [cbn [length] in Hlen; lia|].
    rewrite Hl. eexists. reflexivity.
Qed.

Lemma plus_dot_end_matches_all x :
  forallb plain x = true -> x <> [] ->
  match_here (Seq (Repeat 1 None Dot) (Seq InputEnd Empty)) x = Some [].
Proof.
  intros Hx Hne. destruct x as [|u x']; [contradiction|].
  cbn [forallb] in Hx. apply andb_prop in Hx as [Hu Hx'].
  unfold match_here. rewrite matches_seq, matches_repeat, repeat_matcher_unbounded.
  change (matches Dot (u :: x')) with (if is_line_terminator u then [] else [x']).
  rewrite (plain_not_line_terminator u Hu).
  cbn [flat_map Nat.eqb andb Nat.pred].
  destruct (star_dot_takes_all (1 + length (u :: x')) x' Hx') as [l Hl];
    [cbn [length]; lia|].
  rewrite Hl. reflexivity.
Qed.

(** C10: [textToHex] reads its delimiter as pattern text, so with the
    delimiter "." the trimming pattern is [.+$] and, for every non-empty
    text, whatever the case option and the group size, the result is the
    empty string. *)
Theorem textToHex_dot_delimiter_is_empty :
  forall (host : Host) (text : jsstring) (upper : bool) (bytesPerGroup : number),
    text <> [] ->
    @textToHex host text (str ".") upper bytesPerGroup = Returns [].
Proof.
  intros host text upper bytesPerGroup Htext.
  unfold textToHex.
  change (RegExp_new (str "." ++ str "+$") false)
    with (Returns (mkRegExp (Seq (Repeat 1 None Dot) (Seq InputEnd Empty)) false)).
  cbn [bind]. f_equal.
  unfold replace, replace_first. cbn [global pattern].
  destruct (TextEncoder_encode text) as [|b bytes] eqn:Eb;
    [now apply TextEncoder_encode_nonempty in Eb|].
  destruct (hex_parts_head (str ".") upper bytesPerGroup 0 b bytes) as [more Hparts].
  assert (Hplain : forallb plain
                     (join (str ".") (hex_parts (str ".") upper bytesPerGroup 0 (b :: bytes)))
                   = true).
  { apply join_plain; [reflexivity|]. apply hex_parts_plain. reflexivity. }
  assert (Hne : join (str ".") (hex_parts (str ".") upper bytesPerGroup 0 (b :: bytes)) <> []).
  { rewrite Hparts. apply join_head_nonempty, hex_pair_nonempty. }
  destruct (join (str ".") (hex_parts (str ".") upper bytesPerGroup 0 (b :: bytes)))
    as [|c joined] eqn:Ej; [contradiction|].
  cbn [exec]. rewrite (plus_dot_end_matches_all _ Hplain Hne).
  reflexivity.
Qed.

(** C10, witness: the text "Hi", uppercase digits, one byte per group. *)
Lemma textToHex_dot_delimiter_witness :
  str "Hi" <> []
  /\ @textToHex plain_host (str "Hi") (str ".") true (Some 1) = Returns [].
Proof.
  split; [discriminate|].
  apply (textToHex_dot_delimiter_is_empty plain_host (str "Hi") true (Some 1)).
  discriminate.
Defined.

(** ** Morse *)

Lemma matches_char_cons c u x : matches (Char c) (u :: x) = if u =? c then [x] else [].
Proof. reflexivity. Qed.

Lemma matches_literal s r x :
  matches (seq_literal s r) x =
  match strip_prefix s x with
  | Some y => matches r y
  | None => []
  end.
Proof.
  revert x. induction s as [|c s IH]; intros x; [reflexivity|].
  cbn [seq_literal fold_right strip_prefix]. fold (seq_literal s r).
  rewrite matches_seq. destruct x as [|u x]; [reflexivity|].
  rewrite matches_char_cons. destruct (u =? c); [|reflexivity].
  cbn [flat_map]. rewrite app_nil_r. apply IH.
Qed.

Lemma exec_never_matches r skipped s :
  never_matches r s = true -> exec r skipped s = None.
Proof.
  revert skipped. induction s as [|u s IH]; intros skipped H; cbn [never_matches exec] in *.
  - destruct (match_here r []); [discriminate|reflexivity].
  - destruct (match_here r (u :: s)); [discriminate|]. now apply IH.
Qed.

Lemma replace_never_matches re template s :
  never_matches (pattern re) s = true -> replace re template s = s.
Proof.
  intros H. unfold replace, replace_all, replace_first.
  cbn [replace_all_from]. rewrite (exec_never_matches _ _ _ H).
  now destruct (global re).
Qed.

Lemma split_from_never_matches r fuel token x :
  (length x < fuel)%nat -> never_matches_inside r x = true ->
  split_from fuel r token x = [rev token ++ x].
Proof.
  revert fuel token. induction x as [|u x IH]; intros fuel token Hf H.
  - destruct fuel; [lia|]. cbn [split_from]. now rewrite app_nil_r.
  - destruct fuel; [cbn [length] in Hf; lia|].
    cbn [split_from never_matches_inside] in *.
    destruct (match_here r (u :: x)); [discriminate|].
    rewrite IH; trivial; [|cbn [length] in Hf; lia].
    cbn [rev]. now rewrite <- app_assoc.
Qed.

(** A character class never matches text without characters of the
    class. *)
Lemma class_never_matches negated items s :
  forallb (fun u => negb (class_has negated items u)) s = true ->
  never_matches (Class negated items) s = true.
Proof.
  induction s as [|u s IH]; intros H; [reflexivity|].
  cbn [forallb] in H. apply andb_prop in H as [Hu Hs].
  cbn [never_matches]. unfold match_here. cbn [matches].
  apply negb_true_iff in Hu. unfold class_has in Hu. rewrite Hu.
  cbn [hd_error]. now apply IH.
Qed.

Lemma trim_start_id u s : is_space u = false -> trim_start (u :: s) = u :: s.
Proof. intros H. cbn [trim_start]. now rewrite H. Qed.

Lemma trim_id s :
  (forall u s', s = u :: s' -> is_space u = false) ->
  (forall u s', rev s = u :: s' -> is_space u = false) ->
  trim s = s.
Proof.
  intros Hfirst Hlast. unfold trim.
  destruct s as [|u s']; [reflexivity|].
  rewrite (trim_start_id u s' (Hfirst u s' eq_refl)).
  destruct (rev (u :: s')) as [|v r] eqn:E.
  - apply (f_equal (@length Z)) in E. rewrite length_rev in E. discriminate.
  - rewrite (trim_start_id v r (Hlast v r eq_refl)). rewrite <- E. apply rev_involutive.
Qed.

(** *** The separators as pattern text *)

Lemma class_split negated items s :
  forallb (fun u => negb (class_has negated items u)) s = true
  \/ exists pre u post,
       s = pre ++ u :: post
       /\ forallb (fun u => negb (class_has negated items u)) pre = true
       /\ class_has negated items u = true.
Proof.
  induction s as [|c s IH]; [now left|].
  destruct (class_has negated items c) eqn:E.
  - right. exists [], c, s. repeat split; trivial.
  - destruct IH as [IH | (pre & u & post & -> & Hpre & Hu)].
    + left. cbn [forallb]. now rewrite E, IH.
    + right. exists (c :: pre), u, post. repeat split; trivial.
      cbn [forallb]. now rewrite E, Hpre.
Qed.

Lemma exec_class_found negated items skipped pre u post :
  forallb (fun u => negb (class_has negated items u)) pre = true ->
  class_has negated items u = true ->
  exec (Class negated items) skipped (pre ++ u :: post)
  = Some (rev skipped ++ pre, u :: post, post).
Proof.
  revert skipped. induction pre as [|c pre IH]; intros skipped Hpre Hu.
  - cbn [app exec]. unfold match_here. cbn [matches].
    unfold class_has in Hu. rewrite Hu.
    cbn [hd_error]. now rewrite app_nil_r.
  - cbn [forallb] in Hpre. apply andb_prop in Hpre as [Hc Hpre].
    apply negb_true_iff in Hc.
    cbn [app exec]. unfold match_here. cbn [matches].
    unfold class_has in Hc. rewrite Hc.
    cbn [hd_error]. rewrite IH; trivial. cbn [rev]. now rewrite <- app_assoc.
Qed.

Lemma matched_text_one {A} (u : A) (post : list A) :
  firstn (length (u :: post) - length post) (u :: post) = [u].
Proof.
  replace (length (u :: post) - length post)%nat with 1%nat by (cbn [length]; lia).
  reflexivity.
Qed.

Lemma is_syntax_class u : class_has false syntax_items u = is_syntax u.
Proof. reflexivity. Qed.

Lemma flat_map_esc_unit_id s :
  forallb (fun u => negb (class_has false syntax_items u)) s = true ->
  flat_map esc_unit s = s.
Proof.
  induction s as [|c s IH]; intros H; [reflexivity|].
  cbn [forallb] in H. apply andb_prop in H as [Hc Hs].
  apply negb_true_iff in Hc. rewrite is_syntax_class in Hc.
  cbn [flat_map]. unfold esc_unit at 1.
  rewrite Hc, IH; trivial.
Qed.

Lemma esc_from fuel done s :
  (length s < fuel)%nat ->
  replace_all_from fuel (Class false syntax_items) (str "\$&") done s
  = flat_map esc_unit s.
Proof.
  revert done s. induction fuel as [|f IH]; intros done s Hlen; [lia|].
  destruct (class_split false syntax_items s) as [Hnone | (pre & u & post & -> & Hpre & Hu)].
  - cbn [replace_all_from].
    rewrite (exec_never_matches _ _ _ (class_never_matches _ _ _ Hnone)).
    symmetry. now apply flat_map_esc_unit_id.
  - cbn [replace_all_from]. rewrite (exec_class_found _ _ _ _ _ _ Hpre Hu).
    unfold matched_text. rewrite matched_text_one, length_tail_neq.
    rewrite flat_map_app, (flat_map_esc_unit_id pre Hpre).
    cbn [flat_map].
    change (esc_unit u) with (if is_syntax u then [92; u] else [u]).
    rewrite <- is_syntax_class, Hu.
    rewrite IH by (rewrite length_app in Hlen; cbn [length] in Hlen; lia).
    change (str "\$&") with [92; 36; 38].
    cbn [get_substitution Z.eqb Pos.eqb app rev].
    rewrite <- !app_assoc. reflexivity.
Qed.

Lemma esc_is_flat_map s : esc s = flat_map esc_unit s.
Proof.
  unfold esc, replace, pattern_syntax. cbn [global pattern].
  unfold replace_all. apply esc_from. lia.
Qed.

Lemma parse_quantifier_absent a s :
  no_quantifier_ahead s = true -> parse_quantifier a s = Parsed (a, s).
Proof.
  destruct s as [|c s]; [reflexivity|].
  cbn [no_quantifier_ahead]. intros H. apply negb_true_iff in H.
  repeat (apply orb_false_elim in H as [H ?]).
  unfold parse_quantifier.
  repeat match goal with E : (c =? _) = false |- _ => rewrite E; clear E end.
  reflexivity.
Qed.

Lemma alternative_ends_no_quantifier s :
  alternative_ends s = true -> no_quantifier_ahead s = true.
Proof.
  destruct s as [|c s]; [reflexivity|]. cbn [alternative_ends no_quantifier_ahead]. lia.
Qed.

Lemma is_syntax_false c :
  is_syntax c = false ->
  (c =? 46) = false /\ (c =? 42) = false /\ (c =? 43) = false /\ (c =? 63) = false
  /\ (c =? 94) = false /\ (c =? 36) = false /\ (c =? 123) = false /\ (c =? 125) = false
  /\ (c =? 40) = false /\ (c =? 41) = false /\ (c =? 124) = false /\ (c =? 91) = false
  /\ (c =? 93) = false /\ (c =? 92) = false.
Proof.
  unfold is_syntax, syntax_items. cbn [existsb item_matches]. intros H.
  repeat (apply orb_false_elim in H as [? H]). repeat split; assumption.
Qed.

Lemma is_syntax_true c :
  is_syntax c = true ->
  In c [46; 42; 43; 63; 94; 36; 123; 125; 40; 41; 124; 91; 93; 92].
Proof.
  unfold is_syntax, syntax_items. cbn [existsb item_matches In]. intros H.
  repeat (apply orb_true_iff in H as [H | H];
          [apply Z.eqb_eq in H; subst; tauto|]).
  discriminate.
Qed.

Lemma esc_text_no_quantifier s rest :
  no_quantifier_ahead rest = true ->
  no_quantifier_ahead (flat_map esc_unit s ++ rest) = true.
Proof.
  intros H. destruct s as [|c s]; [exact H|].
  cbn [flat_map]. unfold esc_unit at 1. destruct (is_syntax c) eqn:E.
  - reflexivity.
  - apply is_syntax_false in E. cbn [app no_quantifier_ahead].
    destruct E as (_ & E1 & E2 & E3 & _ & _ & E4 & _). now rewrite E1, E2, E3, E4.
Qed.

(** An escaped separator is parsed as the pattern of its code units. *)
Lemma parse_alternative_literal s rest fuel :
  (length s < fuel)%nat -> alternative_ends rest = true ->
  parse_alternative fuel (flat_map esc_unit s ++ rest)
  = Parsed (seq_literal s Empty, rest).
Proof.
  revert fuel. induction s as [|c s IH]; intros fuel Hf Hrest.
  - destruct fuel; [lia|]. cbn [flat_map app seq_literal fold_right].
    destruct rest as [|c rest]; [reflexivity|].
    cbn [alternative_ends] in Hrest. cbn [parse_alternative]. now rewrite Hrest.
  - destruct fuel as [|f]; [lia|]. cbn [length] in Hf.
    assert (Hq : no_quantifier_ahead (flat_map esc_unit s ++ rest) = true)
      by (apply esc_text_no_quantifier, alternative_ends_no_quantifier, Hrest).
    cbn [flat_map seq_literal fold_right]. fold (seq_literal s Empty).
    unfold esc_unit at 1. destruct (is_syntax c) eqn:E.
    + rewrite <- app_assoc. cbn [app parse_alternative Z.eqb Pos.eqb orb].
      apply is_syntax_true in E. cbn [In] in E.
      repeat (destruct E as [E | E];
              [subst c; cbn [parse_escape Z.eqb Pos.eqb orb andb is_digit Z.leb Z.compare Pos.compare Pos.compare_cont];
               rewrite (parse_quantifier_absent _ _ Hq), IH by (trivial; lia); reflexivity|]).
      contradiction.
    + apply is_syntax_false in E.
      destruct E as (E1 & E2 & E3 & E4 & E5 & E6 & E7 & E8 & E9 & E10 & E11 & E12 & E13 & E14).
      rewrite <- app_assoc. cbn [app parse_alternative].
      rewrite E1, E2, E3, E4, E5, E6, E7, E9, E10, E11, E12, E14. cbn [orb].
      rewrite (parse_quantifier_absent _ _ Hq), IH by (trivial; lia). reflexivity.
Qed.

Lemma parse_fixed_alternatives k :
  parse_disjunction (40 + k) (str "(?:\s*/\s*)|(?:\s{3,})")
  = Parsed (Alt slash_pattern gap_pattern, []).
Proof. vm_compute. reflexivity. Qed.

Lemma esc_nonempty s : s <> [] -> flat_map esc_unit s <> [].
Proof.
  destruct s as [|c s]; [contradiction|]. intros _.
  cbn [flat_map]. unfold esc_unit at 1. destruct (is_syntax c); discriminate.
Qed.

Lemma nonempty_true s : s <> [] -> nonempty s = true.
Proof. destruct s; [contradiction|reflexivity]. Qed.

Lemma esc_length s : (length s <= length (flat_map esc_unit s))%nat.
Proof.
  induction s as [|c s IH]; [reflexivity|].
  cbn [flat_map]. rewrite length_app. unfold esc_unit at 1.
  destruct (is_syntax c); cbn [length]; lia.
Qed.

Lemma parse_disjunction_step f s :
  parse_disjunction (S f) s =
  match parse_alternative f s with
  | Parsed (r1, rest) =>
      match rest with
      | c :: rest' =>
          if c =? 124 then
            match parse_disjunction f rest' with
            | Parsed (r2, rest2) => Parsed (Alt r1 r2, rest2)
            | other => other
            end
          else Parsed (r1, rest)
      | [] => Parsed (r1, [])
      end
  | other => other
  end.
Proof. reflexivity. Qed.

Lemma parse_alternative_group f s3 :
  parse_alternative (S f) (40 :: 63 :: 58 :: s3) =
  match
    match parse_disjunction f s3 with
    | Parsed (r, close :: rest) =>
        if close =? 41 then parse_quantifier r rest else BadSyntax
    | Parsed (_, []) => BadSyntax
    | other => other
    end
  with
  | Parsed (t, rest) =>
      match parse_alternative f rest with
      | Parsed (r, rest') => Parsed (Seq t r, rest')
      | other => other
      end
  | other => other
  end.
Proof.
  cbn [parse_alternative Z.eqb Pos.eqb orb].
  destruct (parse_disjunction f s3) as [[r [|close rest]]| |]; try reflexivity.
  destruct (close =? 41); try reflexivity.
  destruct (parse_quantifier r rest) as [[t rest']| |]; reflexivity.
Qed.

Lemma parse_alternative_end f c rest :
  (c =? 124) || (c =? 41) = true ->
  parse_alternative (S f) (c :: rest) = Parsed (Empty, c :: rest).
Proof. intros H. cbn [parse_alternative]. now rewrite H. Qed.

Lemma wordSplitter_parsed wordSep :
  wordSep <> [] ->
  RegExp_new
    (join (str "|")
       (filter nonempty
          [ (if nonempty (esc wordSep) then str "(?:" ++ esc wordSep ++ str ")"
             else esc wordSep);
            str "(?:\s*/\s*)";
            str "(?:\s{3,})" ]))
    true
  = Returns (mkRegExp (word_pattern wordSep) true).
Proof.
  intros HW. rewrite esc_is_flat_map.
  rewrite (nonempty_true _ (esc_nonempty _ HW)).
  set (e := flat_map esc_unit wordSep).
  assert (Hne : nonempty (str "(?:" ++ e ++ str ")") = true) by reflexivity.
  cbn [filter]. rewrite Hne.
  change (nonempty (str "(?:\s*/\s*)")) with true.
  change (nonempty (str "(?:\s{3,})")) with true. cbv iota.
  cbn [join]. change (str "(?:") with [40; 63; 58]. change (str ")") with [41].
  change (str "|") with [124]. rewrite <- !app_assoc. cbn [app].
  change (str "(?:\s*/\s*)" ++ 124 :: str "(?:\s{3,})")
    with (str "(?:\s*/\s*)|(?:\s{3,})").
  set (tail := str "(?:\s*/\s*)|(?:\s{3,})").
  unfold RegExp_new.
  pose proof (esc_length wordSep) as Hlen. fold e in Hlen.
  set (n := length (40 :: 63 :: 58 :: e ++ 41 :: 124 :: tail)).
  assert (Hn : exists k, (2 * n + 3 = S (S (S (S (40 + k)))) /\ length wordSep < 40 + k)%nat).
  { subst n. cbn [length]. rewrite length_app. cbn [length].
    exists (2 * length e + 13)%nat.
    assert (length tail = 22%nat) by reflexivity. lia. }
  destruct Hn as (k & -> & Hk).
  rewrite parse_disjunction_step, parse_alternative_group, parse_disjunction_step.
  subst e.
  rewrite (parse_alternative_literal wordSep (41 :: 124 :: tail) (S (40 + k)))
    by (trivial; lia).
  cbn [Z.eqb Pos.eqb].
  rewrite (parse_quantifier_absent _ (124 :: tail) eq_refl).
  rewrite parse_alternative_end by reflexivity.
  cbn [Z.eqb Pos.eqb].
  replace (S (S (S (40 + k)))) with (40 + (3 + k))%nat by lia.
  rewrite parse_fixed_alternatives. reflexivity.
Qed.

Lemma letterSplitter_parsed letterSep :
  letterSep <> [] ->
  RegExp_new (if nonempty (esc letterSep) then esc letterSep else str "\s+") true
  = Returns (mkRegExp (seq_literal letterSep Empty) true).
Proof.
  intros HL. rewrite esc_is_flat_map.
  rewrite (nonempty_true _ (esc_nonempty _ HL)).
  unfold RegExp_new.
  pose proof (esc_length letterSep) as Hlen.
  replace (2 * length (flat_map esc_unit letterSep) + 3)%nat
    with (S (2 * length (flat_map esc_unit letterSep) + 2)) by lia.
  rewrite parse_disjunction_step.
  set (fuel := (2 * length (flat_map esc_unit letterSep) + 2)%nat).
  assert (Hfuel : (length letterSep < fuel)%nat) by (subst fuel; lia).
  rewrite <- (app_nil_r (flat_map esc_unit letterSep)).
  rewrite (parse_alternative_literal letterSep [] fuel Hfuel eq_refl).
  reflexivity.
Qed.

(** *** Matching the splitters *)

Lemma flat_map_nil {A B} (f : A -> list B) l :
  (forall a, In a l -> f a = []) -> flat_map f l = [].
Proof.
  induction l as [|a l IH]; intros H; [reflexivity|].
  cbn [flat_map]. rewrite (H a (or_introl eq_refl)), IH; trivial.
  intros b Hb. apply H. now right.
Qed.

(** The matcher only ever consumes a prefix of its input. *)
Lemma repeat_matcher_suffix (m : jsstring -> list jsstring) :
  (forall x y, In y (m x) -> exists p, x = p ++ y) ->
  forall fuel lo hi x y,
    In y (repeat_matcher m fuel lo hi x) -> exists p, x = p ++ y.
Proof.
  intros Hm. induction fuel as [|f IH]; intros lo hi x y Hy; [contradiction|].
  cbn [repeat_matcher] in Hy.
  assert (Hagain :
            forall hi',
              In y (flat_map
                      (fun y0 =>
                         if Nat.eqb lo 0 && Nat.eqb (length y0) (length x) then []
                         else repeat_matcher m f (Nat.pred lo) hi' y0)
                      (m x)) ->
              exists p, x = p ++ y).
  { intros hi' H. apply in_flat_map in H as (z & Hz & Hin).
    destruct (Nat.eqb lo 0 && Nat.eqb (length z) (length x)); [contradiction|].
    apply Hm in Hz as [p1 ->]. apply IH in Hin as [p2 ->].
    exists (p1 ++ p2). now rewrite app_assoc. }
  assert (Hself : In y [x] -> exists p, x = p ++ y).
  { intros [<-|[]]. now exists []. }
  destruct hi as [[|h]|].
  - now apply Hself.
  - destruct (Nat.eqb lo 0); [apply in_app_or in Hy as [Hy|Hy]|]; eauto.
  - destruct (Nat.eqb lo 0); [apply in_app_or in Hy as [Hy|Hy]|]; eauto.
Qed.

Lemma matches_suffix r :
  forall x y, In y (matches r x) -> exists p, x = p ++ y.
Proof.
  induction r as [|c| |negated items|r1 IH1 r2 IH2|r1 IH1 r2 IH2|lo hi r IH|];
    intros x y Hy.
  - destruct Hy as [<-|[]]. now exists [].
  - destruct x as [|u x]; [contradiction|]. cbn [matches] in Hy.
    destruct (u =? c); [|contradiction]. destruct Hy as [<-|[]]. now exists [u].
  - destruct x as [|u x]; [contradiction|]. cbn [matches] in Hy.
    destruct (is_line_terminator u); [contradiction|]. destruct Hy as [<-|[]]. now exists [u].
  - destruct x as [|u x]; [contradiction|]. cbn [matches] in Hy.
    destruct (xorb negated (existsb (item_matches u) items)); [|contradiction].
    destruct Hy as [<-|[]]. now exists [u].
  - rewrite matches_seq in Hy. apply in_flat_map in Hy as (z & Hz & Hy).
    apply IH1 in Hz as [p1 ->]. apply IH2 in Hy as [p2 ->].
    exists (p1 ++ p2). now rewrite app_assoc.
  - rewrite matches_alt in Hy. apply in_app_or in Hy as [Hy|Hy]; eauto.
  - rewrite matches_repeat in Hy. now apply (repeat_matcher_suffix _ IH) in Hy.
  - destruct x; [|contradiction]. destruct Hy as [<-|[]]. now exists [].
Qed.

Lemma literal_alternative_fails sep x :
  strip_prefix sep x = None -> matches (Seq (seq_literal sep Empty) Empty) x = [].
Proof. intros H. rewrite matches_seq, matches_literal, H. reflexivity. Qed.

Lemma slash_alternative_fails x :
  forallb (fun u => negb (u =? 47)) x = true -> matches slash_pattern x = [].
Proof.
  intros Hx. unfold slash_pattern. rewrite matches_seq.
  apply flat_map_nil; intros z Hz. exfalso.
  rewrite matches_seq in Hz. apply in_flat_map in Hz as (y & Hy & Hz).
  apply matches_suffix in Hy as [p ->].
  rewrite forallb_app in Hx. apply andb_prop in Hx as [_ Hy].
  rewrite matches_seq in Hz. apply in_flat_map in Hz as (y' & Hy' & _).
  destruct y as [|u y]; [contradiction|].
  cbn [forallb] in Hy. apply andb_prop in Hy as [Hu _]. apply negb_true_iff in Hu.
  rewrite matches_char_cons, Hu in Hy'. contradiction.
Qed.

Lemma matches_space_cons u x :
  matches (Class false [Space]) (u :: x) = if is_space u then [x] else [].
Proof. cbn [matches xorb existsb item_matches]. now rewrite orb_false_r. Qed.

Lemma gap_alternative_fails x :
  starts_with_gap x = false -> matches gap_pattern x = [].
Proof.
  intros Hx. unfold gap_pattern. rewrite !matches_seq, matches_repeat.
  rewrite repeat_matcher_unbounded. cbn [Nat.eqb andb Nat.pred].
  destruct x as [|a x]; [reflexivity|]. rewrite matches_space_cons.
  destruct (is_space a) eqn:Ea; [|reflexivity]. cbn [flat_map].
  cbn [Nat.add length]. rewrite repeat_matcher_unbounded. cbn [Nat.eqb andb Nat.pred].
  destruct x as [|b x]; [reflexivity|]. rewrite matches_space_cons.
  destruct (is_space b) eqn:Eb; [|reflexivity]. cbn [flat_map].
  cbn [length]. rewrite repeat_matcher_unbounded. cbn [Nat.eqb andb Nat.pred].
  destruct x as [|c x]; [reflexivity|]. rewrite matches_space_cons.
  destruct (is_space c) eqn:Ec; [|reflexivity].
  cbn [starts_with_gap] in Hx. rewrite Ea, Eb, Ec in Hx. discriminate.
Qed.

Lemma word_pattern_fails wordSep x :
  strip_prefix wordSep x = None ->
  forallb (fun u => negb (u =? 47)) x = true ->
  starts_with_gap x = false ->
  match_here (word_pattern wordSep) x = None.
Proof.
  intros H1 H2 H3. unfold match_here, word_pattern.
  rewrite !matches_alt, (literal_alternative_fails _ _ H1),
    (slash_alternative_fails _ H2), (gap_alternative_fails _ H3).
  reflexivity.
Qed.

Lemma word_pattern_never_matches wordSep s :
  occurs wordSep s = false ->
  forallb (fun u => negb (u =? 47)) s = true ->
  has_gap s = false ->
  never_matches_inside (word_pattern wordSep) s = true.
Proof.
  induction s as [|u s IH]; intros H1 H2 H3; [reflexivity|].
  cbn [never_matches_inside]. cbn [occurs] in H1.
  destruct (strip_prefix wordSep (u :: s)) eqn:E1; [discriminate|].
  cbn [has_gap] in H3. apply orb_false_elim in H3 as [H3 H3'].
  rewrite (word_pattern_fails _ _ E1 H2 H3).
  cbn [forallb] in H2. apply andb_prop in H2 as [_ H2]. now apply IH.
Qed.

(** *** Splitting the letters *)

Lemma strip_prefix_app p x : strip_prefix p (p ++ x) = Some x.
Proof.
  induction p as [|c p IH]; [reflexivity|].
  cbn [app strip_prefix]. now rewrite Z.eqb_refl.
Qed.

Lemma match_here_literal sep x :
  match_here (seq_literal sep Empty) x = strip_prefix sep x.
Proof.
  unfold match_here. rewrite matches_literal.
  now destruct (strip_prefix sep x).
Qed.

Lemma strip_prefix_signal l0 sep u x :
  signal l0 = false -> signal u = true -> strip_prefix (l0 :: sep) (u :: x) = None.
Proof.
  intros Hl Hu. cbn [strip_prefix].
  destruct (u =? l0) eqn:E; [|reflexivity].
  apply Z.eqb_eq in E. subst. congruence.
Qed.

(** The code units of a Morse code are put on the current token. *)
Lemma split_from_signals l0 sep code : forall fuel token rest,
  signal l0 = false -> forallb signal code = true ->
  split_from (length code + fuel) (seq_literal (l0 :: sep) Empty) token (code ++ rest)
  = split_from fuel (seq_literal (l0 :: sep) Empty) (rev code ++ token) rest.
Proof.
  induction code as [|u code IH]; intros fuel token rest Hl Hc; [reflexivity|].
  cbn [forallb] in Hc. apply andb_prop in Hc as [Hu Hc].
  cbn [length Nat.add app split_from].
  rewrite match_here_literal, (strip_prefix_signal _ _ _ _ Hl Hu).
  rewrite IH by trivial. cbn [rev]. now rewrite <- app_assoc.
Qed.

Lemma split_from_codes l0 sep codes : forall fuel,
  signal l0 = false ->
  codes <> [] ->
  Forall (fun c => c <> [] /\ forallb signal c = true) codes ->
  (length (join (l0 :: sep) codes) < fuel)%nat ->
  split_from fuel (seq_literal (l0 :: sep) Empty) [] (join (l0 :: sep) codes) = codes.
Proof.
  induction codes as [|c codes IH]; intros fuel Hl Hne Hall Hfuel; [contradiction|].
  inversion Hall as [|? ? [Hc Hsig] Hrest]; subst.
  destruct codes as [|c2 codes].
  - cbn [join] in *. rewrite <- (app_nil_r c) at 1.
    replace fuel with (length c + (fuel - length c))%nat by lia.
    rewrite split_from_signals by trivial.
    destruct (fuel - length c)%nat eqn:E; [lia|].
    cbn [split_from]. now rewrite app_nil_r, rev_involutive.
  - change (join (l0 :: sep) (c :: c2 :: codes))
      with (c ++ (l0 :: sep) ++ join (l0 :: sep) (c2 :: codes)) in *.
    rewrite !length_app in Hfuel.
    replace fuel with (length c + (fuel - length c))%nat by lia.
    rewrite split_from_signals by trivial.
    destruct (fuel - length c)%nat as [|f] eqn:E; [lia|].
    rewrite app_nil_r.
    change ((l0 :: sep) ++ join (l0 :: sep) (c2 :: codes))
      with (l0 :: (sep ++ join (l0 :: sep) (c2 :: codes))) at 1.
    cbn [split_from]. rewrite match_here_literal.
    change (l0 :: sep ++ join (l0 :: sep) (c2 :: codes))
      with ((l0 :: sep) ++ join (l0 :: sep) (c2 :: codes)).
    rewrite strip_prefix_app.
    assert (Hrev : nonempty (rev c) = true).
    { destruct c as [|u c]; [contradiction|]. cbn [rev].
      destruct (rev c); reflexivity. }
    rewrite Hrev. cbn [negb andb]. rewrite rev_involutive. f_equal.
    apply IH; trivial; [discriminate|]. cbn [length] in *. lia.
Qed.

(** *** Properties of joined text *)

Lemma forallb_join (P : Z -> bool) sep parts :
  forallb P sep = true -> Forall (fun p => forallb P p = true) parts ->
  forallb P (join sep parts) = true.
Proof.
  intros Hs. induction parts as [|p [|q rest] IH]; intros H; trivial.
  - cbn [join]. now inversion H.
  - inversion H as [|? ? Hp Hrest]; subst.
    change (join sep (p :: q :: rest)) with (p ++ sep ++ join sep (q :: rest)).
    rewrite !forallb_app, Hp, Hs. now apply IH.
Qed.

Lemma signal_not_space u : signal u = true -> is_space u = false.
Proof. unfold signal, is_space. lia. Qed.

Lemma has_gap_after_signals code s :
  code <> [] -> forallb signal code = true ->
  has_gap (code ++ s) = has_gap s.
Proof.
  induction code as [|u code IH]; intros Hne Hc; [contradiction|].
  cbn [forallb] in Hc. apply andb_prop in Hc as [Hu Hc].
  pose proof (signal_not_space u Hu) as Hsp.
  cbn [app has_gap].
  replace (starts_with_gap (u :: code ++ s)) with false.
  2:{ cbn [starts_with_gap]. destruct (code ++ s) as [|b [|c r]]; trivial. now rewrite Hsp. }
  cbn [orb]. destruct code as [|v code]; [reflexivity|].
  apply IH; [discriminate|exact Hc].
Qed.

Lemma has_gap_before_signal sep u s :
  has_gap sep = false -> signal u = true -> has_gap (u :: s) = false ->
  has_gap (sep ++ u :: s) = false.
Proof.
  intros Hsep Hu Hs. pose proof (signal_not_space u Hu) as Hsp.
  induction sep as [|a sep IH]; [exact Hs|].
  cbn [has_gap] in Hsep. apply orb_false_elim in Hsep as [Hstart Hsep].
  cbn [app has_gap]. rewrite (IH Hsep), orb_false_r.
  destruct sep as [|b [|c sep]]; cbn [app starts_with_gap] in *.
  - destruct s; trivial. now rewrite Hsp, andb_false_r.
  - now rewrite Hsp, andb_false_r.
  - exact Hstart.
Qed.

Lemma join_codes_head sep c codes :
  c <> [] -> forallb signal c = true ->
  exists u s, join sep (c :: codes) = u :: s /\ signal u = true.
Proof.
  intros Hne Hc. destruct c as [|u c]; [contradiction|].
  cbn [forallb] in Hc. apply andb_prop in Hc as [Hu _].
  destruct codes; cbn [join app]; eauto.
Qed.

Lemma join_codes_no_gap sep codes :
  has_gap sep = false ->
  Forall (fun c => c <> [] /\ forallb signal c = true) codes ->
  has_gap (join sep codes) = false.
Proof.
  intros Hsep. induction codes as [|c [|c2 codes] IH]; intros Hall.
  - reflexivity.
  - inversion Hall as [|? ? [Hc Hsig] _]; subst. cbn [join].
    rewrite <- (app_nil_r c), has_gap_after_signals; trivial.
  - inversion Hall as [|? ? [Hc Hsig] Hrest]; subst.
    change (join sep (c :: c2 :: codes)) with (c ++ sep ++ join sep (c2 :: codes)).
    rewrite has_gap_after_signals by trivial.
    inversion Hrest as [|? ? [Hc2 Hsig2] _]; subst.
    destruct (join_codes_head sep c2 codes Hc2 Hsig2) as (u & s & E & Hu).
    rewrite E. apply has_gap_before_signal; trivial.
    rewrite <- E. now apply IH.
Qed.

Lemma join_codes_last sep codes :
  codes <> [] ->
  Forall (fun c => c <> [] /\ forallb signal c = true) codes ->
  exists v r, rev (join sep codes) = v :: r /\ signal v = true.
Proof.
  induction codes as [|c [|c2 codes] IH]; intros Hne Hall; [contradiction| |].
  - inversion Hall as [|? ? [Hc Hsig] _]; subst. cbn [join].
    destruct (rev c) as [|v r] eqn:E.
    + apply (f_equal (@rev Z)) in E. rewrite rev_involutive in E. contradiction.
    + exists v, r. split; trivial.
      assert (Hin : In v c) by (apply in_rev; rewrite E; now left).
      rewrite forallb_forall in Hsig. now apply Hsig.
  - inversion Hall as [|? ? _ Hrest]; subst.
    change (join sep (c :: c2 :: codes)) with (c ++ sep ++ join sep (c2 :: codes)).
    rewrite !rev_app_distr.
    destruct (IH ltac:(discriminate) Hrest) as (v & r & -> & Hv).
    cbn [app]. eauto.
Qed.

(** *** The Morse table *)

Lemma MORSE_entries_ok : forallb entry_ok MORSE = true.
Proof. vm_compute. reflexivity. Qed.

Lemma jsstring_eqb_eq a b : jsstring_eqb a b = true -> a = b.
Proof.
  revert b. induction a as [|x a IH]; intros [|y b] H; try discriminate; trivial.
  cbn [jsstring_eqb] in H. apply andb_prop in H as [Hxy Hab].
  apply Z.eqb_eq in Hxy. subst. f_equal. now apply IH.
Qed.

Lemma own_property_In o k v :
  own_property o k = Some v -> In (k, v) o.
Proof.
  induction o as [|[k' w] o IH]; intros H; [discriminate|].
  cbn [own_property] in H. destruct (jsstring_eqb k' k) eqn:E.
  - apply jsstring_eqb_eq in E. inversion H; subst. now left.
  - right. now apply IH.
Qed.

Lemma MORSE_key c v :
  own_property MORSE [c] = Some v ->
  plain c = true /\ c <> 32 /\ ascii_upper c = c
  /\ v <> [] /\ forallb signal v = true
  /\ get REVMORSE v = Some (VString [c]).
Proof.
  intros H. apply own_property_In in H.
  pose proof MORSE_entries_ok as Hall. rewrite forallb_forall in Hall.
  specialize (Hall _ H). unfold entry_ok in Hall. cbn [fst snd] in Hall.
  apply andb_prop in Hall as [Hall Hrev]. apply andb_prop in Hall as [Hall Hsig].
  apply andb_prop in Hall as [Hkey Hne]. apply andb_prop in Hkey as [Hkey Hup].
  apply andb_prop in Hkey as [Hplain Hsp].
  repeat split; trivial.
  - apply negb_true_iff in Hsp. now apply Z.eqb_neq.
  - now apply Z.eqb_eq.
  - destruct v; discriminate.
  - destruct (get REVMORSE v) as [[k|]|]; try discriminate.
    apply jsstring_eqb_eq in Hrev. now subst.
Qed.

Lemma encodable_key u :
  encodable u = true ->
  plain u = true /\ ascii_upper u <> 32
  /\ exists v, own_property MORSE [ascii_upper u] = Some v.
Proof.
  unfold encodable. destruct (own_property MORSE [ascii_upper u]) as [v|] eqn:E;
    [intros _|discriminate].
  destruct (MORSE_key _ _ E) as (Hp & Hs & _).
  repeat split; eauto.
  unfold ascii_upper, plain in *. destruct ((97 <=? u) && (u <=? 122)) eqn:El; lia.
Qed.

(** *** Encoding a single word *)



Section MorseRoundTrip.
Context {host : Host}.

Lemma encodable_plain t : forallb encodable t = true -> forallb plain t = true.
Proof.
  induction t as [|u t IH]; intros H; [reflexivity|].
  cbn [forallb] in *. apply andb_prop in H as [Hu Ht].
  destruct (encodable_key u Hu) as (Hp & _). now rewrite Hp, IH.
Qed.

Lemma encodable_upper_no_space t :
  forallb encodable t = true ->
  forallb (fun u => negb (u =? 32)) (map ascii_upper t) = true.
Proof.
  induction t as [|u t IH]; intros H; [reflexivity|].
  cbn [forallb map] in *. apply andb_prop in H as [Hu Ht].
  destruct (encodable_key u Hu) as (_ & Hs & _).
  rewrite IH by trivial. apply Z.eqb_neq in Hs. now rewrite Hs.
Qed.

Lemma codes_of_signals t :
  forallb encodable t = true ->
  Forall (fun c => c <> [] /\ forallb signal c = true) (codes_of t).
Proof.
  induction t as [|u t IH]; intros H; [constructor|].
  cbn [forallb] in H. apply andb_prop in H as [Hu Ht].
  destruct (encodable_key u Hu) as (_ & _ & v & Hv).
  destruct (MORSE_key _ _ Hv) as (_ & _ & _ & Hne & Hsig & _).
  unfold codes_of. cbn [map]. constructor; [|now apply IH].
  unfold morse_code. now rewrite Hv.
Qed.

Lemma word_codes t :
  forallb encodable t = true ->
  map to_text
    (filter (fun s => match s with VString [] => false | _ => true end)
       (map
          (fun ch =>
             let code := get MORSE ch in
             if falsy code then VString []
             else match code with Some c => c | None => VString [] end)
          (map (fun u => [u]) (map ascii_upper t))))
  = codes_of t.
Proof.
  induction t as [|u t IH]; intros H; [reflexivity|].
  cbn [forallb] in H. apply andb_prop in H as [Hu Ht].
  destruct (encodable_key u Hu) as (_ & _ & v & Hv).
  destruct (MORSE_key _ _ Hv) as (_ & _ & _ & Hne & _).
  unfold codes_of. cbn [map]. unfold get at 1 2. rewrite Hv.
  cbn [falsy]. rewrite (nonempty_true v Hne). cbn [negb filter].
  destruct v as [|v0 v]; [contradiction|]. cbn [map to_text].
  unfold morse_code at 1. rewrite Hv. f_equal. now apply IH.
Qed.



End MorseRoundTrip.

(** *** Normalisation leaves the encoded text alone *)

Lemma forallb_weaken {A} (P Q : A -> bool) l :
  (forall a, P a = true -> Q a = true) -> forallb P l = true -> forallb Q l = true.
Proof.
  intros HPQ. induction l as [|a l IH]; intros H; [reflexivity|].
  cbn [forallb] in *. apply andb_prop in H as [Ha Hl].
  now rewrite (HPQ a Ha), IH.
Qed.

Lemma zero_width_never_matches s :
  forallb (fun u => negb (normalized_away u)) s = true ->
  never_matches (pattern zero_width) s = true.
Proof.
  induction s as [|u s IH]; intros H; [reflexivity|].
  cbn [forallb] in H. apply andb_prop in H as [Hu Hs]. apply negb_true_iff in Hu.
  unfold normalized_away in Hu. cbn [existsb] in Hu.
  repeat (apply orb_false_elim in Hu as [? Hu]).
  cbn [never_matches]. unfold match_here, zero_width. cbn [pattern].
  rewrite !matches_alt, !matches_char_cons.
  repeat match goal with E : (u =? _) = false |- _ => rewrite E; clear E end.
  cbn [app hd_error]. now apply IH.
Qed.

Lemma normalizePunctuation_id s :
  forallb (fun u => negb (normalized_away u)) s = true ->
  (forall u s', s = u :: s' -> is_space u = false) ->
  (forall u s', rev s = u :: s' -> is_space u = false) ->
  normalizePunctuation s = s.
Proof.
  intros Hs Hfirst Hlast. unfold normalizePunctuation.
  rewrite (replace_never_matches dash_like).
  2:{ apply class_never_matches. revert Hs. apply forallb_weaken.
      intros u Hu. unfold normalized_away, class_has in *.
      cbn [existsb item_matches xorb] in *. lia. }
  rewrite (replace_never_matches dot_like).
  2:{ apply class_never_matches. revert Hs. apply forallb_weaken.
      intros u Hu. unfold normalized_away, class_has in *.
      cbn [existsb item_matches xorb] in *. lia. }
  rewrite (replace_never_matches zero_width) by now apply zero_width_never_matches.
  now apply trim_id.
Qed.

Lemma occurs_empty s : occurs [] s = true.
Proof. destruct s; reflexivity. Qed.

Lemma signal_untouched u :
  signal u = true -> negb (normalized_away u) = true /\ negb (u =? 47) = true.
Proof. unfold signal, normalized_away. cbn [existsb]. lia. Qed.

Lemma separator_safe_untouched u :
  separator_safe u = true ->
  negb (normalized_away u) = true /\ negb (u =? 47) = true /\ signal u = false.
Proof.
  unfold separator_safe, signal. intros H. apply negb_true_iff in H.
  repeat (apply orb_false_elim in H as [H ?]).
  repeat split; try (apply negb_true_iff; assumption). now rewrite H, H2.
Qed.

Lemma Forall_codes_weaken (P : Z -> bool) codes :
  (forall u, signal u = true -> P u = true) ->
  Forall (fun c => c <> [] /\ forallb signal c = true) codes ->
  Forall (fun c => forallb P c = true) codes.
Proof.
  intros HP H. induction H as [|c codes [_ Hc] _ IH]; constructor; trivial.
  revert Hc. now apply forallb_weaken.
Qed.




(** ** Which translators always return *)

Lemma try_catch_returns {A} (body : completion A) (fallback : A) :
  body <> OutsideModel -> exists r, try_catch body fallback = Returns r.
Proof. destruct body; intros H; cbn [try_catch]; [eauto | eauto | contradiction]. Qed.

Lemma read_escapes_shorter n : forall s bs rest,
  read_escapes n s = Some (bs, rest) -> (length rest <= length s)%nat.
Proof.
  induction n as [|n IH]; intros s bs rest H; cbn [read_escapes] in H.
  - inversion H; subst. lia.
  - destruct s as [|p [|h1 [|h2 s]]]; try discriminate.
    destruct (p =? 37); [|discriminate].
    destruct (hex_octet h1 h2); [|discriminate].
    destruct (read_escapes n s) as [[bs' rest']|] eqn:E; [|discriminate].
    inversion H; subst. apply IH in E. cbn [length]. lia.
Qed.

Lemma decode_from_modelled fuel : forall s,
  (length s < fuel)%nat -> decode_from fuel s <> OutsideModel.
Proof.
  induction fuel as [|f IH]; intros s Hlen; [lia|].
  assert (Hbind : forall s' (k : jsstring -> jsstring),
             (length s' < f)%nat ->
             bind (decode_from f s') (fun r => Returns (k r)) <> OutsideModel).
  { intros s' k Hs'. specialize (IH s' Hs').
    destruct (decode_from f s'); [discriminate|discriminate|contradiction]. }
  destruct s as [|c rest]; [discriminate|]. cbn [length] in Hlen.
  cbn [decode_from]. destruct (c =? 37).
  - destruct rest as [|h1 [|h2 rest2]]; try discriminate.
    destruct (hex_octet h1 h2) as [b|]; [|discriminate].
    destruct (leading_ones b) as [|[|n]]; try discriminate.
    + apply Hbind. cbn [length] in Hlen. lia.
    + destruct (Nat.ltb 4 (S (S n))); [discriminate|].
      destruct (read_escapes (S n) rest2) as [[bs rest3]|] eqn:E; [|discriminate].
      destruct (utf8_code_point (b :: bs)); [|discriminate].
      apply Hbind. apply read_escapes_shorter in E. cbn [length] in Hlen. lia.
  - apply Hbind. lia.
Qed.

Lemma chars_elements s : Forall (fun c => exists cp, codePointAt0 c = Some cp) (chars s).
Proof.
  induction s as [|u rest Hsingle IH|u v rest Hu Hv IH] using chars_ind.
  - constructor.
  - rewrite (chars_single _ _ Hsingle). constructor; [now exists u | exact IH].
  - rewrite (chars_pair _ _ _ Hu Hv). constructor; [|exact IH].
    cbn [codePointAt0]. rewrite Hu, Hv. cbn [andb]. eauto.
Qed.

Lemma map_completion_returns {A B} (f : A -> completion B) l :
  Forall (fun a => exists b, f a = Returns b) l ->
  exists bs, map_completion f l = Returns bs.
Proof.
  induction 1 as [|a l [b Hb] _ [bs IH]]; [now exists []|].
  cbn [map_completion]. rewrite Hb. cbn [bind]. rewrite IH. cbn [bind]. eauto.
Qed.

Lemma map_completion_modelled {A B} (f : A -> completion B) l :
  Forall (fun a => f a <> OutsideModel) l -> map_completion f l <> OutsideModel.
Proof.
  induction 1 as [|a l Ha _ IH]; [discriminate|].
  cbn [map_completion]. destruct (f a); [|discriminate|contradiction].
  cbn [bind]. destruct (map_completion f l); [discriminate|discriminate|contradiction].
Qed.

Lemma fixed_splitter_parsed :
  RegExp_new (str "(?:\s*/\s*)|(?:\s{3,})") true
  = Returns (mkRegExp (Alt slash_pattern gap_pattern) true).
Proof. vm_compute. reflexivity. Qed.

Lemma space_splitter_parsed :
  RegExp_new (str "\s+") true
  = Returns (mkRegExp (Seq (Repeat 1 None (Class false [Space])) Empty) true).
Proof. vm_compute. reflexivity. Qed.

(** Both patterns of [fromMorse] are always accepted: the separators are
    escaped before they are made part of a pattern. *)
Lemma fromMorse_patterns_accepted letterSep wordSep :
  exists words letters,
    RegExp_new
      (join (str "|")
         (filter nonempty
            [ (if nonempty (if nonempty wordSep then esc wordSep else [])
               then str "(?:" ++ (if nonempty wordSep then esc wordSep else []) ++ str ")"
               else (if nonempty wordSep then esc wordSep else []));
              str "(?:\s*/\s*)";
              str "(?:\s{3,})" ]))
      true
    = Returns words
    /\ RegExp_new
         (if nonempty (if nonempty letterSep then esc letterSep else [])
          then (if nonempty letterSep then esc letterSep else [])
          else str "\s+")
         true
       = Returns letters.
Proof.
  assert (Hw : exists words,
             RegExp_new
               (join (str "|")
                  (filter nonempty
                     [ (if nonempty (if nonempty wordSep then esc wordSep else [])
                        then str "(?:" ++ (if nonempty wordSep then esc wordSep else [])
                                       ++ str ")"
                        else (if nonempty wordSep then esc wordSep else []));
                       str "(?:\s*/\s*)";
                       str "(?:\s{3,})" ]))
               true
             = Returns words).
  { destruct wordSep as [|w ws].
    - cbn [nonempty filter]. eexists. apply fixed_splitter_parsed.
    - cbn [nonempty]. eexists. apply wordSplitter_parsed. discriminate. }
  assert (Hl : exists letters,
             RegExp_new
               (if nonempty (if nonempty letterSep then esc letterSep else [])
                then (if nonempty letterSep then esc letterSep else [])
                else str "\s+")
               true
             = Returns letters).
  { destruct letterSep as [|l ls].
    - cbn [nonempty]. eexists. apply space_splitter_parsed.
    - cbn [nonempty]. eexists. apply letterSplitter_parsed. discriminate. }
  destruct Hw as [words Hw]. destruct Hl as [letters Hl]. eauto.
Qed.

(** Every decoder returns a string on every input, and so does
    [textToBase64]. *)
Lemma translators_that_always_return :
  forall host : Host,
    (forall code letterSep wordSep strict,
        exists r, @fromMorse host code letterSep wordSep strict = Returns r)
    /\ (forall binary, exists r, binaryToText binary = Returns r)
    /\ (forall hex, exists r, hexToText hex = Returns r)
    /\ (forall b64, exists r, base64ToText b64 = Returns r)
    /\ (forall s, exists r, urlDecode s = Returns r)
    /\ (forall text, exists r, textToBase64 text = Returns r).
Proof.
  intros host. repeat split.
  - intros code letterSep wordSep strict. unfold fromMorse.
    destruct (fromMorse_patterns_accepted letterSep wordSep) as (words & letters & Hw & Hl).
    rewrite Hw. cbn [bind]. rewrite Hl. cbn [bind]. eauto.
  - intros binary. unfold binaryToText.
    destruct (negb (nonempty _)); [eauto|].
    apply try_catch_returns.
    match goal with |- bind ?m _ <> _ => assert (Hm : m <> OutsideModel) end.
    { apply map_completion_modelled. apply Forall_forall. intros b _.
      unfold fromCodePoint. destruct (parseInt b 2) as [cp|]; [|discriminate].
      destruct ((0 <=? cp) && (cp <=? 1114111)); discriminate. }
    destruct (map_completion _ _); [discriminate|discriminate|contradiction].
  - intros hex. unfold hexToText.
    destruct (negb _); cbn [try_catch]; eauto.
  - intros b64. unfold base64ToText. apply try_catch_returns.
    unfold atob.
    destruct (Nat.eqb (Nat.modulo (length _) 4) 1); [cbn [bind]; discriminate|].
    destruct (all_some _); [|cbn [bind]; discriminate].
    cbn [bind]. apply decode_from_modelled. lia.
  - intros s. unfold urlDecode. apply try_catch_returns.
    apply decode_from_modelled. lia.
  - intros text. unfold textToBase64. apply try_catch_returns.
    unfold encodeURIComponent.
    match goal with |- bind (bind ?m _) _ <> _ => assert (Hm : m <> OutsideModel) end.
    { apply map_completion_modelled.
      eapply Forall_impl; [|apply chars_elements].
      intros c [cp ->]. destruct (is_surrogate cp); [discriminate|].
      destruct (uri_unescaped cp); discriminate. }
    destruct (map_completion _ _); [|discriminate|contradiction].
    cbn [bind]. unfold btoa. destruct (forallb _ _); discriminate.
Qed.

(** A group size above the length of the longest string makes
    [textToBinary] throw: the word of the first character cannot be
    padded. *)
Lemma textToBinary_long_group {host : Host} :
  textToBinary (str "A") (Some (max_string_length + 1)) (str " ") false
  = Throws RangeError.
Proof.
  pose proof max_string_length_bounds as Hmax.
  unfold textToBinary. change (chars (str "A")) with [[65]].
  cbn [map_completion codePointAt0].
  change (number_toString 2 65) with (str "1000001").
  assert ((0 <? max_string_length + 1) = true) as -> by lia.
  unfold padStart_limited.
  change (Z.of_nat (length (str "1000001"))) with 7.
  change (nonempty (str "0")) with true.
  assert (Hceil : ceil_to_multiple 7 (max_string_length + 1) = max_string_length + 1).
  { unfold ceil_to_multiple.
    replace ((7 + (max_string_length + 1) - 1) / (max_string_length + 1)) with 1; [lia|].
    apply Z.div_unique with (r := 6); lia. }
  rewrite Hceil, Z.min_l by lia.
  assert ((7 <? max_string_length + 1) = true) as -> by lia.
  assert ((max_string_length <? max_string_length + 1) = true) as -> by lia.
  reflexivity.
Qed.

(** C3, as the code has it: every decoder returns a string on every
    input, and so does [textToBase64] ([toMorse] has nothing that can
    throw); but three encoders throw: [textToBinary] a RangeError when the
    group size is above the length of the longest string of the engine,
    [textToHex] a SyntaxError when its delimiter is not a valid pattern
    (an opening parenthesis, or the empty delimiter), and [urlEncode] a
    URIError on an unpaired surrogate. *)
Theorem transducers_return_except_three_encoders :
  forall host : Host,
    ((forall code letterSep wordSep strict,
         exists r, @fromMorse host code letterSep wordSep strict = Returns r)
     /\ (forall binary, exists r, binaryToText binary = Returns r)
     /\ (forall hex, exists r, hexToText hex = Returns r)
     /\ (forall b64, exists r, base64ToText b64 = Returns r)
     /\ (forall s, exists r, urlDecode s = Returns r)
     /\ (forall text, exists r, textToBase64 text = Returns r))
    /\ @textToBinary host (str "A") (Some (max_string_length + 1)) (str " ") false
       = Throws RangeError
    /\ @textToHex host (str "A") (str "(") true (Some 1) = Throws SyntaxError
    /\ @textToHex host (str "A") [] true (Some 1) = Throws SyntaxError
    /\ urlEncode [0xD800] = Throws URIError.
Proof.
  intros host. split; [apply translators_that_always_return|].
  split; [apply textToBinary_long_group|].
  destruct encoders_can_throw as [Hhex Hurl].
  destruct (Hhex host) as [Hparen Hempty]. auto.
Qed.

(** ** Round trips *)

(** *** Well-formed text *)

Lemma well_formed_ind (P : jsstring -> Prop) :
  P [] ->
  (forall u rest,
      code_unit u = true -> is_surrogate u = false ->
      well_formed rest = true -> P rest -> P (u :: rest)) ->
  (forall u v rest,
      is_lead u = true -> is_trail v = true ->
      well_formed rest = true -> P rest -> P (u :: v :: rest)) ->
  forall t, well_formed t = true -> P t.
Proof.
  intros Hnil Hone Hpair t.
  assert (H : forall n t, (length t <= n)%nat -> well_formed t = true -> P t).
  { induction n as [|n IH]; intros [|u rest] Hlen Hwf; simpl in Hlen; try assumption; try lia.
    cbn [well_formed] in Hwf. destruct (is_lead u) eqn:El.
    - destruct rest as [|v rest']; [discriminate|].
      apply andb_prop in Hwf as [Hv Hwf].
      apply Hpair; trivial. apply IH; trivial. simpl in Hlen. lia.
    - apply andb_prop in Hwf as [Hu Hwf]. apply andb_prop in Hu as [Hu Ht].
      apply negb_true_iff in Ht.
      apply Hone; trivial.
      + unfold is_surrogate, is_lead, is_trail in *. lia.
      + apply IH; trivial. lia. }
  intros Hwf. apply (H (length t)); trivial.
Qed.

Lemma chars_not_lead u rest : is_lead u = false -> chars (u :: rest) = [u] :: chars rest.
Proof. intros H. apply chars_single. intros v rest' _. now rewrite H. Qed.

Lemma not_surrogate_not_lead u : is_surrogate u = false -> is_lead u = false.
Proof. unfold is_surrogate, is_lead. lia. Qed.

Lemma pair_code_point_range u v :
  is_lead u = true -> is_trail v = true ->
  0x10000 <= pair_code_point u v <= 0x10FFFF.
Proof. unfold is_lead, is_trail, pair_code_point. lia. Qed.

Lemma utf16_of_pair u v :
  is_lead u = true -> is_trail v = true ->
  utf16_of_code_point (pair_code_point u v) = [u; v].
Proof.
  intros Hu Hv. pose proof (pair_code_point_range u v Hu Hv) as Hr.
  unfold utf16_of_code_point.
  assert ((pair_code_point u v <? 65536) = false) as -> by lia.
  unfold is_lead, is_trail, pair_code_point in *.
  f_equal; [|f_equal]; Z.to_euclidean_division_equations; lia.
Qed.

Lemma code_points_cons u rest :
  is_surrogate u = false -> code_points (u :: rest) = u :: code_points rest.
Proof.
  intros H. unfold code_points.
  now rewrite (chars_not_lead u rest (not_surrogate_not_lead u H)).
Qed.

Lemma code_points_pair u v rest :
  is_lead u = true -> is_trail v = true ->
  code_points (u :: v :: rest) = pair_code_point u v :: code_points rest.
Proof.
  intros Hu Hv. unfold code_points. rewrite (chars_pair _ _ _ Hu Hv).
  cbn [map]. unfold cp_of at 1. cbn [codePointAt0]. now rewrite Hu, Hv.
Qed.

Lemma code_points_scalar t :
  well_formed t = true -> forallb scalar_value (code_points t) = true.
Proof.
  revert t. apply well_formed_ind;
    [|intros u rest Hu Hs Hwf IH|intros u v rest Hu Hv Hwf IH].
  - reflexivity.
  - rewrite (code_points_cons _ _ Hs). cbn [forallb]. rewrite IH, andb_true_r.
    unfold scalar_value, code_unit in *. rewrite Hs. lia.
  - rewrite (code_points_pair _ _ _ Hu Hv). cbn [forallb]. rewrite IH, andb_true_r.
    pose proof (pair_code_point_range u v Hu Hv).
    unfold scalar_value, is_surrogate. lia.
Qed.

Lemma utf16_of_code_points t :
  well_formed t = true -> flat_map utf16_of_code_point (code_points t) = t.
Proof.
  revert t. apply well_formed_ind;
    [|intros u rest Hu Hs Hwf IH|intros u v rest Hu Hv Hwf IH].
  - reflexivity.
  - rewrite (code_points_cons _ _ Hs). cbn [flat_map]. rewrite IH.
    unfold utf16_of_code_point, code_unit in *.
    assert ((u <? 65536) = true) as -> by lia. reflexivity.
  - rewrite (code_points_pair _ _ _ Hu Hv). cbn [flat_map].
    now rewrite IH, (utf16_of_pair u v Hu Hv).
Qed.

Lemma chars_code_points {A} (f : Z -> list A) (g : jsstring -> list A) t :
  (forall c cp, codePointAt0 c = Some cp -> g c = f cp) ->
  flat_map g (chars t) = flat_map f (code_points t).
Proof.
  intros Hg. unfold code_points.
  pose proof (chars_elements t) as Hall.
  induction Hall as [|c l [cp Hcp] _ IH]; [reflexivity|].
  cbn [flat_map map]. unfold cp_of at 1. rewrite Hcp. now rewrite (Hg c cp Hcp), IH.
Qed.

Lemma TextEncoder_encode_code_points t :
  well_formed t = true ->
  TextEncoder_encode t = flat_map utf8_bytes (code_points t).
Proof.
  intros Hwf. unfold TextEncoder_encode.
  rewrite (chars_code_points
             (fun cp => utf8_bytes (if is_surrogate cp then 65533 else cp))
             _ t).
  - pose proof (code_points_scalar t Hwf) as Hs.
    induction (code_points t) as [|cp cps IH]; [reflexivity|].
    cbn [forallb] in Hs. apply andb_prop in Hs as [Hcp Hs].
    cbn [flat_map]. rewrite IH by trivial.
    unfold scalar_value in Hcp. apply andb_prop in Hcp as [_ Hcp].
    apply negb_true_iff in Hcp. now rewrite Hcp.
  - intros c cp Hcp. now rewrite Hcp.
Qed.

(** *** UTF-8: decoding what was encoded *)

Lemma lor_low k a x :
  0 <= k -> 0 <= x < 2 ^ k -> Z.lor (a * 2 ^ k) x = a * 2 ^ k + x.
Proof.
  intros Hk Hx.
  rewrite <- (Zbitwise.Z.add_lor_land (a * 2 ^ k) x).
  assert (Hland : Z.land (a * 2 ^ k) x = 0).
  { replace x with (Z.land (Z.ones k) x)
      by (rewrite Z.land_comm, Z.land_ones by lia; apply Z.mod_small; lia).
    rewrite Z.land_assoc, Z.land_ones by lia.
    now rewrite Z.mod_mul, Z.land_0_l by lia. }
  rewrite Hland. lia.
Qed.

Lemma land_low base k x :
  0 <= k -> base mod 2 ^ k = 0 -> 0 <= x < 2 ^ k ->
  Z.land (base + x) (Z.ones k) = x.
Proof.
  intros Hk Hbase Hx. rewrite Z.land_ones by lia.
  rewrite <- Z.add_mod_idemp_l, Hbase, Z.add_0_l by lia. now apply Z.mod_small.
Qed.

(** The bytes of a code point, in arithmetic. *)
Lemma utf8_bytes_arith cp :
  0 <= cp <= 0x10FFFF ->
  utf8_bytes cp =
  if cp <? 0x80 then [cp]
  else if cp <? 0x800 then [0xC0 + cp / 64; 0x80 + cp mod 64]
  else if cp <? 0x10000 then
    [0xE0 + cp / 4096; 0x80 + (cp / 64) mod 64; 0x80 + cp mod 64]
  else
    [0xF0 + cp / 262144; 0x80 + (cp / 4096) mod 64; 0x80 + (cp / 64) mod 64;
     0x80 + cp mod 64].
Proof.
  intros Hcp. unfold utf8_bytes.
  change 0x3F with (Z.ones 6).
  rewrite !Z.land_ones, !Z.shiftr_div_pow2 by lia.
  change (2 ^ 6) with 64. change (2 ^ 12) with 4096. change (2 ^ 18) with 262144.
  assert (H64 : forall x, Z.lor 0x80 (x mod 64) = 0x80 + x mod 64).
  { intros x. pose proof (Z.mod_pos_bound x 64).
    apply (lor_low 6 2 (x mod 64)); lia. }
  rewrite !H64.
  destruct (cp <? 0x80) eqn:E1; [reflexivity|].
  destruct (cp <? 0x800) eqn:E2.
  { f_equal. apply (lor_low 5 6 (cp / 64)); [lia|].
    change (2 ^ 5) with 32. Z.to_euclidean_division_equations. lia. }
  destruct (cp <? 0x10000) eqn:E3.
  { f_equal. apply (lor_low 4 14 (cp / 4096)); [lia|].
    change (2 ^ 4) with 16. Z.to_euclidean_division_equations. lia. }
  f_equal. apply (lor_low 3 30 (cp / 262144)); [lia|].
  change (2 ^ 3) with 8. Z.to_euclidean_division_equations. lia.
Qed.

(** A continuation byte inside its boundaries adds six bits. *)
Lemma continuation_step st x :
  bytes_needed st <> 0 -> 0 <= x < 64 ->
  lower_boundary st <= 0x80 + x <= upper_boundary st ->
  utf8_handler st (0x80 + x) =
  if bytes_seen st + 1 =? bytes_needed st
  then (utf8_initial, [code_point st * 64 + x])
  else (mkUtf8 (code_point st * 64 + x) (bytes_seen st + 1) (bytes_needed st) 0x80 0xBF, []).
Proof.
  intros Hn Hx Hb. unfold utf8_handler.
  assert ((bytes_needed st =? 0) = false) as -> by lia.
  assert (negb ((lower_boundary st <=? 0x80 + x) && (0x80 + x <=? upper_boundary st)) = false)
    as -> by lia.
  change 0x3F with (Z.ones 6).
  rewrite (land_low 0x80 6 x) by (trivial; lia).
  rewrite Z.shiftl_mul_pow2 by lia.
  rewrite (lor_low 6 (code_point st) x) by lia.
  reflexivity.
Qed.

Lemma lead_two a :
  2 <= a < 32 -> utf8_handler utf8_initial (0xC0 + a) = (mkUtf8 a 0 1 0x80 0xBF, []).
Proof.
  intros Ha. unfold utf8_handler, utf8_lead. cbn [bytes_needed utf8_initial Z.eqb].
  assert ((0 <=? 0xC0 + a) && (0xC0 + a <=? 0x7F) = false) as -> by lia.
  assert ((0xC2 <=? 0xC0 + a) && (0xC0 + a <=? 0xDF) = true) as -> by lia.
  change 0x1F with (Z.ones 5).
  now rewrite (land_low 0xC0 5 a) by (trivial; lia).
Qed.

Lemma lead_three a :
  0 <= a < 16 ->
  utf8_handler utf8_initial (0xE0 + a) =
  (mkUtf8 a 0 2 (if a =? 0 then 0xA0 else 0x80) (if a =? 13 then 0x9F else 0xBF), []).
Proof.
  intros Ha. unfold utf8_handler, utf8_lead. cbn [bytes_needed utf8_initial Z.eqb].
  assert ((0 <=? 0xE0 + a) && (0xE0 + a <=? 0x7F) = false) as -> by lia.
  assert ((0xC2 <=? 0xE0 + a) && (0xE0 + a <=? 0xDF) = false) as -> by lia.
  assert ((0xE0 <=? 0xE0 + a) && (0xE0 + a <=? 0xEF) = true) as -> by lia.
  change 0xF with (Z.ones 4).
  rewrite (land_low 0xE0 4 a) by (trivial; lia).
  assert ((0xE0 + a =? 0xE0) = (a =? 0)) as -> by lia.
  assert ((0xE0 + a =? 0xED) = (a =? 13)) as -> by lia.
  reflexivity.
Qed.

Lemma lead_four a :
  0 <= a < 5 ->
  utf8_handler utf8_initial (0xF0 + a) =
  (mkUtf8 a 0 3 (if a =? 0 then 0x90 else 0x80) (if a =? 4 then 0x8F else 0xBF), []).
Proof.
  intros Ha. unfold utf8_handler, utf8_lead. cbn [bytes_needed utf8_initial Z.eqb].
  assert ((0 <=? 0xF0 + a) && (0xF0 + a <=? 0x7F) = false) as -> by lia.
  assert ((0xC2 <=? 0xF0 + a) && (0xF0 + a <=? 0xDF) = false) as -> by lia.
  assert ((0xE0 <=? 0xF0 + a) && (0xF0 + a <=? 0xEF) = false) as -> by lia.
  assert ((0xF0 <=? 0xF0 + a) && (0xF0 + a <=? 0xF4) = true) as -> by lia.
  change 0x7 with (Z.ones 3).
  rewrite (land_low 0xF0 3 a) by (trivial; lia).
  assert ((0xF0 + a =? 0xF0) = (a =? 0)) as -> by lia.
  assert ((0xF0 + a =? 0xF4) = (a =? 4)) as -> by lia.
  reflexivity.
Qed.

Lemma continuation_more st x :
  bytes_needed st <> 0 -> 0 <= x < 64 ->
  lower_boundary st <= 0x80 + x <= upper_boundary st ->
  bytes_seen st + 1 <> bytes_needed st ->
  utf8_handler st (0x80 + x) =
  (mkUtf8 (code_point st * 64 + x) (bytes_seen st + 1) (bytes_needed st) 0x80 0xBF, []).
Proof.
  intros Hn Hx Hb Hs. rewrite continuation_step by trivial.
  now assert ((bytes_seen st + 1 =? bytes_needed st) = false) as -> by lia.
Qed.

Lemma continuation_last st x :
  bytes_needed st <> 0 -> 0 <= x < 64 ->
  lower_boundary st <= 0x80 + x <= upper_boundary st ->
  bytes_seen st + 1 = bytes_needed st ->
  utf8_handler st (0x80 + x) = (utf8_initial, [code_point st * 64 + x]).
Proof.
  intros Hn Hx Hb Hs. rewrite continuation_step by trivial.
  now assert ((bytes_seen st + 1 =? bytes_needed st) = true) as -> by lia.
Qed.

Lemma utf8_decode_from_cons st b rest :
  utf8_decode_from st (b :: rest) =
  snd (utf8_handler st b) ++ utf8_decode_from (fst (utf8_handler st b)) rest.
Proof. cbn [utf8_decode_from]. now destruct (utf8_handler st b). Qed.

Lemma utf8_decode_encoded cp rest :
  scalar_value cp = true ->
  utf8_decode_from utf8_initial (utf8_bytes cp ++ rest)
  = cp :: utf8_decode_from utf8_initial rest.
Proof.
  intros Hs. unfold scalar_value, is_surrogate in Hs.
  rewrite utf8_bytes_arith by lia.
  destruct (cp <? 0x80) eqn:E1; [|destruct (cp <? 0x800) eqn:E2;
                                  [|destruct (cp <? 0x10000) eqn:E3]].
  - cbn [app]. rewrite utf8_decode_from_cons.
    unfold utf8_handler, utf8_lead. cbn [bytes_needed utf8_initial Z.eqb].
    assert ((0 <=? cp) && (cp <=? 0x7F) = true) as -> by lia. reflexivity.
  - cbn [app]. rewrite utf8_decode_from_cons, lead_two by utf8_side.
    cbn [fst snd app].
    rewrite utf8_decode_from_cons, continuation_last by utf8_side.
    cbn [code_point fst snd app]. f_equal. utf8_side.
  - cbn [app]. rewrite utf8_decode_from_cons, lead_three by utf8_side.
    cbn [fst snd app].
    rewrite utf8_decode_from_cons, continuation_more by utf8_side.
    cbn [code_point bytes_seen bytes_needed fst snd app].
    rewrite utf8_decode_from_cons, continuation_last by utf8_side.
    cbn [code_point fst snd app]. f_equal. utf8_side.
  - cbn [app]. rewrite utf8_decode_from_cons, lead_four by utf8_side.
    cbn [fst snd app].
    rewrite utf8_decode_from_cons, continuation_more by utf8_side.
    cbn [code_point bytes_seen bytes_needed fst snd app].
    rewrite utf8_decode_from_cons, continuation_more by utf8_side.
    cbn [code_point bytes_seen bytes_needed fst snd app].
    rewrite utf8_decode_from_cons, continuation_last by utf8_side.
    cbn [code_point fst snd app]. f_equal. utf8_side.
Qed.

Lemma utf8_decode_code_points cps :
  forallb scalar_value cps = true ->
  utf8_decode_from utf8_initial (flat_map utf8_bytes cps) = cps.
Proof.
  induction cps as [|cp cps IH]; intros H; [reflexivity|].
  cbn [forallb] in H. apply andb_prop in H as [Hcp Hcps].
  cbn [flat_map]. now rewrite (utf8_decode_encoded cp _ Hcp), IH.
Qed.

(** *** Bounded checks *)

Lemma forallb_below n (P : Z -> bool) :
  forallb P (map Z.of_nat (seq 0 n)) = true ->
  forall z, 0 <= z < Z.of_nat n -> P z = true.
Proof.
  intros H z Hz. rewrite forallb_forall in H. apply H.
  apply in_map_iff. exists (Z.to_nat z). split; [lia|].
  apply in_seq. lia.
Qed.

Lemma hex_pairs_ok upper b : is_byte b = true -> hex_pair_ok upper b = true.
Proof.
  intros Hb. unfold is_byte in Hb.
  apply (forallb_below 256 (hex_pair_ok upper)); [|lia].
  destruct upper; vm_compute; reflexivity.
Qed.

Lemma hex_pair_is_text {host : Host} upper b : hex_pair upper b = hex_pair_text upper b.
Proof.
  unfold hex_pair, hex_pair_text. destruct upper; trivial.
  apply toUpperCase_plain, padStart_zero_plain, number_toString_16_plain.
Qed.

(** *** The trailing-delimiter pattern for the default delimiter *)

Lemma repeat_matcher_consumes (P : Z -> bool) (m : jsstring -> list jsstring) :
  (forall x y, In y (m x) -> exists p, x = p ++ y /\ forallb P p = true) ->
  forall fuel lo hi x y,
    In y (repeat_matcher m fuel lo hi x) ->
    exists p, x = p ++ y /\ forallb P p = true.
Proof.
  intros Hm. induction fuel as [|f IH]; intros lo hi x y Hy; [contradiction|].
  cbn [repeat_matcher] in Hy.
  assert (Hagain :
            forall hi',
              In y (flat_map
                      (fun y0 =>
                         if Nat.eqb lo 0 && Nat.eqb (length y0) (length x) then []
                         else repeat_matcher m f (Nat.pred lo) hi' y0)
                      (m x)) ->
              exists p, x = p ++ y /\ forallb P p = true).
  { intros hi' H. apply in_flat_map in H as (z & Hz & Hin).
    destruct (Nat.eqb lo 0 && Nat.eqb (length z) (length x)); [contradiction|].
    apply Hm in Hz as (p1 & -> & Hp1). apply IH in Hin as (p2 & -> & Hp2).
    exists (p1 ++ p2). split; [now rewrite app_assoc|].
    now rewrite forallb_app, Hp1, Hp2. }
  assert (Hself : In y [x] -> exists p, x = p ++ y /\ forallb P p = true).
  { intros [<-|[]]. now exists []. }
  destruct hi as [[|h]|].
  - now apply Hself.
  - destruct (Nat.eqb lo 0); [apply in_app_or in Hy as [Hy|Hy]|]; eauto.
  - destruct (Nat.eqb lo 0); [apply in_app_or in Hy as [Hy|Hy]|]; eauto.
Qed.

Lemma char_consumes c x y :
  In y (matches (Char c) x) -> exists p, x = p ++ y /\ forallb (Z.eqb c) p = true.
Proof.
  destruct x as [|u x]; [contradiction|]. rewrite matches_char_cons.
  destruct (u =? c) eqn:E; [|contradiction]. intros [<-|[]].
  exists [u]. split; trivial. cbn [forallb]. apply Z.eqb_eq in E. subst.
  now rewrite Z.eqb_refl.
Qed.

Lemma ends_in_space_all p :
  p <> [] -> forallb (Z.eqb 32) p = true -> ends_in_space p = true.
Proof.
  induction p as [|u [|v p] IH]; intros Hne Hp; [contradiction| |].
  - cbn [forallb] in Hp. cbn [ends_in_space]. lia.
  - cbn [forallb] in Hp. apply andb_prop in Hp as [_ Hp].
    change (ends_in_space (u :: v :: p)) with (ends_in_space (v :: p)).
    apply IH; [discriminate|exact Hp].
Qed.

Lemma ends_in_space_tail u s : ends_in_space (u :: s) = false -> ends_in_space s = false.
Proof. destruct s as [|v s]; [reflexivity|]. now cbn [ends_in_space]. Qed.

Lemma trailing_spaces_never_match s :
  ends_in_space s = false ->
  never_matches (Seq (Repeat 1 None (Char 32)) (Seq InputEnd Empty)) s = true.
Proof.
  induction s as [|u s IH]; intros H.
  - reflexivity.
  - cbn [never_matches].
    assert (Hhere : match_here (Seq (Repeat 1 None (Char 32)) (Seq InputEnd Empty)) (u :: s)
                    = None).
    { unfold match_here. rewrite matches_seq, flat_map_nil; trivial.
      intros y Hy. rewrite matches_repeat in Hy.
      apply (repeat_matcher_consumes (Z.eqb 32) _ (char_consumes 32)) in Hy
        as (p & Hp & Hall).
      destruct y as [|v y]; [|reflexivity].
      rewrite app_nil_r in Hp. subst p.
      rewrite (ends_in_space_all (u :: s)) in H; [discriminate|discriminate|exact Hall]. }
    rewrite Hhere. apply IH. now apply ends_in_space_tail in H.
Qed.

(** *** Deleting a class of characters *)

Lemma replace_all_from_delete negated items fuel done s :
  (length s < fuel)%nat ->
  replace_all_from fuel (Class negated items) [] done s
  = filter (fun u => negb (class_has negated items u)) s.
Proof.
  revert done s. induction fuel as [|f IH]; intros done s Hlen; [lia|].
  destruct (class_split negated items s) as [Hnone | (pre & u & post & -> & Hpre & Hu)].
  - cbn [replace_all_from].
    rewrite (exec_never_matches _ _ _ (class_never_matches _ _ _ Hnone)).
    symmetry. now apply forallb_filter_id.
  - cbn [replace_all_from]. rewrite (exec_class_found _ _ _ _ _ _ Hpre Hu).
    rewrite length_tail_neq. cbn [get_substitution rev app].
    rewrite filter_app, (forallb_filter_id _ _ Hpre). cbn [filter]. rewrite Hu.
    cbn [negb]. rewrite app_nil_r.
    rewrite IH by (rewrite length_app in Hlen; cbn [length] in Hlen; lia).
    reflexivity.
Qed.

Lemma not_hex_class u :
  negb (class_has true [Range 48 57; Range 97 102; Range 65 70] u) = is_hex_digit u.
Proof.
  unfold class_has, is_hex_digit. cbn [existsb item_matches].
  destruct ((48 <=? u) && (u <=? 57)), ((97 <=? u) && (u <=? 102)),
    ((65 <=? u) && (u <=? 70)); reflexivity.
Qed.

(** *** Text to hexadecimal and back *)

Lemma hex_pair_text_digits upper b :
  is_byte b = true ->
  digit_pair (hex_pair_text upper b)
  /\ hex_pairs (hex_pair_text upper b) = [b].
Proof.
  intros Hb. pose proof (hex_pairs_ok upper b Hb) as H. unfold hex_pair_ok in H.
  destruct (hex_pair_text upper b) as [|d1 [|d2 [|d3 p]]]; try discriminate.
  apply andb_prop in H as [H H3]. apply andb_prop in H as [H1 H2].
  split; [exists d1, d2; auto|].
  cbn [hex_pairs]. apply Z.eqb_eq in H3. now rewrite H3.
Qed.

Lemma hex_digit_not_space d : is_hex_digit d = true -> (d =? 32) = false.
Proof. unfold is_hex_digit. lia. Qed.

Lemma ends_in_space_app x y : y <> [] -> ends_in_space (x ++ y) = ends_in_space y.
Proof.
  intros Hy. induction x as [|u x IH]; [reflexivity|].
  cbn [app]. destruct (x ++ y) as [|v r] eqn:E.
  - apply app_eq_nil in E as [_ E]. contradiction.
  - change (ends_in_space (u :: v :: r)) with (ends_in_space (v :: r)). exact IH.
Qed.

Lemma join_pairs_no_trailing_space parts :
  Forall digit_pair parts -> ends_in_space (join (str " ") parts) = false.
Proof.
  induction parts as [|p [|q rest] IH]; intros H; [reflexivity| |].
  - inversion H as [|? ? (d1 & d2 & -> & _ & H2) _]; subst.
    cbn [join ends_in_space]. now apply hex_digit_not_space.
  - inversion H as [|? ? _ Hrest]; subst.
    change (join (str " ") (p :: q :: rest))
      with (p ++ str " " ++ join (str " ") (q :: rest)).
    rewrite ends_in_space_app by discriminate.
    inversion Hrest as [|? ? (d1 & d2 & -> & _) _]; subst.
    rewrite ends_in_space_app; [now apply IH|].
    destruct rest; discriminate.
Qed.

Lemma filter_join_pairs parts :
  Forall digit_pair parts ->
  filter is_hex_digit (join (str " ") parts) = concat parts.
Proof.
  induction parts as [|p [|q rest] IH]; intros H; [reflexivity| |].
  - inversion H as [|? ? (d1 & d2 & -> & H1 & H2) _]; subst.
    cbn [join filter concat app]. now rewrite H1, H2.
  - inversion H as [|? ? (d1 & d2 & -> & H1 & H2) Hrest]; subst.
    change (join (str " ") ([d1; d2] :: q :: rest))
      with (d1 :: d2 :: 32 :: join (str " ") (q :: rest)).
    cbn [filter]. rewrite H1, H2. cbn [is_hex_digit]. 
    change (is_hex_digit 32) with false. cbv iota.
    rewrite (IH Hrest). reflexivity.
Qed.

Lemma concat_pairs_even parts :
  Forall digit_pair parts ->
  Z.rem (Z.of_nat (length (concat parts))) 2 = 0.
Proof.
  induction 1 as [|p parts (d1 & d2 & -> & _) _ IH]; [reflexivity|].
  cbn [concat app length]. rewrite !Nat2Z.inj_succ.
  Z.to_euclidean_division_equations. lia.
Qed.

Lemma hex_pairs_concat upper bytes :
  forallb is_byte bytes = true ->
  hex_pairs (concat (map (hex_pair_text upper) bytes)) = bytes.
Proof.
  induction bytes as [|b bytes IH]; intros H; [reflexivity|].
  cbn [forallb] in H. apply andb_prop in H as [Hb Hbytes].
  destruct (hex_pair_text_digits upper b Hb) as [(d1 & d2 & E & _) Hp].
  cbn [map concat]. rewrite E in *. cbn [app hex_pairs] in *.
  inversion Hp as [Hb']. rewrite Hb'. f_equal. now apply IH.
Qed.

Lemma map_hex_pair_digits upper bytes :
  forallb is_byte bytes = true ->
  Forall digit_pair (map (hex_pair_text upper) bytes).
Proof.
  induction bytes as [|b bytes IH]; intros H; [constructor|].
  cbn [forallb] in H. apply andb_prop in H as [Hb Hbytes].
  cbn [map]. constructor; [apply (hex_pair_text_digits upper b Hb)|now apply IH].
Qed.

Section HexRoundTrip.
Context {host : Host}.

Lemma hex_parts_single delimiter upper i bytes :
  hex_parts delimiter upper (Some 1) i bytes = map (hex_pair_text upper) bytes.
Proof.
  revert i. induction bytes as [|b bytes IH]; intros i; [reflexivity|].
  cbn [hex_parts map]. fold (hex_pair upper b). rewrite hex_pair_is_text.
  cbn [Z.ltb Z.compare Pos.compare Pos.compare_cont andb app]. now rewrite IH.
Qed.

(** With the default delimiter and one byte per group the bytes are
    printed as pairs separated by single spaces. *)
Lemma textToHex_default text upper :
  forallb is_byte (TextEncoder_encode text) = true ->
  textToHex text (str " ") upper (Some 1)
  = Returns (join (str " ") (map (hex_pair_text upper) (TextEncoder_encode text))).
Proof.
  intros Hb. unfold textToHex.
  change (RegExp_new (str " " ++ str "+$") false)
    with (Returns (mkRegExp (Seq (Repeat 1 None (Char 32)) (Seq InputEnd Empty)) false)).
  cbn [bind]. f_equal. rewrite hex_parts_single.
  apply replace_never_matches. cbn [pattern].
  apply trailing_spaces_never_match, join_pairs_no_trailing_space.
  now apply map_hex_pair_digits.
Qed.

End HexRoundTrip.

(** Reading the printed bytes gives the text the decoder makes of them. *)
Lemma hexToText_printed upper bytes :
  forallb is_byte bytes = true ->
  hexToText (join (str " ") (map (hex_pair_text upper) bytes))
  = Returns (TextDecoder_decode bytes).
Proof.
  intros Hb. unfold hexToText.
  pose proof (map_hex_pair_digits upper bytes Hb) as Hparts.
  assert (Hclean : replace not_hex [] (join (str " ") (map (hex_pair_text upper) bytes))
                   = concat (map (hex_pair_text upper) bytes)).
  { unfold replace, not_hex. cbn [global pattern]. unfold replace_all.
    rewrite replace_all_from_delete by lia.
    rewrite <- (filter_join_pairs _ Hparts).
    apply filter_ext. intros u. apply not_hex_class. }
  rewrite Hclean, (concat_pairs_even _ Hparts). cbn [Z.eqb negb].
  now rewrite hex_pairs_concat.
Qed.

Lemma utf8_bytes_are_bytes cp :
  scalar_value cp = true -> forallb is_byte (utf8_bytes cp) = true.
Proof.
  intros Hs. unfold scalar_value, is_surrogate in Hs.
  rewrite utf8_bytes_arith by lia. unfold is_byte.
  destruct (cp <? 0x80) eqn:E1; [|destruct (cp <? 0x800) eqn:E2;
                                  [|destruct (cp <? 0x10000) eqn:E3]];
    cbn [forallb]; Z.to_euclidean_division_equations; lia.
Qed.

Lemma encoded_bytes t :
  well_formed t = true -> forallb is_byte (TextEncoder_encode t) = true.
Proof.
  intros Hwf. rewrite (TextEncoder_encode_code_points t Hwf).
  pose proof (code_points_scalar t Hwf) as Hs.
  induction (code_points t) as [|cp cps IH]; [reflexivity|].
  cbn [forallb] in Hs. apply andb_prop in Hs as [Hcp Hs].
  cbn [flat_map]. now rewrite forallb_app, (utf8_bytes_are_bytes cp Hcp), IH.
Qed.

Lemma code_points_head t :
  well_formed t = true ->
  match code_points t with
  | cp :: _ => cp =? 0xFEFF
  | [] => false
  end = starts_with_feff t.
Proof.
  revert t. apply well_formed_ind;
    [reflexivity|intros u rest Hu Hs Hwf _|intros u v rest Hu Hv Hwf _].
  - now rewrite (code_points_cons _ _ Hs).
  - rewrite (code_points_pair _ _ _ Hu Hv).
    pose proof (pair_code_point_range u v Hu Hv).
    cbn [starts_with_feff]. unfold is_lead in Hu. lia.
Qed.

(** The decoder gives the text back, without its first character when
    that is U+FEFF. *)
Lemma TextDecoder_of_encoded t :
  well_formed t = true ->
  TextDecoder_decode (TextEncoder_encode t)
  = if starts_with_feff t then tl t else t.
Proof.
  intros Hwf. unfold TextDecoder_decode.
  rewrite (TextEncoder_encode_code_points t Hwf).
  rewrite (utf8_decode_code_points _ (code_points_scalar t Hwf)).
  rewrite <- (code_points_head t Hwf).
  pose proof (utf16_of_code_points t Hwf) as Ht.
  destruct (code_points t) as [|cp cps]; [now rewrite <- Ht|].
  destruct (cp =? 0xFEFF) eqn:E; [|exact Ht].
  apply Z.eqb_eq in E. subst cp. rewrite <- Ht. reflexivity.
Qed.

(** On well-formed text, with the default options, [hexToText] after
    [textToHex] returns the text, except that a U+FEFF at its very start
    is lost. *)
Lemma hex_round_trip :
  forall (host : Host) (t : jsstring) (upper : bool),
    well_formed t = true ->
    bind (@textToHex host t (str " ") upper (Some 1)) hexToText
    = Returns (if starts_with_feff t then tl t else t).
Proof.
  intros host t upper Hwf.
  rewrite (textToHex_default t upper (encoded_bytes t Hwf)). cbn [bind].
  rewrite (hexToText_printed upper _ (encoded_bytes t Hwf)).
  now rewrite (TextDecoder_of_encoded t Hwf).
Qed.

(** *** Percent-encoding and back *)

Lemma percent_bytes_ok b : is_byte b = true -> percent_byte_ok b = true.
Proof.
  intros Hb. unfold is_byte in Hb.
  apply (forallb_below 256 percent_byte_ok); [|lia].
  vm_compute. reflexivity.
Qed.

Lemma hex_octet_percent b :
  is_byte b = true ->
  hex_octet (upper_hex_digit (b / 16)) (upper_hex_digit (b mod 16)) = Some b.
Proof.
  intros Hb. pose proof (percent_bytes_ok b Hb) as H. unfold percent_byte_ok in H.
  destruct (hex_octet _ _) as [v|]; [|discriminate].
  apply andb_prop in H as [H _]. apply Z.eqb_eq in H. now subst.
Qed.

Lemma percent_digit_not_u b :
  is_byte b = true -> (upper_hex_digit (b / 16) =? 117) = false.
Proof.
  intros Hb. pose proof (percent_bytes_ok b Hb) as H. unfold percent_byte_ok in H.
  destruct (hex_octet _ _) as [v|]; [|discriminate].
  apply andb_prop in H as [_ H]. now apply negb_true_iff in H.
Qed.

Lemma read_escapes_percent bs rest :
  forallb is_byte bs = true ->
  read_escapes (length bs) (flat_map percent_byte bs ++ rest) = Some (bs, rest).
Proof.
  induction bs as [|b bs IH]; intros H; [reflexivity|].
  cbn [forallb] in H. apply andb_prop in H as [Hb Hbs].
  cbn [length flat_map percent_byte app read_escapes Z.eqb Pos.eqb].
  now rewrite (hex_octet_percent b Hb), (IH Hbs).
Qed.

Lemma uri_unescaped_ascii : keeps_ascii uri_unescaped.
Proof.
  intros b. unfold uri_unescaped, is_alnum. cbn [existsb]. lia.
Qed.

Lemma escape_unescaped_ascii : keeps_ascii escape_unescaped.
Proof.
  intros b. unfold escape_unescaped, is_alnum. cbn [existsb]. lia.
Qed.

Lemma percent_text_app keep x y :
  percent_text keep (x ++ y) = percent_text keep x ++ percent_text keep y.
Proof. apply flat_map_app. Qed.

Lemma percent_text_high keep bs :
  keeps_ascii keep ->
  forallb (fun b => 128 <=? b) bs = true ->
  percent_text keep bs = flat_map percent_byte bs.
Proof.
  intros Hk. induction bs as [|b bs IH]; intros H; [reflexivity|].
  cbn [forallb] in H. apply andb_prop in H as [Hb Hbs].
  unfold percent_text in *. cbn [flat_map]. rewrite (IH Hbs).
  destruct (keep b) eqn:E; [|reflexivity].
  apply Hk in E. lia.
Qed.

(** A code point below U+0080 is its own byte. *)
Lemma utf8_single cp : 0 <= cp < 128 -> utf8_bytes cp = [cp].
Proof.
  intros H. rewrite utf8_bytes_arith by lia.
  now assert ((cp <? 128) = true) as -> by lia.
Qed.

(** The bytes of a scalar value from U+0080 on: the first announces the
    length, and the strict reading of the sequence gives the value. *)
Lemma utf8_multibyte cp :
  scalar_value cp = true -> 128 <= cp ->
  exists b0 b1 more,
    utf8_bytes cp = b0 :: b1 :: more
    /\ leading_ones b0 = S (S (length more))
    /\ (length more <= 2)%nat
    /\ utf8_code_point (b0 :: b1 :: more) = Some cp
    /\ forallb (fun b => 128 <=? b) (b0 :: b1 :: more) = true.
Proof.
  intros Hs Hhigh. unfold scalar_value, is_surrogate in Hs.
  rewrite utf8_bytes_arith by lia.
  assert ((cp <? 0x80) = false) as -> by lia.
  destruct (cp <? 0x800) eqn:E2; [|destruct (cp <? 0x10000) eqn:E3];
    do 3 eexists; (split; [reflexivity|]).
  - repeat split.
    + unfold leading_ones.
      repeat match goal with
             | |- context [if ?c then _ else _] =>
                 first [ assert (c = true) as ->
                           by (Z.to_euclidean_division_equations; lia)
                       | assert (c = false) as ->
                           by (Z.to_euclidean_division_equations; lia) ]
             end.
      reflexivity.
    + cbn [length]. lia.
    + unfold utf8_code_point, is_continuation.
      match goal with
      | |- (if ?c then _ else _) = _ =>
          assert (c = true) as -> by (Z.to_euclidean_division_equations; lia)
      end.
      f_equal. Z.to_euclidean_division_equations; lia.
    + cbn [forallb]. Z.to_euclidean_division_equations; lia.
  - repeat split.
    + unfold leading_ones.
      repeat match goal with
             | |- context [if ?c then _ else _] =>
                 first [ assert (c = true) as ->
                           by (Z.to_euclidean_division_equations; lia)
                       | assert (c = false) as ->
                           by (Z.to_euclidean_division_equations; lia) ]
             end.
      reflexivity.
    + cbn [length]. lia.
    + unfold utf8_code_point, is_continuation.
      match goal with
      | |- (if ?c then _ else _) = _ =>
          assert (c = true) as ->
            by (destruct (224 + cp / 4096 =? 224) eqn:Ea;
                destruct (224 + cp / 4096 =? 237) eqn:Eb;
                Z.to_euclidean_division_equations; lia)
      end.
      f_equal. Z.to_euclidean_division_equations; lia.
    + cbn [forallb]. Z.to_euclidean_division_equations; lia.
  - repeat split.
    + unfold leading_ones.
      repeat match goal with
             | |- context [if ?c then _ else _] =>
                 first [ assert (c = true) as ->
                           by (Z.to_euclidean_division_equations; lia)
                       | assert (c = false) as ->
                           by (Z.to_euclidean_division_equations; lia) ]
             end.
      reflexivity.
    + cbn [length]. lia.
    + unfold utf8_code_point, is_continuation.
      match goal with
      | |- (if ?c then _ else _) = _ =>
          assert (c = true) as ->
            by (destruct (240 + cp / 262144 =? 240) eqn:Ea;
                destruct (240 + cp / 262144 =? 244) eqn:Eb;
                Z.to_euclidean_division_equations; lia)
      end.
      f_equal. Z.to_euclidean_division_equations; lia.
    + cbn [forallb]. Z.to_euclidean_division_equations; lia.
Qed.

Lemma decode_from_kept fuel c rest :
  c <> 37 ->
  decode_from (S fuel) (c :: rest)
  = bind (decode_from fuel rest) (fun r => Returns (c :: r)).
Proof.
  intros Hc. cbn [decode_from].
  now assert ((c =? 37) = false) as -> by lia.
Qed.

Lemma decode_from_escape fuel h1 h2 rest :
  decode_from (S fuel) (37 :: h1 :: h2 :: rest)
  = match hex_octet h1 h2 with
    | None => Throws URIError
    | Some b =>
        match leading_ones b with
        | O => bind (decode_from fuel rest) (fun r => Returns (b :: r))
        | S O => Throws URIError
        | S n' =>
            if Nat.ltb 4 (S n') then Throws URIError
            else
              match read_escapes n' rest with
              | None => Throws URIError
              | Some (bs, rest3) =>
                  match utf8_code_point (b :: bs) with
                  | None => Throws URIError
                  | Some v =>
                      bind (decode_from fuel rest3)
                        (fun r => Returns (utf16_of_code_point v ++ r))
                  end
              end
        end
    end.
Proof. reflexivity. Qed.

(** Decoding the percent-encoded UTF-8 bytes of scalar values gives their
    UTF-16 text, whichever ASCII characters were left unencoded. *)
Lemma decode_percent_text keep cps :
  keeps_ascii keep ->
  forallb scalar_value cps = true ->
  forall fuel,
    (length (percent_text keep (flat_map utf8_bytes cps)) < fuel)%nat ->
    decode_from fuel (percent_text keep (flat_map utf8_bytes cps))
    = Returns (flat_map utf16_of_code_point cps).
Proof.
  intros Hk. induction cps as [|cp cps IH]; intros Hs fuel Hfuel.
  { destruct fuel; [cbn in Hfuel; lia|reflexivity]. }
  cbn [forallb] in Hs. apply andb_prop in Hs as [Hcp Hs].
  specialize (IH Hs).
  cbn [flat_map] in *. rewrite percent_text_app in *.
  rewrite length_app in Hfuel.
  destruct fuel as [|fuel]; [lia|].
  set (rest := percent_text keep (flat_map utf8_bytes cps)) in *.
  destruct (Z.ltb_spec cp 128) as [Hlow|Hhigh].
  - assert (Hrange : 0 <= cp < 128)
      by (unfold scalar_value in Hcp; lia).
    rewrite (utf8_single cp Hrange) in *.
    assert (Hunit : utf16_of_code_point cp = [cp]).
    { unfold utf16_of_code_point. now assert ((cp <? 65536) = true) as -> by lia. }
    rewrite Hunit.
    unfold percent_text at 1 in Hfuel. unfold percent_text at 1.
    cbn [flat_map app] in *. rewrite app_nil_r in *.
    destruct (keep cp) eqn:E.
    + apply Hk in E. cbn [length app] in *.
      rewrite decode_from_kept by lia.
      rewrite IH by lia. reflexivity.
    + unfold percent_byte in *. cbn [length app] in *.
      rewrite decode_from_escape.
      assert (Hb : is_byte cp = true) by (unfold is_byte; lia).
      rewrite (hex_octet_percent cp Hb).
      unfold leading_ones. assert ((cp <? 128) = true) as -> by lia.
      rewrite IH by lia. reflexivity.
  - destruct (utf8_multibyte cp Hcp Hhigh)
      as (b0 & b1 & more & Hbytes & Hones & Hlen & Hvalue & Hall).
    pose proof (utf8_bytes_are_bytes cp Hcp) as Hbs.
    rewrite Hbytes in *.
    rewrite (percent_text_high keep _ Hk Hall) in *.
    cbn [forallb] in Hbs. apply andb_prop in Hbs as [Hb0 Hbs].
    cbn [flat_map] in *. unfold percent_byte at 1 in Hfuel.
    unfold percent_byte at 1. cbn [app length] in *.
    rewrite decode_from_escape.
    rewrite (hex_octet_percent b0 Hb0), Hones.
    assert (Nat.ltb 4 (S (S (length more))) = false) as ->
      by (apply Nat.ltb_ge; lia).
    change (percent_byte b1 ++ flat_map percent_byte more)
      with (flat_map percent_byte (b1 :: more)).
    replace (S (length more)) with (length (b1 :: more)) by reflexivity.
    rewrite (read_escapes_percent (b1 :: more) rest Hbs), Hvalue.
    rewrite IH by lia. reflexivity.
Qed.

Lemma encodeURIComponent_percent_text t :
  well_formed t = true ->
  encodeURIComponent t = Returns (percent_text uri_unescaped (TextEncoder_encode t)).
Proof.
  intros Hwf. rewrite (TextEncoder_encode_code_points t Hwf).
  unfold encodeURIComponent.
  pose proof (code_points_scalar t Hwf) as Hs. unfold code_points in *.
  pose proof (chars_elements t) as Hall.
  induction Hall as [|c l [cp Hcp] _ IH]; [reflexivity|].
  cbn [map forallb] in Hs. unfold cp_of at 1 in Hs. rewrite Hcp in Hs.
  apply andb_prop in Hs as [Hsc Hs]. specialize (IH Hs).
  cbn [map_completion]. rewrite Hcp.
  assert (Hsur : is_surrogate cp = false).
  { unfold scalar_value in Hsc. apply andb_prop in Hsc as [_ Hsc].
    now apply negb_true_iff in Hsc. }
  rewrite Hsur.
  destruct (map_completion _ l) as [parts| |] eqn:E; try discriminate.
  cbn [bind] in IH. inversion IH as [IH'].
  cbn [map flat_map]. unfold cp_of at 1. rewrite Hcp.
  rewrite percent_text_app, <- IH'.
  destruct (uri_unescaped cp) eqn:Eu; cbn [bind concat]; do 2 f_equal.
  - destruct (uri_unescaped_ascii cp Eu) as [Hr _].
    rewrite (utf8_single cp Hr). unfold percent_text. cbn [flat_map].
    now rewrite Eu.
  - destruct (Z.ltb_spec cp 128) as [Hlow|Hhigh].
    + assert (Hr : 0 <= cp < 128) by (unfold scalar_value in Hsc; lia).
      rewrite (utf8_single cp Hr). unfold percent_text. cbn [flat_map].
      now rewrite Eu.
    + destruct (utf8_multibyte cp Hsc Hhigh) as (b0 & b1 & more & Hb & _ & _ & _ & Hhi).
      rewrite Hb in *. symmetry.
      apply (percent_text_high _ _ uri_unescaped_ascii Hhi).
Qed.

(** On well-formed text, [urlDecode] after [urlEncode] returns the text. *)
Lemma url_round_trip :
  forall t : jsstring,
    well_formed t = true ->
    bind (urlEncode t) urlDecode = Returns t.
Proof.
  intros t Hwf. unfold urlEncode, urlDecode.
  rewrite (encodeURIComponent_percent_text t Hwf). cbn [bind].
  rewrite (TextEncoder_encode_code_points t Hwf).
  unfold decodeURIComponent.
  rewrite (decode_percent_text _ _ uri_unescaped_ascii (code_points_scalar t Hwf))
    by lia.
  cbn [try_catch]. now rewrite (utf16_of_code_points t Hwf).
Qed.

(** *** Base64 and back *)

Lemma triples_ind {A} (P : list A -> Prop) :
  P [] -> (forall a, P [a]) -> (forall a b, P [a; b]) ->
  (forall a b c rest, P rest -> P (a :: b :: c :: rest)) ->
  forall l, P l.
Proof.
  intros H0 H1 H2 H3 l.
  enough (H : P l /\ (forall a, P (a :: l)) /\ (forall a b, P (a :: b :: l)))
    by apply H.
  induction l as [|x l (IH0 & IH1 & IH2)]; [auto|].
  repeat split; auto.
Qed.

Lemma base64_encode_parts bytes :
  base64_encode bytes = map base64_char (sextets bytes) ++ padding bytes.
Proof.
  induction bytes as [|a|a b|a b c rest IH] using triples_ind; try reflexivity.
  cbn [base64_encode sextets padding map app]. now rewrite IH.
Qed.

Lemma sextets_ok v : is_sextet v = true -> sextet_ok v = true.
Proof.
  intros Hv. unfold is_sextet in Hv.
  apply (forallb_below 64 sextet_ok); [|lia].
  vm_compute. reflexivity.
Qed.

Lemma shiftr_byte a k : 0 <= k -> Z.shiftr a k = a / 2 ^ k.
Proof. intros Hk. now rewrite Z.shiftr_div_pow2. Qed.

Lemma low_bits_shifted a n k :
  0 <= n -> 0 <= k -> Z.shiftl (Z.land a (Z.ones n)) k = (a mod 2 ^ n) * 2 ^ k.
Proof. intros Hn Hk. now rewrite Z.land_ones, Z.shiftl_mul_pow2. Qed.

Lemma sextet_pair a n k b :
  0 <= n -> 0 <= k -> 0 <= b < 2 ^ k ->
  Z.lor (Z.shiftl (Z.land a (Z.ones n)) k) b = (a mod 2 ^ n) * 2 ^ k + b.
Proof.
  intros Hn Hk Hb. rewrite low_bits_shifted by lia. now apply lor_low.
Qed.

(** The 6-bit values of three bytes, in arithmetic. *)
Lemma sextets_arith a b c :
  is_byte a = true -> is_byte b = true -> is_byte c = true ->
  Z.shiftr a 2 = a / 4
  /\ Z.lor (Z.shiftl (Z.land a 3) 4) (Z.shiftr b 4) = (a mod 4) * 16 + b / 16
  /\ Z.lor (Z.shiftl (Z.land b 15) 2) (Z.shiftr c 6) = (b mod 16) * 4 + c / 64
  /\ Z.land c 63 = c mod 64
  /\ Z.shiftl (Z.land a 3) 4 = (a mod 4) * 16
  /\ Z.shiftl (Z.land b 15) 2 = (b mod 16) * 4.
Proof.
  unfold is_byte. intros Ha Hb Hc.
  change 3 with (Z.ones 2). change 15 with (Z.ones 4). change 63 with (Z.ones 6).
  rewrite !shiftr_byte by lia.
  rewrite (sextet_pair a 2 4) by (change (2 ^ 4) with 16;
                                  Z.to_euclidean_division_equations; lia).
  rewrite (sextet_pair b 4 2) by (change (2 ^ 2) with 4; change (2 ^ 6) with 64;
                                  Z.to_euclidean_division_equations; lia).
  rewrite !low_bits_shifted, Z.land_ones by lia.
  change (2 ^ 2) with 4. change (2 ^ 4) with 16. change (2 ^ 6) with 64.
  repeat split.
Qed.

(** The bytes of four 6-bit values, in arithmetic. *)
Lemma bytes_arith p q r s :
  is_sextet p = true -> is_sextet q = true -> is_sextet r = true ->
  is_sextet s = true ->
  Z.lor (Z.shiftl p 2) (Z.shiftr q 4) = p * 4 + q / 16
  /\ Z.lor (Z.shiftl (Z.land q 15) 4) (Z.shiftr r 2) = (q mod 16) * 16 + r / 4
  /\ Z.lor (Z.shiftl (Z.land r 3) 6) s = (r mod 4) * 64 + s.
Proof.
  unfold is_sextet. intros Hp Hq Hr Hs.
  change 3 with (Z.ones 2). change 15 with (Z.ones 4).
  rewrite !shiftr_byte by lia.
  rewrite (sextet_pair q 4 4) by (change (2 ^ 4) with 16; change (2 ^ 2) with 4;
                                  Z.to_euclidean_division_equations; lia).
  rewrite (sextet_pair r 2 6) by (change (2 ^ 6) with 64; lia).
  rewrite Z.shiftl_mul_pow2 by lia.
  rewrite (lor_low 2 p) by (change (2 ^ 2) with 4; change (2 ^ 4) with 16;
                            Z.to_euclidean_division_equations; lia).
  change (2 ^ 2) with 4. change (2 ^ 4) with 16. change (2 ^ 6) with 64.
  repeat split.
Qed.

Lemma sextets_in_range bytes :
  forallb is_byte bytes = true -> forallb is_sextet (sextets bytes) = true.
Proof.
  induction bytes as [|a|a b|a b c rest IH] using triples_ind;
    cbn [forallb sextets]; rewrite ?andb_true_r; intros H.
  - reflexivity.
  - destruct (sextets_arith a a a H H H) as (-> & _ & _ & _ & -> & _).
    unfold is_byte, is_sextet in *. Z.to_euclidean_division_equations; lia.
  - apply andb_prop in H as [Ha Hb].
    destruct (sextets_arith a b b Ha Hb Hb) as (-> & -> & _ & _ & _ & ->).
    unfold is_byte, is_sextet in *. Z.to_euclidean_division_equations; lia.
  - apply andb_prop in H as [Ha H]. apply andb_prop in H as [Hb H].
    apply andb_prop in H as [Hc H]. rewrite (IH H), andb_true_r.
    destruct (sextets_arith a b c Ha Hb Hc) as (-> & -> & -> & -> & _ & _).
    unfold is_byte, is_sextet in *. Z.to_euclidean_division_equations; lia.
Qed.

Lemma base64_bytes_sextets bytes :
  forallb is_byte bytes = true -> base64_bytes (sextets bytes) = bytes.
Proof.
  induction bytes as [|a|a b|a b c rest IH] using triples_ind;
    cbn [forallb]; rewrite ?andb_true_r; intros H.
  - reflexivity.
  - pose proof (sextets_in_range [a]) as Hr. cbn [forallb sextets] in Hr.
    rewrite H in Hr. specialize (Hr eq_refl).
    apply andb_prop in Hr as [Hp Hr]. apply andb_prop in Hr as [Hq _].
    cbn [sextets base64_bytes].
    destruct (bytes_arith _ _ _ _ Hp Hq Hq Hq) as (-> & _ & _).
    destruct (sextets_arith a a a H H H) as (-> & _ & _ & _ & -> & _).
    f_equal. unfold is_byte in H. Z.to_euclidean_division_equations; lia.
  - apply andb_prop in H as [Ha Hb].
    pose proof (sextets_in_range [a; b]) as Hr. cbn [forallb sextets] in Hr.
    rewrite Ha, Hb in Hr. specialize (Hr eq_refl).
    apply andb_prop in Hr as [Hp Hr]. apply andb_prop in Hr as [Hq Hr].
    apply andb_prop in Hr as [Hr _].
    cbn [sextets base64_bytes].
    destruct (bytes_arith _ _ _ _ Hp Hq Hr Hr) as (-> & -> & _).
    destruct (sextets_arith a b b Ha Hb Hb) as (-> & -> & _ & _ & _ & ->).
    unfold is_byte in *. repeat f_equal; Z.to_euclidean_division_equations; lia.
  - apply andb_prop in H as [Ha H]. apply andb_prop in H as [Hb H].
    apply andb_prop in H as [Hc H].
    pose proof (sextets_in_range [a; b; c]) as Hr. cbn [forallb sextets] in Hr.
    rewrite Ha, Hb, Hc in Hr. specialize (Hr eq_refl).
    apply andb_prop in Hr as [Hp Hr]. apply andb_prop in Hr as [Hq Hr].
    apply andb_prop in Hr as [Hr Hs]. apply andb_prop in Hs as [Hs _].
    cbn [sextets base64_bytes]. rewrite (IH H).
    destruct (bytes_arith _ _ _ _ Hp Hq Hr Hs) as (-> & -> & ->).
    destruct (sextets_arith a b c Ha Hb Hc) as (-> & -> & -> & -> & _ & _).
    unfold is_byte in *. repeat f_equal; Z.to_euclidean_division_equations; lia.
Qed.

Lemma base64_values_read vs :
  forallb is_sextet vs = true ->
  all_some (map base64_value (map base64_char vs)) = Some vs.
Proof.
  induction vs as [|v vs IH]; intros H; [reflexivity|].
  cbn [forallb] in H. apply andb_prop in H as [Hv Hvs].
  cbn [map all_some]. pose proof (sextets_ok v Hv) as Hok. unfold sextet_ok in Hok.
  destruct (base64_value (base64_char v)) as [w|]; [|discriminate].
  apply andb_prop in Hok as [Hok _]. apply andb_prop in Hok as [Hw _].
  apply Z.eqb_eq in Hw. subst w. now rewrite (IH Hvs).
Qed.

Lemma base64_chars_plain vs :
  forallb is_sextet vs = true ->
  forallb (fun c => negb (c =? 61) && negb (is_ascii_whitespace c))
    (map base64_char vs) = true.
Proof.
  induction vs as [|v vs IH]; intros H; [reflexivity|].
  cbn [forallb] in H. apply andb_prop in H as [Hv Hvs].
  cbn [map forallb]. rewrite (IH Hvs), andb_true_r.
  pose proof (sextets_ok v Hv) as Hok. unfold sextet_ok in Hok.
  destruct (base64_value (base64_char v)) as [w|]; [|discriminate].
  apply andb_prop in Hok as [Hok Hws]. apply andb_prop in Hok as [_ Heq].
  now rewrite Heq, Hws.
Qed.

Lemma filter_all {A} (f : A -> bool) l : forallb f l = true -> filter f l = l.
Proof.
  induction l as [|a l IH]; cbn [forallb filter]; intros H; [reflexivity|].
  apply andb_prop in H as [Ha Hl]. now rewrite Ha, (IH Hl).
Qed.

(** The padding is one or two [=], one only after at least one character. *)
Lemma strip_padding_removes x pad :
  forallb (fun c => negb (c =? 61)) x = true ->
  pad = [] \/ (pad = [61] /\ x <> []) \/ pad = [61; 61] ->
  strip_padding (x ++ pad) = x.
Proof.
  intros Hx Hpad. unfold strip_padding.
  assert (Hlast : forall e r, rev x = e :: r -> (e =? 61) = false).
  { intros e r Hrev. rewrite forallb_forall in Hx.
    apply negb_true_iff, Hx, in_rev. rewrite Hrev. now left. }
  destruct Hpad as [->|[[-> Hne]| ->]].
  - rewrite app_nil_r. destruct (rev x) as [|e1 [|e2 r]] eqn:E; try reflexivity.
    now rewrite (Hlast _ _ eq_refl).
  - rewrite rev_app_distr. cbn [rev app].
    destruct (rev x) as [|e2 r] eqn:E.
    + exfalso. apply Hne. apply (f_equal (@rev Z)) in E.
      now rewrite rev_involutive in E.
    + cbn [Z.eqb Pos.eqb]. rewrite (Hlast _ _ eq_refl).
      change (rev r ++ [e2]) with (rev (e2 :: r)).
      now rewrite <- E, rev_involutive.
  - rewrite rev_app_distr. cbn [rev app Z.eqb Pos.eqb].
    apply rev_involutive.
Qed.

Lemma padding_cases bytes :
  padding bytes = []
  \/ (padding bytes = [61] /\ sextets bytes <> [])
  \/ padding bytes = [61; 61].
Proof.
  induction bytes as [|a|a b|a b c rest IH] using triples_ind; cbn [padding sextets];
    [now left|now right; right|right; left; split; [reflexivity|discriminate]|].
  destruct IH as [H|[[H Hne]|H]]; [now left|right; left; split; [exact H|discriminate]|now right; right].
Qed.

Lemma modulo_four_more n : Nat.modulo (4 + n) 4 = Nat.modulo n 4.
Proof.
  replace (4 + n)%nat with (n + 1 * 4)%nat by lia. apply Nat.Div0.mod_add.
Qed.

Lemma encoded_length bytes :
  Nat.modulo (length (sextets bytes ++ padding bytes)) 4 = 0%nat
  /\ Nat.modulo (length (sextets bytes)) 4 <> 1%nat.
Proof.
  induction bytes as [|a|a b|a b c rest [IH1 IH2]] using triples_ind;
    try (split; [reflexivity|discriminate]).
  cbn [sextets padding app length].
  change (S (S (S (S ?n)))) with (4 + n)%nat.
  now rewrite !modulo_four_more.
Qed.

(** [atob] reads back the bytes [btoa] wrote. *)
Lemma atob_base64_encode bytes :
  forallb is_byte bytes = true ->
  atob (base64_encode bytes) = Returns bytes.
Proof.
  intros Hb. pose proof (sextets_in_range bytes Hb) as Hs.
  pose proof (base64_chars_plain _ Hs) as Hplain.
  destruct (encoded_length bytes) as [Hlen Hbody].
  unfold atob. rewrite base64_encode_parts.
  rewrite filter_all.
  2:{ rewrite forallb_app. apply andb_true_intro. split.
      - eapply forallb_weaken; [|exact Hplain].
        intros c Hc. cbn beta in Hc. now apply andb_prop in Hc as [_ Hc].
      - destruct (padding_cases bytes) as [->|[[-> _]| ->]]; reflexivity. }
  rewrite length_app, length_map, <- length_app, Hlen. cbn [Nat.eqb].
  fold (strip_padding (map base64_char (sextets bytes) ++ padding bytes)).
  rewrite strip_padding_removes.
  - rewrite length_map.
    destruct (Nat.eqb (Nat.modulo (length (sextets bytes)) 4) 1) eqn:E;
      [apply Nat.eqb_eq in E; contradiction|].
    now rewrite (base64_values_read _ Hs), (base64_bytes_sextets bytes Hb).
  - eapply forallb_weaken; [|exact Hplain].
    intros c Hc. cbn beta in Hc. now apply andb_prop in Hc as [Hc _].
  - destruct (padding_cases bytes) as [H|[[H Hne]|H]]; [now left| |now right; right].
    right; left. split; [exact H|]. intros Hmap. apply Hne.
    now destruct (sextets bytes).
Qed.

Lemma unescape_from_kept fuel c rest :
  c <> 37 -> unescape_from (S fuel) (c :: rest) = c :: unescape_from fuel rest.
Proof.
  intros Hc. cbn [unescape_from].
  now assert ((c =? 37) = false) as -> by lia.
Qed.

Lemma unescape_from_escape fuel h1 h2 b rest :
  (h1 =? 117) = false -> hex_octet h1 h2 = Some b ->
  unescape_from (S fuel) (37 :: h1 :: h2 :: rest) = b :: unescape_from fuel rest.
Proof.
  intros Hu Hb. cbn [unescape_from Z.eqb Pos.eqb]. rewrite Hb.
  destruct rest as [|x [|y [|z rest]]]; try reflexivity.
  now rewrite Hu.
Qed.

(** [unescape] turns percent-encoded bytes back into the bytes. *)
Lemma unescape_percent_text keep bytes :
  keeps_ascii keep ->
  forallb is_byte bytes = true ->
  forall fuel,
    (length (percent_text keep bytes) < fuel)%nat ->
    unescape_from fuel (percent_text keep bytes) = bytes.
Proof.
  intros Hk. induction bytes as [|b bytes IH]; intros Hb fuel Hfuel.
  { destruct fuel; reflexivity. }
  cbn [forallb] in Hb. apply andb_prop in Hb as [Hb Hbs].
  unfold percent_text in *. cbn [flat_map] in *.
  rewrite length_app in Hfuel.
  destruct fuel as [|fuel]; [lia|].
  destruct (keep b) eqn:E.
  - apply Hk in E. cbn [app length] in *.
    rewrite unescape_from_kept by lia. now rewrite (IH Hbs) by lia.
  - unfold percent_byte in *. cbn [app length] in *.
    rewrite (unescape_from_escape fuel _ _ b)
      by (auto using percent_digit_not_u, hex_octet_percent).
    now rewrite (IH Hbs) by lia.
Qed.

Lemma escape_percent_text bytes :
  forallb is_byte bytes = true -> escape bytes = percent_text escape_unescaped bytes.
Proof.
  intros Hb. unfold escape, percent_text.
  induction bytes as [|b bytes IH]; [reflexivity|].
  cbn [forallb] in Hb. apply andb_prop in Hb as [Hb Hbs].
  cbn [flat_map]. rewrite (IH Hbs).
  unfold is_byte in Hb. now assert ((b <? 256) = true) as -> by lia.
Qed.

Lemma bytes_below_256 bytes :
  forallb is_byte bytes = true -> forallb (fun u => u <? 256) bytes = true.
Proof.
  apply forallb_weaken. intros b Hb. unfold is_byte in Hb. lia.
Qed.

(** On well-formed text, [textToBase64] writes the Base64 form of the
    UTF-8 bytes. *)
Lemma textToBase64_encoded t :
  well_formed t = true ->
  textToBase64 t = Returns (base64_encode (TextEncoder_encode t)).
Proof.
  intros Hwf. unfold textToBase64.
  rewrite (encodeURIComponent_percent_text t Hwf). cbn [bind].
  unfold unescape.
  rewrite (unescape_percent_text _ _ uri_unescaped_ascii (encoded_bytes t Hwf)) by lia.
  unfold btoa. now rewrite (bytes_below_256 _ (encoded_bytes t Hwf)).
Qed.

(** On well-formed text, [base64ToText] after [textToBase64] returns the
    text. *)
Lemma base64_round_trip :
  forall t : jsstring,
    well_formed t = true ->
    bind (textToBase64 t) base64ToText = Returns t.
Proof.
  intros t Hwf. rewrite (textToBase64_encoded t Hwf). cbn [bind].
  unfold base64ToText.
  rewrite (atob_base64_encode _ (encoded_bytes t Hwf)). cbn [bind].
  rewrite (escape_percent_text _ (encoded_bytes t Hwf)).
  rewrite (TextEncoder_encode_code_points t Hwf).
  unfold decodeURIComponent.
  rewrite (decode_percent_text _ _ escape_unescaped_ascii (code_points_scalar t Hwf))
    by lia.
  cbn [try_catch]. now rewrite (utf16_of_code_points t Hwf).
Qed.

(** *** Binary digits *)

Lemma read_radix_binary d s a any :
  0 <= d < 2 ->
  read_radix 2 (digit_char d :: s) a any = read_radix 2 s (a * 2 + d) true.
Proof.
  intros Hd. cbn [read_radix]. unfold digit_char, digit_value.
  assert ((d <? 10) = true) as -> by lia.
  assert ((48 <=? 48 + d) && (48 + d <=? 57) = true) as -> by lia.
  replace (48 + d - 48) with d by lia.
  now assert ((d <? 2) = true) as -> by lia.
Qed.

Lemma digit_char_binary d : 0 <= d < 2 -> binary_digit (digit_char d) = true.
Proof.
  intros Hd. unfold binary_digit, digit_char.
  assert ((d <? 10) = true) as -> by lia. lia.
Qed.

(** The digits [toString(2)] writes are read back by [parseInt]. *)
Lemma digits_from_binary fuel : forall n acc,
  0 <= n < 2 ^ Z.of_nat (S fuel) ->
  exists ds,
    digits_from (S fuel) 2 n acc = ds ++ acc
    /\ binary_word ds = true
    /\ forall a any rest,
        read_radix 2 (ds ++ rest) a any
        = read_radix 2 rest (a * 2 ^ Z.of_nat (length ds) + n) true.
Proof.
  induction fuel as [|fuel IH]; intros n acc Hn.
  - change (2 ^ Z.of_nat 1) with 2 in Hn.
    exists [digit_char n]. cbn [digits_from]. assert ((n <? 2) = true) as -> by lia.
    repeat split.
    + unfold binary_word. cbn [nonempty forallb].
      now rewrite digit_char_binary by lia.
    + intros a any rest. cbn [app length]. rewrite read_radix_binary by lia.
      f_equal.
  - cbn [digits_from]. fold (digits_from (S fuel)).
    destruct (n <? 2) eqn:E.
    + exists [digit_char n]. repeat split.
      * unfold binary_word. cbn [nonempty forallb].
        now rewrite digit_char_binary by lia.
      * intros a any rest. cbn [app length]. rewrite read_radix_binary by lia.
        f_equal.
    + assert (Hhalf : 0 <= n / 2 < 2 ^ Z.of_nat (S fuel)).
      { rewrite (Nat2Z.inj_succ (S fuel)), Z.pow_succ_r in Hn by lia.
        Z.to_euclidean_division_equations; lia. }
      destruct (IH (n / 2) (digit_char (n mod 2) :: acc) Hhalf)
        as (ds & Hds & Hword & Hread).
      exists (ds ++ [digit_char (n mod 2)]). repeat split.
      * change (digits_from (S fuel) 2 (n / 2) (digit_char (n mod 2) :: acc)
                = (ds ++ [digit_char (n mod 2)]) ++ acc).
        now rewrite Hds, <- app_assoc.
      * unfold binary_word in *. apply andb_prop in Hword as [Hne Hall].
        rewrite forallb_app, Hall. 
        assert (nonempty (ds ++ [digit_char (n mod 2)]) = true) as ->
          by (now destruct ds).
        cbn [forallb andb].
        now rewrite digit_char_binary by (Z.to_euclidean_division_equations; lia).
      * intros a any rest. rewrite <- app_assoc, Hread. cbn [app].
        rewrite read_radix_binary by (Z.to_euclidean_division_equations; lia).
        f_equal. rewrite length_app. cbn [length].
        replace (Z.of_nat (length ds + 1)) with (Z.succ (Z.of_nat (length ds))) by lia.
        rewrite Z.pow_succ_r by lia.
        Z.to_euclidean_division_equations; nia.
Qed.

Lemma number_toString_binary n :
  0 <= n ->
  exists ds,
    number_toString 2 n = ds
    /\ binary_word ds = true
    /\ forall a any rest,
        read_radix 2 (ds ++ rest) a any
        = read_radix 2 rest (a * 2 ^ Z.of_nat (length ds) + n) true.
Proof.
  intros Hn. unfold number_toString. assert ((n <? 0) = false) as -> by lia.
  destruct (digits_from_binary (Z.to_nat (Z.log2 n)) n []) as (ds & Hds & H).
  - rewrite Nat2Z.inj_succ, Z2Nat.id by apply Z.log2_nonneg.
    destruct (Z.eq_dec n 0) as [->|Hpos]; [cbn; lia|].
    pose proof (Z.log2_spec n). lia.
  - exists ds. rewrite app_nil_r in Hds. now split.
Qed.

Lemma cycle_fill_zeros n cur :
  cur = [48] \/ cur = [] -> cycle_fill n [48] cur = repeat 48 n.
Proof.
  revert cur. induction n as [|n IH]; intros cur Hcur; [reflexivity|].
  cbn [cycle_fill repeat]. destruct Hcur as [->| ->]; now rewrite IH by auto.
Qed.

Lemma read_radix_zeros k : forall rest any,
  exists any', read_radix 2 (repeat 48 k ++ rest) 0 any = read_radix 2 rest 0 any'.
Proof.
  induction k as [|k IH]; intros rest any; [now exists any|].
  cbn [repeat app]. change 48 with (digit_char 0) at 1.
  rewrite read_radix_binary by lia. apply IH.
Qed.

Lemma binary_word_zeros k ds :
  binary_word ds = true -> binary_word (repeat 48 k ++ ds) = true.
Proof.
  unfold binary_word. intros H. apply andb_prop in H as [Hne Hall].
  rewrite forallb_app, Hall, andb_true_r.
  assert (forallb binary_digit (repeat 48 k) = true) as ->
    by (induction k; cbn [repeat forallb]; auto).
  destruct k; cbn [repeat app nonempty]; [now rewrite Hne|reflexivity].
Qed.

Lemma binary_word_head w :
  binary_word w = true -> exists d y, w = d :: y /\ binary_digit d = true.
Proof.
  unfold binary_word. destruct w as [|d y]; [discriminate|].
  cbn [nonempty forallb andb]. intros H. apply andb_prop in H as [H _]. eauto.
Qed.

(** The word written for a code point is made of binary digits, and
    [parseInt] reads the code point back from it. *)
Lemma binary_of_read cp :
  0 <= cp ->
  binary_word (binary_of cp) = true /\ parseInt (binary_of cp) 2 = Some cp.
Proof.
  intros Hcp. unfold binary_of.
  destruct (number_toString_binary cp Hcp) as (ds & -> & Hword & Hread).
  assert (Hform : exists k, padStart (ceil_to_multiple (Z.of_nat (length ds)) 8) (str "0") ds
                            = repeat 48 k ++ ds).
  { unfold padStart. cbn [str nonempty negb]. rewrite orb_false_r.
    destruct (_ <=? _); [now exists 0%nat|].
    eexists. change (String.list_ascii_of_string "0") with ["0"%char].
    cbn [map]. change (Z.of_N (N_of_ascii "0")) with 48.
    rewrite cycle_fill_zeros by auto. reflexivity. }
  destruct Hform as [k ->].
  pose proof (binary_word_zeros k ds Hword) as Hw. split; [exact Hw|].
  destruct (binary_word_head _ Hw) as (d & y & Hdy & Hd).
  unfold parseInt. rewrite Hdy.
  assert (Hsp : is_space d = false)
    by (unfold binary_digit in Hd; unfold is_space; lia).
  cbn [trim_start]. rewrite Hsp.
  assert ((d =? 45) = false) as -> by (unfold binary_digit in Hd; lia).
  assert ((d =? 43) = false) as -> by (unfold binary_digit in Hd; lia).
  cbn [Z.eqb Z.ltb Z.compare Pos.compare Pos.compare_cont negb andb orb].
  rewrite <- Hdy. change ((2 =? 16)%positive) with false. cbn iota.
  destruct (read_radix_zeros k ds false) as [any' ->].
  rewrite <- (app_nil_r ds), Hread. cbn [read_radix].
  f_equal. lia.
Qed.

(** *** Words of binary digits separated by single spaces *)

Lemma binary_digit_not_space d : binary_digit d = true -> is_space d = false.
Proof. unfold binary_digit, is_space. lia. Qed.

Lemma join_cons sep p q rest :
  join sep (p :: q :: rest) = p ++ sep ++ join sep (q :: rest).
Proof. reflexivity. Qed.

Lemma join_words_head words :
  words <> [] -> Forall (fun w => binary_word w = true) words ->
  exists d y, join (str " ") words = d :: y /\ binary_digit d = true.
Proof.
  intros Hne Hall. destruct words as [|p rest]; [contradiction|].
  inversion Hall as [|? ? Hp _]; subst.
  destruct (binary_word_head p Hp) as (d & y & -> & Hd).
  destruct rest; [now exists d, y|].
  rewrite join_cons. cbn [app]. eauto.
Qed.

Lemma join_words_last words :
  words <> [] -> Forall (fun w => binary_word w = true) words ->
  exists y d, join (str " ") words = y ++ [d] /\ binary_digit d = true.
Proof.
  induction words as [|p [|q rest] IH]; intros Hne Hall; [contradiction| |].
  - inversion Hall as [|? ? Hp _]; subst. cbn [join].
    unfold binary_word in Hp. apply andb_prop in Hp as [Hp Hds].
    destruct (exists_last (l := p)) as (y & d & ->); [now destruct p|].
    rewrite forallb_app in Hds. apply andb_prop in Hds as [_ Hd].
    cbn [forallb] in Hd. rewrite andb_true_r in Hd. eauto.
  - inversion Hall as [|? ? _ Hrest]; subst.
    destruct (IH ltac:(discriminate) Hrest) as (y & d & Hy & Hd).
    rewrite join_cons, Hy. exists (p ++ str " " ++ y), d.
    now rewrite <- !app_assoc.
Qed.

Lemma join_words_chars words :
  Forall (fun w => binary_word w = true) words ->
  forallb (fun u => binary_digit u || (u =? 32)) (join (str " ") words) = true.
Proof.
  intros Hall. apply forallb_join; [reflexivity|].
  eapply Forall_impl; [|exact Hall].
  intros w Hw. unfold binary_word in Hw. apply andb_prop in Hw as [_ Hw].
  eapply forallb_weaken; [|exact Hw]. intros u Hu. now rewrite Hu.
Qed.

Lemma trim_start_kept d y : is_space d = false -> trim_start (d :: y) = d :: y.
Proof. intros H. cbn [trim_start]. now rewrite H. Qed.

Lemma trim_words words :
  Forall (fun w => binary_word w = true) words ->
  trim (join (str " ") words) = join (str " ") words.
Proof.
  intros Hall. destruct words as [|p rest] eqn:E; [reflexivity|]. rewrite <- E in *.
  assert (Hne : words <> []) by (rewrite E; discriminate).
  destruct (join_words_head words Hne Hall) as (d & y & Hhead & Hd).
  destruct (join_words_last words Hne Hall) as (y' & d' & Hlast & Hd').
  unfold trim. rewrite Hhead, (trim_start_kept d y (binary_digit_not_space d Hd)).
  rewrite <- Hhead, Hlast, rev_app_distr. cbn [rev app].
  rewrite (trim_start_kept d' _ (binary_digit_not_space d' Hd')).
  change (d' :: rev y') with (rev [d'] ++ rev y').
  now rewrite <- rev_app_distr, rev_involutive.
Qed.

Lemma not_binary_words words :
  Forall (fun w => binary_word w = true) words ->
  replace not_binary (str " ") (join (str " ") words) = join (str " ") words.
Proof.
  intros Hall. apply replace_never_matches. cbn [pattern not_binary].
  apply class_never_matches.
  eapply forallb_weaken; [|exact (join_words_chars words Hall)].
  intros u Hu. unfold class_has, binary_digit in *.
  destruct (existsb _ _) eqn:E; [reflexivity|].
  cbn [existsb item_matches] in E. unfold is_space in E. lia.
Qed.

(** [\s+] does not match in front of a character that is not white
    space. *)
Lemma space_run_fails d y :
  is_space d = false -> match_here (pattern space_run) (d :: y) = None.
Proof.
  intros Hd. unfold match_here. cbn [pattern space_run].
  rewrite matches_repeat, repeat_matcher_unbounded.
  cbn [matches existsb item_matches xorb]. rewrite Hd. reflexivity.
Qed.

Lemma space_run_fails_at_end : match_here (pattern space_run) [] = None.
Proof. reflexivity. Qed.

(** [\s+] takes a single space in front of such a character. *)
Lemma space_run_single d y :
  is_space d = false ->
  match_here (pattern space_run) (32 :: d :: y) = Some (d :: y).
Proof.
  intros Hd. unfold match_here. cbn [pattern space_run].
  rewrite matches_repeat, repeat_matcher_unbounded.
  cbn [matches existsb item_matches xorb is_space Z.eqb Z.leb Z.compare
       Pos.eqb Pos.compare Pos.compare_cont andb orb flat_map Nat.eqb Nat.pred
       Nat.add length app].
  rewrite repeat_matcher_unbounded.
  cbn [matches existsb item_matches xorb orb flat_map Nat.eqb app hd_error].
  rewrite Hd. reflexivity.
Qed.

Lemma exec_skips_word r w : forall skipped x,
  (forall d y, match_here r (d :: y) = None \/ binary_digit d = false) ->
  forallb binary_digit w = true ->
  exec r skipped (w ++ x) = exec r (rev w ++ skipped) x.
Proof.
  induction w as [|d w IH]; intros skipped x Hr Hw; [reflexivity|].
  cbn [forallb] in Hw. apply andb_prop in Hw as [Hd Hw].
  cbn [app exec].
  destruct (Hr d (w ++ x)) as [-> | Hno]; [|congruence].
  rewrite (IH (d :: skipped) x Hr Hw). cbn [rev]. now rewrite <- app_assoc.
Qed.

Lemma space_run_or_digit d y :
  match_here (pattern space_run) (d :: y) = None \/ binary_digit d = false.
Proof.
  destruct (binary_digit d) eqn:E; [left|now right].
  apply space_run_fails, binary_digit_not_space, E.
Qed.

Lemma binary_word_digits w : binary_word w = true -> forallb binary_digit w = true.
Proof. unfold binary_word. intros H. now apply andb_prop in H as [_ H]. Qed.

(** Collapsing the runs of white space leaves single spaces between
    words alone. *)
Lemma space_run_words words : forall fuel done,
  Forall (fun w => binary_word w = true) words ->
  (length (join (str " ") words) < fuel)%nat ->
  replace_all_from fuel (pattern space_run) (str " ") done (join (str " ") words)
  = join (str " ") words.
Proof.
  induction words as [|p [|q rest] IH]; intros fuel done Hall Hfuel;
    (destruct fuel as [|fuel]; [lia|]).
  - reflexivity.
  - inversion Hall as [|? ? Hp _]; subst. cbn [join replace_all_from].
    pose proof (exec_skips_word (pattern space_run) p [] [] space_run_or_digit
                  (binary_word_digits p Hp)) as Hskip.
    rewrite app_nil_r in Hskip. rewrite Hskip.
    cbn [exec]. now rewrite space_run_fails_at_end.
  - inversion Hall as [|? ? Hp Hrest]; subst.
    destruct (join_words_head (q :: rest) ltac:(discriminate) Hrest)
      as (d & y & Hhead & Hd).
    rewrite join_cons in Hfuel |- *. rewrite Hhead in Hfuel |- *.
    change (str " " ++ d :: y) with (32 :: d :: y) in Hfuel |- *.
    cbn [replace_all_from].
    rewrite (exec_skips_word _ p [] _ space_run_or_digit (binary_word_digits p Hp)).
    cbn [exec].
    rewrite (space_run_single d y (binary_digit_not_space d Hd)).
    rewrite app_nil_r, rev_involutive.
    assert (Nat.eqb (length (d :: y)) (length (32 :: d :: y)) = false) as ->
      by (apply Nat.eqb_neq; cbn [length]; lia).
    assert (matched_text (32 :: d :: y) (d :: y) = [32]) as ->.
    { unfold matched_text. cbn [length].
      replace (S (S (length y)) - S (length y))%nat with 1%nat by lia. reflexivity. }
    change (get_substitution [32] (rev done ++ p) (d :: y) (str " ")) with [32].
    rewrite <- Hhead. rewrite IH; [now rewrite <- app_assoc|exact Hrest|].
    rewrite Hhead. rewrite length_app in Hfuel. cbn [length] in *. lia.
Qed.

Lemma split_skips_word w : forall fuel token x,
  forallb binary_digit w = true ->
  split_string_from (length w + fuel) (str " ") token (w ++ x)
  = split_string_from fuel (str " ") (rev w ++ token) x.
Proof.
  induction w as [|d w IH]; intros fuel token x Hw; [reflexivity|].
  cbn [forallb] in Hw. apply andb_prop in Hw as [Hd Hw].
  cbn [app length Nat.add split_string_from]. 
  change (strip_prefix (str " ") (d :: w ++ x))
    with (if d =? 32 then Some (w ++ x) else None).
  assert ((d =? 32) = false) as -> by (unfold binary_digit in Hd; lia).
  rewrite (IH fuel (d :: token) x Hw). cbn [rev]. now rewrite <- app_assoc.
Qed.

(** Splitting at the spaces gives the words back. *)
Lemma split_words words : forall fuel token,
  words <> [] ->
  Forall (fun w => binary_word w = true) words ->
  (length (join (str " ") words) < fuel)%nat ->
  exists first others,
    words = first :: others
    /\ split_string_from fuel (str " ") token (join (str " ") words)
       = (rev token ++ first) :: others.
Proof.
  induction words as [|p [|q rest] IH]; intros fuel token Hne Hall Hfuel;
    [contradiction| |].
  - inversion Hall as [|? ? Hp _]; subst. exists p, []. split; [reflexivity|].
    cbn [join] in *.
    replace fuel with (length p + (fuel - length p))%nat by lia.
    pose proof (split_skips_word p (fuel - length p) token []
                  (binary_word_digits p Hp)) as Hskip.
    rewrite app_nil_r in Hskip. rewrite Hskip.
    destruct (fuel - length p)%nat eqn:E; [lia|].
    cbn [split_string_from]. now rewrite rev_app_distr, rev_involutive.
  - inversion Hall as [|? ? Hp Hrest]; subst.
    exists p, (q :: rest). split; [reflexivity|].
    rewrite join_cons in *. rewrite !length_app in Hfuel.
    change (length (str " ")) with 1%nat in Hfuel.
    replace fuel with (length p + (fuel - length p))%nat by lia.
    rewrite (split_skips_word p _ token _ (binary_word_digits p Hp)).
    destruct (fuel - length p)%nat as [|fuel'] eqn:E; [lia|].
    change (str " " ++ join (str " ") (q :: rest))
      with (32 :: join (str " ") (q :: rest)).
    cbn [split_string_from].
    change (strip_prefix (str " ") (32 :: join (str " ") (q :: rest)))
      with (Some (join (str " ") (q :: rest))).
    cbn iota. rewrite rev_app_distr, rev_involutive.
    destruct (IH fuel' [] ltac:(discriminate) Hrest ltac:(lia))
      as (first & others & Hw & ->).
    cbn [rev app]. now rewrite Hw.
Qed.

(** *** Text to binary and back *)

Lemma split_string_space s :
  split_string (str " ") s = split_string_from (S (length s)) (str " ") [] s.
Proof. reflexivity. Qed.

Lemma binary_words cps :
  forallb (fun cp => 0 <=? cp) cps = true ->
  Forall (fun w => binary_word w = true) (map binary_of cps).
Proof.
  induction cps as [|cp cps IH]; intros H; [constructor|].
  cbn [forallb] in H. apply andb_prop in H as [Hcp Hcps].
  cbn [map]. constructor; [|exact (IH Hcps)].
  apply binary_of_read. lia.
Qed.

Lemma binary_words_read cps :
  forallb (fun cp => (0 <=? cp) && (cp <=? 0x10FFFF)) cps = true ->
  map_completion (fun b => fromCodePoint (parseInt b 2)) (map binary_of cps)
  = Returns (map utf16_of_code_point cps).
Proof.
  induction cps as [|cp cps IH]; intros H; [reflexivity|].
  cbn [forallb] in H. apply andb_prop in H as [Hcp Hcps].
  cbn [map map_completion].
  destruct (binary_of_read cp ltac:(lia)) as [_ ->].
  cbn [fromCodePoint]. rewrite Hcp, (IH Hcps). reflexivity.
Qed.

(** [binaryToText] reads a text of 8-bit groups back as its code points. *)
Lemma binaryToText_words cps :
  forallb (fun cp => (0 <=? cp) && (cp <=? 0x10FFFF)) cps = true ->
  binaryToText (join (str " ") (map binary_of cps))
  = Returns (flat_map utf16_of_code_point cps).
Proof.
  intros Hcps.
  assert (Hwords : Forall (fun w => binary_word w = true) (map binary_of cps)).
  { apply binary_words. eapply forallb_weaken; [|exact Hcps].
    intros cp H. cbn beta in H. lia. }
  unfold binaryToText.
  rewrite (trim_words _ Hwords), (not_binary_words _ Hwords).
  unfold replace, replace_all. cbn [global space_run].
  rewrite (space_run_words _ _ [] Hwords) by lia.
  destruct cps as [|cp cps]; [reflexivity|].
  destruct (join_words_head (map binary_of (cp :: cps)) ltac:(discriminate) Hwords)
    as (d & y & Hhead & _).
  assert (nonempty (join (str " ") (map binary_of (cp :: cps))) = true) as ->
    by now rewrite Hhead.
  cbn [negb]. rewrite split_string_space.
  destruct (split_words (map binary_of (cp :: cps))
              (S (length (join (str " ") (map binary_of (cp :: cps))))) []
              ltac:(discriminate) Hwords ltac:(lia))
    as (first & others & Hw & ->).
  cbn [rev app]. rewrite <- Hw.
  rewrite filter_all.
  2:{ rewrite forallb_forall. rewrite Forall_forall in Hwords.
      intros w Hin. apply Hwords in Hin. unfold binary_word in Hin.
      now apply andb_prop in Hin as [Hin _]. }
  rewrite (binary_words_read _ Hcps). cbn [bind try_catch].
  now rewrite join_nil, flat_map_concat_map.
Qed.

(** The code points of any string of code units, paired or not, are in
    range and give the string back. *)
Lemma code_points_of_units t :
  forallb code_unit t = true ->
  forallb (fun cp => (0 <=? cp) && (cp <=? 0x10FFFF)) (code_points t) = true
  /\ flat_map utf16_of_code_point (code_points t) = t.
Proof.
  unfold code_points.
  induction t as [|u rest Hsingle IH|u v rest Hu Hv IH] using chars_ind; intros H.
  - now split.
  - cbn [forallb] in H. apply andb_prop in H as [Hunit Hrest].
    destruct (IH Hrest) as [IH1 IH2].
    rewrite (chars_single _ _ Hsingle). cbn [map forallb flat_map].
    change (cp_of [u]) with u. rewrite IH1, IH2.
    unfold code_unit in Hunit. unfold utf16_of_code_point.
    assert ((u <? 65536) = true) as -> by lia. split; [lia|reflexivity].
  - cbn [forallb] in H. apply andb_prop in H as [_ H].
    apply andb_prop in H as [_ Hrest].
    destruct (IH Hrest) as [IH1 IH2].
    rewrite (chars_pair _ _ _ Hu Hv). cbn [map forallb flat_map].
    assert (Hcp : cp_of [u; v] = pair_code_point u v).
    { unfold cp_of. cbn [codePointAt0]. now rewrite Hu, Hv. }
    rewrite Hcp, IH1, IH2, (utf16_of_pair u v Hu Hv).
    pose proof (pair_code_point_range u v Hu Hv). split; [lia|reflexivity].
Qed.

Lemma digits_from_length fuel : forall radix n acc,
  (length (digits_from fuel radix n acc) <= fuel + length acc)%nat.
Proof.
  induction fuel as [|f IH]; intros radix n acc; cbn [digits_from]; [lia|].
  destruct (n <? radix); [cbn [length]; lia|].
  etransitivity; [apply IH|]. cbn [length]. lia.
Qed.

(** A code point has at most 21 binary digits. *)
Lemma number_toString_binary_length cp :
  0 <= cp <= 0x10FFFF -> Z.of_nat (length (number_toString 2 cp)) <= 21.
Proof.
  intros Hcp. unfold number_toString. assert ((cp <? 0) = false) as -> by lia.
  pose proof (digits_from_length (S (Z.to_nat (Z.log2 cp))) 2 cp []) as Hlen.
  cbn [length] in Hlen.
  assert (Z.log2 cp < 21).
  { destruct (Z.eq_dec cp 0) as [->|Hpos]; [reflexivity|].
    apply Z.log2_lt_pow2; lia. }
  pose proof (Z.log2_nonneg cp). lia.
Qed.

Lemma ceil_to_multiple_bound len g :
  0 < g -> 0 <= len -> ceil_to_multiple len g <= len + g - 1.
Proof.
  intros Hg Hlen. unfold ceil_to_multiple.
  rewrite Z.mul_comm. apply Z.mul_div_le. lia.
Qed.

(** The loop over the characters is a loop over the code points. *)
Lemma map_completion_code_points {B} (F : Z -> completion B) t :
  map_completion
    (fun ch => match codePointAt0 ch with None => Throws TypeError | Some code => F code end)
    (chars t)
  = map_completion F (code_points t).
Proof.
  unfold code_points. pose proof (chars_elements t) as Hall.
  induction Hall as [|c l [cp Hcp] _ IH]; [reflexivity|].
  cbn [map_completion map]. rewrite IH. unfold cp_of. now rewrite Hcp.
Qed.

Lemma map_completion_each {A B} (F : A -> completion B) (G : A -> B) l :
  Forall (fun a => F a = Returns (G a)) l ->
  map_completion F l = Returns (map G l).
Proof.
  induction 1 as [|a l Ha _ IH]; [reflexivity|].
  cbn [map_completion map]. now rewrite Ha, IH.
Qed.

(** With groups of 8 bits, [textToBinary] writes one word per code
    point. *)
Lemma textToBinary_words {host : Host} t upper :
  forallb code_unit t = true ->
  textToBinary t (Some 8) (str " ") upper
  = Returns (join (str " ") (map binary_of (code_points t))).
Proof.
  intros Hunits. unfold textToBinary.
  match goal with
  | |- bind (map_completion ?f _) _ = _ =>
      assert (Hparts : map_completion f (chars t)
                       = Returns (map binary_of (code_points t)))
  end.
  { change (0 <? 8) with true. cbv iota.
    rewrite (map_completion_code_points
               (fun code =>
                  padStart_limited
                    (ceil_to_multiple (Z.of_nat (length (number_toString 2 code))) 8)
                    (str "0") (number_toString 2 code))).
    apply map_completion_each.
    destruct (code_points_of_units t Hunits) as [Hrange _].
    apply Forall_forall. intros cp Hin. rewrite forallb_forall in Hrange.
    apply Hrange in Hin.
    apply padStart_limited_short.
    pose proof (number_toString_binary_length cp ltac:(lia)).
    pose proof (ceil_to_multiple_bound (Z.of_nat (length (number_toString 2 cp))) 8
                  ltac:(lia) ltac:(lia)).
    lia. }
  rewrite Hparts. cbn [bind]. destruct upper; [|reflexivity].
  f_equal.
  assert (Hchars : forallb (fun u => binary_digit u || (u =? 32))
                     (join (str " ") (map binary_of (code_points t))) = true).
  { apply join_words_chars, binary_words.
    eapply forallb_weaken; [|exact (proj1 (code_points_of_units t Hunits))].
    intros cp H. cbn beta in H. lia. }
  rewrite toUpperCase_plain.
  - rewrite <- (map_id (join _ _)) at 2. apply map_ext_in.
    intros u Hu. rewrite forallb_forall in Hchars. apply Hchars in Hu.
    unfold ascii_upper, binary_digit in *.
    now assert ((97 <=? u) && (u <=? 122) = false) as -> by lia.
  - eapply forallb_weaken; [|exact Hchars].
    intros u Hu. unfold plain, binary_digit in *. lia.
Qed.

(** [binaryToText] after [textToBinary], with groups of 8 bits and a space
    between them, returns the text: any string of code units, paired
    surrogates or not. *)
Lemma binary_round_trip :
  forall (host : Host) (t : jsstring) (upper : bool),
    forallb code_unit t = true ->
    bind (@textToBinary host t (Some 8) (str " ") upper) binaryToText = Returns t.
Proof.
  intros host t upper Hunits.
  rewrite (textToBinary_words t upper Hunits). cbn [bind].
  destruct (code_points_of_units t Hunits) as [Hrange Htext].
  now rewrite (binaryToText_words _ Hrange), Htext.
Qed.

(** *** The four codecs *)

Lemma well_formed_units t : well_formed t = true -> forallb code_unit t = true.
Proof.
  revert t. apply well_formed_ind;
    [reflexivity|intros u rest Hu _ _ IH|intros u v rest Hu Hv _ IH].
  - cbn [forallb]. now rewrite Hu, IH.
  - cbn [forallb]. rewrite IH.
    unfold code_unit, is_lead, is_trail in *. lia.
Qed.

(** C1, as the code has it: on well-formed text, with the default options
    and either case of the digits, the binary, Base64 and URL codecs give
    the text back, and so does the hexadecimal codec unless the text
    starts with U+FEFF: [hexToText] decodes with a decoder that takes a
    leading U+FEFF for a byte order mark, and returns the text without
    it. *)
Theorem codec_round_trips :
  forall (host : Host) (t : jsstring) (upper : bool),
    well_formed t = true ->
    bind (@textToBinary host t (Some 8) (str " ") upper) binaryToText = Returns t
    /\ bind (@textToHex host t (str " ") upper (Some 1)) hexToText
       = Returns (if starts_with_feff t then tl t else t)
    /\ bind (textToBase64 t) base64ToText = Returns t
    /\ bind (urlEncode t) urlDecode = Returns t.
Proof.
  intros host t upper Hwf. repeat split.
  - apply binary_round_trip, well_formed_units, Hwf.
  - apply hex_round_trip, Hwf.
  - apply base64_round_trip, Hwf.
  - apply url_round_trip, Hwf.
Qed.

(** C1, witness: U+FEFF followed by "Hi", uppercase digits.  Three codecs
    return the text, the hexadecimal one returns "Hi". *)
Lemma codec_round_trips_witness :
  well_formed (0xFEFF :: str "Hi") = true
  /\ bind (@textToBinary plain_host (0xFEFF :: str "Hi") (Some 8) (str " ") true)
       binaryToText
     = Returns (0xFEFF :: str "Hi")
  /\ bind (@textToHex plain_host (0xFEFF :: str "Hi") (str " ") true (Some 1)) hexToText
     = Returns (str "Hi")
  /\ bind (textToBase64 (0xFEFF :: str "Hi")) base64ToText = Returns (0xFEFF :: str "Hi")
  /\ bind (urlEncode (0xFEFF :: str "Hi")) urlDecode = Returns (0xFEFF :: str "Hi").
Proof.
  split; [reflexivity|].
  exact (codec_round_trips plain_host (0xFEFF :: str "Hi") true eq_refl).
Defined.

(** * Further properties *)

(** ** More on ROT *)

Lemma rotate_unit_compose a b u :
  rotate_unit b (rotate_unit a u) = rotate_unit (a + b) u.
Proof.
  pose proof (rotate_unit_keeps_class a u) as [Hl Hu].
  unfold rotate_unit at 1. rewrite Hl, Hu.
  unfold rotate_unit.
  destruct (is_lower u) eqn:El; [|destruct (is_upper u) eqn:Eu]; trivial.
  - replace (97 + (u - 97 + a) mod 26 - 97 + b) with ((u - 97 + a) mod 26 + b) by lia.
    rewrite Zplus_mod_idemp_l. do 2 f_equal. lia.
  - replace (65 + (u - 65 + a) mod 26 - 65 + b) with ((u - 65 + a) mod 26 + b) by lia.
    rewrite Zplus_mod_idemp_l. do 2 f_equal. lia.
Qed.

Lemma rotate_unit_modulo s u : rotate_unit (s mod 26) u = rotate_unit s u.
Proof.
  unfold rotate_unit.
  destruct (is_lower u); [|destruct (is_upper u)]; trivial;
    now rewrite Zplus_mod_idemp_r.
Qed.

(** X1: for shifts that the Number type adds to the rank of a letter
    without rounding ([a], [b] and [a + b] at most 2^53 - 26 in absolute
    value), two rotations in a row are the rotation by the sum of the
    shifts; in particular the opposite shift undoes a rotation. *)
Theorem rot_compose :
  forall (t : jsstring) (a b : Z),
    exact_shift a = true ->
    exact_shift b = true ->
    exact_shift (a + b) = true ->
    rot (rot t (Some a)) (Some b) = rot t (Some (a + b))
    /\ rot (rot t (Some a)) (Some (- a)) = t.
Proof.
  intros t a b Ha Hb Hab. split.
  - rewrite !rot_is_map, map_map by assumption. apply map_ext. intros u.
    apply rotate_unit_compose.
  - apply rot_inverse; trivial.
    + unfold exact_shift in *. lia.
    + now replace (a + - a) with 0 by lia.
Qed.

Lemma rot_compose_witness :
  exact_shift 3 = true
  /\ exact_shift 30 = true
  /\ exact_shift (3 + 30) = true
  /\ rot (rot (str "Hello") (Some 3)) (Some 30) = rot (str "Hello") (Some (3 + 30))
  /\ rot (rot (str "Hello") (Some 3)) (Some (- 3)) = str "Hello".
Proof.
  split; [reflexivity|]. split; [reflexivity|]. split; [reflexivity|].
  exact (rot_compose (str "Hello") 3 30 eq_refl eq_refl eq_refl).
Defined.

(** X2: for a shift that the Number type adds to the rank of a letter
    without rounding (at most 2^53 - 26 in absolute value), only the shift
    modulo 26 matters, so a negative shift is the rotation by its
    complement to 26; position by position a lower-case letter stays a
    lower-case letter, an upper-case letter an upper-case letter, and
    every other code unit is kept as it is. *)
Theorem rot_shift_modulo :
  forall (t : jsstring) (s : Z),
    exact_shift s = true ->
    rot t (Some s) = rot t (Some (s mod 26))
    /\ Forall2
         (fun u v => is_lower v = is_lower u /\ is_upper v = is_upper u
                     /\ (is_letter u = true \/ v = u))
         t (rot t (Some s)).
Proof.
  intros t s Hs.
  assert (Hm : exact_shift (s mod 26) = true).
  { apply exact_shift_small. pose proof (Z.mod_pos_bound s 26). lia. }
  rewrite !rot_is_map by assumption. split.
  - apply map_ext. intros u. symmetry. apply rotate_unit_modulo.
  - clear Hs Hm. induction t as [|u t IH]; cbn [map]; constructor; [|exact IH].
    pose proof (rotate_unit_keeps_class s u) as [Hl Hu].
    repeat split; trivial.
    unfold is_letter, rotate_unit.
    destruct (is_lower u); [now left|]. destruct (is_upper u); [now left|now right].
Qed.

Lemma rot_shift_modulo_witness :
  exact_shift (-3) = true
  /\ rot (str "Hello") (Some (-3)) = rot (str "Hello") (Some ((-3) mod 26))
  /\ Forall2
       (fun u v => is_lower v = is_lower u /\ is_upper v = is_upper u
                   /\ (is_letter u = true \/ v = u))
       (str "Hello") (rot (str "Hello") (Some (-3))).
Proof.
  split; [reflexivity|].
  exact (rot_shift_modulo (str "Hello") (-3) eq_refl).
Defined.

(** X3: when the shift is not a number, every ASCII letter becomes the
    character U+0000 and everything else is kept. *)
Theorem rot_not_a_number :
  forall t : jsstring,
    rot t None = map (fun u => if is_letter u then 0 else u) t.
Proof.
  intros t. unfold rot. rewrite join_nil.
  induction t as [|u rest Hsingle IH|u v rest Hu Hv IH] using chars_ind.
  - reflexivity.
  - rewrite (chars_single _ _ Hsingle). cbn [map concat]. rewrite IH.
    cbn [charCodeAt0 hd_error]. unfold is_letter, is_lower, is_upper, fromCharCode.
    destruct ((97 <=? u) && (u <=? 122)); [reflexivity|].
    destruct ((65 <=? u) && (u <=? 90)); reflexivity.
  - rewrite (chars_pair _ _ _ Hu Hv). cbn [map concat]. rewrite IH.
    cbn [charCodeAt0 hd_error].
    pose proof (surrogate_not_letter u (lead_is_surrogate u Hu)) as [Hl Hup].
    pose proof (surrogate_not_letter v (trail_is_surrogate v Hv)) as [Hl' Hup'].
    unfold is_letter. rewrite Hl, Hup, Hl', Hup'.
    unfold is_lower in Hl. unfold is_upper in Hup. rewrite Hl, Hup.
    reflexivity.
Qed.

(** ** What [hexToText] reads *)

Lemma hexToText_cleaned h : replace not_hex [] h = filter is_hex_digit h.
Proof.
  unfold replace, not_hex. cbn [global pattern]. unfold replace_all.
  rewrite replace_all_from_delete by lia.
  apply filter_ext. intros u. apply not_hex_class.
Qed.

Lemma rem_2_even n : (Z.rem (Z.of_nat n) 2 =? 0) = Nat.even n.
Proof.
  rewrite Z.rem_mod_nonneg by lia.
  destruct (Nat.even n) eqn:E.
  - apply Nat.even_spec in E as [k ->]. rewrite Nat2Z.inj_mul.
    change (Z.of_nat 2) with 2. rewrite Z.mul_comm, Z.mod_mul by lia. reflexivity.
  - assert (Ho : Nat.odd n = true) by (rewrite <- Nat.negb_even, E; reflexivity).
    apply Nat.odd_spec in Ho as [k ->].
    rewrite Nat2Z.inj_add, Nat2Z.inj_mul. change (Z.of_nat 2) with 2.
    change (Z.of_nat 1) with 1.
    rewrite Z.add_comm, Z.mul_comm, Z.mod_add by lia. reflexivity.
Qed.

Lemma filter_idempotent {A} (f : A -> bool) l : filter f (filter f l) = filter f l.
Proof.
  induction l as [|a l IH]; [reflexivity|].
  cbn [filter]. destruct (f a) eqn:E; [|exact IH].
  cbn [filter]. now rewrite E, IH.
Qed.

Lemma filter_none {A} (f : A -> bool) l : filter f (filter (fun a => negb (f a)) l) = [].
Proof.
  induction l as [|a l IH]; [reflexivity|].
  cbn [filter]. destruct (f a) eqn:E; cbn [negb filter]; [exact IH|].
  now rewrite E.
Qed.

(** X4: [hexToText] reads the hexadecimal digits of its input and nothing
    else.  An odd number of digits gives the text "Invalid hex length";
    an even number gives what the decoder makes of the bytes the pairs
    denote.  In particular an input without any digit gives the empty
    text. *)
Theorem hexToText_reads_digits :
  forall h : jsstring,
    hexToText h
    = (if Nat.even (length (filter is_hex_digit h))
       then Returns (TextDecoder_decode (hex_pairs (filter is_hex_digit h)))
       else Returns (str "Invalid hex length"))
    /\ hexToText h = hexToText (filter is_hex_digit h)
    /\ hexToText (filter (fun u => negb (is_hex_digit u)) h) = Returns [].
Proof.
  assert (Hform : forall h,
    hexToText h
    = (if Nat.even (length (filter is_hex_digit h))
       then Returns (TextDecoder_decode (hex_pairs (filter is_hex_digit h)))
       else Returns (str "Invalid hex length"))).
  { intros h. unfold hexToText. rewrite hexToText_cleaned, rem_2_even.
    now destruct (Nat.even _). }
  intros h. repeat split.
  - apply Hform.
  - now rewrite (Hform h), (Hform (filter is_hex_digit h)), filter_idempotent.
  - now rewrite Hform, filter_none.
Qed.

Lemma is_hex_digit_upper u : is_hex_digit (ascii_upper u) = is_hex_digit u.
Proof. unfold is_hex_digit, ascii_upper. destruct ((97 <=? u) && (u <=? 122)) eqn:E; lia. Qed.

Lemma filter_map_upper h :
  filter is_hex_digit (map ascii_upper h) = map ascii_upper (filter is_hex_digit h).
Proof.
  induction h as [|u h IH]; [reflexivity|].
  cbn [map filter]. rewrite is_hex_digit_upper.
  destruct (is_hex_digit u); cbn [map]; now rewrite IH.
Qed.

Lemma pairs_case_ok a b : pair_case_ok a b = true.
Proof.
  unfold pair_case_ok.
  destruct (is_hex_digit a && is_hex_digit b) eqn:E; [|reflexivity].
  apply andb_prop in E as [Ha Hb]. cbn [negb orb].
  assert (Hall : forallb (fun x => forallb (fun y => pair_case_ok x y)
                                     (map Z.of_nat (seq 0 128)))
                   (map Z.of_nat (seq 0 128)) = true)
    by (vm_compute; reflexivity).
  assert (Hra : 0 <= a < Z.of_nat 128) by (unfold is_hex_digit in Ha; lia).
  assert (Hrb : 0 <= b < Z.of_nat 128) by (unfold is_hex_digit in Hb; lia).
  pose proof (forallb_below 128 _ Hall a Hra) as H1. cbn beta in H1.
  pose proof (forallb_below 128 _ H1 b Hrb) as H2. cbn beta in H2.
  unfold pair_case_ok in H2. now rewrite Ha, Hb in H2.
Qed.

Lemma hex_pairs_upper ds :
  forallb is_hex_digit ds = true -> hex_pairs (map ascii_upper ds) = hex_pairs ds.
Proof.
  revert ds. fix IH 1. intros [|a [|b ds]] H; try reflexivity.
  cbn [forallb] in H. apply andb_prop in H as [Ha H]. apply andb_prop in H as [Hb H].
  cbn [map hex_pairs]. rewrite (IH ds H). f_equal.
  pose proof (pairs_case_ok a b) as Hok. unfold pair_case_ok in Hok.
  rewrite Ha, Hb in Hok. cbn [andb negb orb] in Hok. now apply Z.eqb_eq in Hok.
Qed.

Lemma forallb_filter {A} (f : A -> bool) l : forallb f (filter f l) = true.
Proof.
  induction l as [|a l IH]; [reflexivity|].
  cbn [filter]. destruct (f a) eqn:E; [|exact IH]. cbn [forallb]. now rewrite E.
Qed.

(** X5: the case of the hexadecimal digits does not matter to
    [hexToText]. *)
Theorem hexToText_ignores_case :
  forall h : jsstring, hexToText (map ascii_upper h) = hexToText h.
Proof.
  intros h. unfold hexToText. rewrite !hexToText_cleaned, filter_map_upper, length_map.
  now rewrite hex_pairs_upper by apply forallb_filter.
Qed.

(** ** More on Base64 *)

Lemma base64_encode_length bytes :
  Z.of_nat (length (base64_encode bytes)) = 4 * ((Z.of_nat (length bytes) + 2) / 3).
Proof.
  induction bytes as [|a|a b|a b c rest IH] using triples_ind; try reflexivity.
  cbn [base64_encode length]. rewrite !Nat2Z.inj_succ in *.
  Z.to_euclidean_division_equations. lia.
Qed.

Lemma base64_encode_alphabet bytes :
  forallb is_byte bytes = true ->
  forallb (fun c => is_base64_char c || (c =? 61)) (base64_encode bytes) = true.
Proof.
  intros Hb. rewrite base64_encode_parts, forallb_app.
  apply andb_true_intro. split.
  - pose proof (sextets_in_range bytes Hb) as Hs.
    induction (sextets bytes) as [|v vs IH]; [reflexivity|].
    cbn [forallb] in Hs. apply andb_prop in Hs as [Hv Hvs].
    cbn [map forallb]. rewrite (IH Hvs), andb_true_r.
    pose proof (sextets_ok v Hv) as Hok. unfold sextet_ok in Hok.
    unfold is_base64_char. now destruct (base64_value (base64_char v)).
  - destruct (padding_cases bytes) as [->|[[-> _]| ->]]; reflexivity.
Qed.

(** X6: on well-formed text [textToBase64] returns the Base64 form of the
    UTF-8 bytes of the text: four characters for every three bytes, the
    last group completed with [=], all of them from the Base64 alphabet. *)
Theorem textToBase64_shape :
  forall t : jsstring,
    well_formed t = true ->
    exists r,
      textToBase64 t = Returns r
      /\ r = base64_encode (TextEncoder_encode t)
      /\ Z.of_nat (length r) = 4 * ((Z.of_nat (length (TextEncoder_encode t)) + 2) / 3)
      /\ forallb (fun c => is_base64_char c || (c =? 61)) r = true.
Proof.
  intros t Hwf. exists (base64_encode (TextEncoder_encode t)).
  split; [apply textToBase64_encoded, Hwf|].
  split; [reflexivity|].
  split; [apply base64_encode_length|].
  apply base64_encode_alphabet, encoded_bytes, Hwf.
Qed.

Lemma textToBase64_shape_witness :
  well_formed (str "Hi") = true
  /\ exists r,
       textToBase64 (str "Hi") = Returns r
       /\ r = base64_encode (TextEncoder_encode (str "Hi"))
       /\ Z.of_nat (length r)
          = 4 * ((Z.of_nat (length (TextEncoder_encode (str "Hi"))) + 2) / 3)
       /\ forallb (fun c => is_base64_char c || (c =? 61)) r = true.
Proof.
  split; [reflexivity|].
  exact (textToBase64_shape (str "Hi") eq_refl).
Defined.

(** The first unpaired surrogate makes [encodeURIComponent] throw. *)
Lemma encodeURIComponent_ill_formed t :
  forallb code_unit t = true -> well_formed t = false ->
  encodeURIComponent t = Throws URIError.
Proof.
  intros Hunits Hwf. unfold encodeURIComponent.
  match goal with
  | |- bind (map_completion ?f _) _ = _ =>
      enough (H : map_completion f (chars t) = Throws URIError) by now rewrite H
  end.
  induction t as [|u rest Hsingle IH|u v rest Hu Hv IH] using chars_ind.
  - discriminate.
  - cbn [forallb] in Hunits. apply andb_prop in Hunits as [Hunit Hrest].
    rewrite (chars_single _ _ Hsingle). cbn [map_completion codePointAt0].
    destruct (is_surrogate u) eqn:Es; [reflexivity|].
    assert (Hl : is_lead u = false) by (unfold is_surrogate, is_lead in *; lia).
    assert (Ht : is_trail u = false) by (unfold is_surrogate, is_trail in *; lia).
    cbn [well_formed] in Hwf. rewrite Hl, Hunit, Ht in Hwf. cbn [negb andb] in Hwf.
    rewrite (IH Hrest Hwf).
    destruct (uri_unescaped u); reflexivity.
  - cbn [forallb] in Hunits. apply andb_prop in Hunits as [_ Hunits].
    apply andb_prop in Hunits as [_ Hrest].
    cbn [well_formed] in Hwf. rewrite Hu, Hv in Hwf. cbn [andb] in Hwf.
    rewrite (chars_pair _ _ _ Hu Hv). cbn [map_completion codePointAt0].
    rewrite Hu, Hv. cbn [andb].
    pose proof (pair_code_point_range u v Hu Hv) as Hr. unfold pair_code_point in Hr.
    assert (is_surrogate ((u - 55296) * 1024 + (v - 56320) + 65536) = false) as ->
      by (unfold is_surrogate; lia).
    rewrite (IH Hrest Hwf).
    destruct (uri_unescaped _); reflexivity.
Qed.

(** X7: a text with an unpaired surrogate has no UTF-8 form:
    [textToBase64] returns the text "Encoding error" for it, and
    [urlEncode] throws a URIError. *)
Theorem ill_formed_text_is_not_encoded :
  forall t : jsstring,
    forallb code_unit t = true ->
    well_formed t = false ->
    textToBase64 t = Returns (str "Encoding error")
    /\ urlEncode t = Throws URIError.
Proof.
  intros t Hunits Hwf. unfold textToBase64, urlEncode.
  now rewrite (encodeURIComponent_ill_formed t Hunits Hwf).
Qed.

Lemma ill_formed_text_is_not_encoded_witness :
  forallb code_unit (str "A" ++ [0xDC00]) = true
  /\ well_formed (str "A" ++ [0xDC00]) = false
  /\ textToBase64 (str "A" ++ [0xDC00]) = Returns (str "Encoding error")
  /\ urlEncode (str "A" ++ [0xDC00]) = Throws URIError.
Proof.
  split; [reflexivity|]. split; [reflexivity|].
  exact (ill_formed_text_is_not_encoded (str "A" ++ [0xDC00]) eq_refl eq_refl).
Defined.

Lemma atob_ignores_whitespace s : atob (filter not_whitespace s) = atob s.
Proof.
  unfold atob. fold not_whitespace.
  change (fun u => negb (is_ascii_whitespace u)) with not_whitespace.
  now rewrite filter_idempotent.
Qed.

Lemma unpadded_encoding bytes :
  forallb is_byte bytes = true ->
  unpadded (base64_encode bytes) = map base64_char (sextets bytes).
Proof.
  intros Hb. unfold unpadded. rewrite base64_encode_parts, filter_app.
  rewrite filter_all.
  - destruct (padding_cases bytes) as [->|[[-> _]| ->]]; cbn [filter Z.eqb Pos.eqb negb];
      apply app_nil_r.
  - eapply forallb_weaken; [|exact (base64_chars_plain _ (sextets_in_range bytes Hb))].
    intros c Hc. cbn beta in Hc. now apply andb_prop in Hc as [Hc _].
Qed.

(** [atob] does not need the padding. *)
Lemma atob_unpadded bytes :
  forallb is_byte bytes = true ->
  atob (map base64_char (sextets bytes)) = Returns bytes.
Proof.
  intros Hb. pose proof (sextets_in_range bytes Hb) as Hs.
  pose proof (base64_chars_plain _ Hs) as Hplain.
  destruct (encoded_length bytes) as [_ Hbody].
  unfold atob.
  rewrite filter_all
    by (eapply forallb_weaken; [|exact Hplain];
        intros c Hc; cbn beta in Hc; now apply andb_prop in Hc as [_ Hc]).
  assert (Hstrip : strip_padding (map base64_char (sextets bytes))
                   = map base64_char (sextets bytes)).
  { rewrite <- (app_nil_r (map base64_char (sextets bytes))) at 1.
    apply strip_padding_removes; [|now left].
    eapply forallb_weaken; [|exact Hplain].
    intros c Hc. cbn beta in Hc. now apply andb_prop in Hc as [Hc _]. }
  fold (strip_padding (map base64_char (sextets bytes))). rewrite Hstrip.
  assert (Hd2 : (if Nat.eqb (Nat.modulo (length (map base64_char (sextets bytes))) 4) 0
                 then map base64_char (sextets bytes)
                 else map base64_char (sextets bytes))
                = map base64_char (sextets bytes)) by now destruct (Nat.eqb _ _).
  rewrite Hd2, length_map.
  destruct (Nat.eqb (Nat.modulo (length (sextets bytes)) 4) 1) eqn:E;
    [apply Nat.eqb_eq in E; contradiction|].
  now rewrite (base64_values_read _ Hs), (base64_bytes_sextets bytes Hb).
Qed.

Lemma base64ToText_of_bytes t s :
  well_formed t = true ->
  atob s = Returns (TextEncoder_encode t) ->
  base64ToText s = Returns t.
Proof.
  intros Hwf Hs. unfold base64ToText. rewrite Hs. cbn [bind].
  rewrite (escape_percent_text _ (encoded_bytes t Hwf)).
  rewrite (TextEncoder_encode_code_points t Hwf).
  unfold decodeURIComponent.
  rewrite (decode_percent_text _ _ escape_unescaped_ascii (code_points_scalar t Hwf))
    by lia.
  cbn [try_catch]. now rewrite (utf16_of_code_points t Hwf).
Qed.

(** X8: [base64ToText] ignores ASCII white space anywhere in its input
    and does not need the [=] padding: an input that is the Base64 form
    of a well-formed text, with or without its padding, once its white
    space is removed, is decoded to that text. *)
Theorem base64ToText_lenient :
  forall t s : jsstring,
    well_formed t = true ->
    filter not_whitespace s = base64_encode (TextEncoder_encode t)
    \/ filter not_whitespace s = unpadded (base64_encode (TextEncoder_encode t)) ->
    base64ToText s = Returns t.
Proof.
  intros t s Hwf Hs. apply (base64ToText_of_bytes t s Hwf).
  rewrite <- atob_ignores_whitespace.
  destruct Hs as [-> | ->].
  - apply atob_base64_encode, encoded_bytes, Hwf.
  - rewrite unpadded_encoding by apply encoded_bytes, Hwf.
    apply atob_unpadded, encoded_bytes, Hwf.
Qed.

Lemma base64ToText_lenient_witness :
  well_formed (str "Hi") = true
  /\ (filter not_whitespace (str "SG k")
      = base64_encode (TextEncoder_encode (str "Hi"))
      \/ filter not_whitespace (str "SG k")
         = unpadded (base64_encode (TextEncoder_encode (str "Hi"))))
  /\ base64ToText (str "SG k") = Returns (str "Hi").
Proof.
  split; [reflexivity|].
  split; [right; reflexivity|].
  exact (base64ToText_lenient (str "Hi") (str "SG k") eq_refl (or_intror eq_refl)).
Defined.

Lemma all_some_none {A B} (f : A -> option B) l c :
  In c l -> f c = None -> all_some (map f l) = None.
Proof.
  intros Hin Hc. induction l as [|a l IH]; [contradiction|].
  cbn [map all_some]. destruct Hin as [->|Hin]; [now rewrite Hc|].
  destruct (f a); [|reflexivity]. now rewrite (IH Hin).
Qed.

Lemma strip_padding_keeps d c :
  In c d -> c <> 61 -> In c (strip_padding d).
Proof.
  intros Hin Hc. unfold strip_padding.
  destruct (rev d) as [|e1 [|e2 r]] eqn:E; trivial.
  destruct (e1 =? 61) eqn:E1; trivial.
  apply in_rev in Hin. rewrite E in Hin.
  destruct Hin as [->|Hin]; [apply Z.eqb_eq in E1; contradiction|].
  destruct (e2 =? 61) eqn:E2.
  - destruct Hin as [->|Hin]; [apply Z.eqb_eq in E2; contradiction|].
    now apply in_rev in Hin.
  - now apply in_rev in Hin.
Qed.

(** X9: one character that is neither of the Base64 alphabet, nor [=],
    nor ASCII white space, anywhere in the input, makes [base64ToText]
    return the text "Invalid Base64". *)
Theorem base64ToText_rejects_foreign_character :
  forall (s : jsstring) (c : Z),
    In c s ->
    is_base64_char c = false ->
    c <> 61 ->
    is_ascii_whitespace c = false ->
    base64ToText s = Returns (str "Invalid Base64").
Proof.
  intros s c Hin Hc Hpad Hws.
  enough (H : atob s = Throws InvalidCharacterError)
    by (unfold base64ToText; now rewrite H).
  unfold atob.
  set (d1 := filter (fun u => negb (is_ascii_whitespace u)) s).
  assert (Hd1 : In c d1) by (apply filter_In; now rewrite Hws).
  fold (strip_padding d1).
  set (d2 := if Nat.eqb (Nat.modulo (length d1) 4) 0 then strip_padding d1 else d1).
  assert (Hd2 : In c d2).
  { unfold d2. destruct (Nat.eqb _ 0); [now apply strip_padding_keeps|exact Hd1]. }
  destruct (Nat.eqb (Nat.modulo (length d2) 4) 1); [reflexivity|].
  rewrite (all_some_none base64_value d2 c Hd2); [reflexivity|].
  unfold is_base64_char in Hc. now destruct (base64_value c).
Qed.

Lemma base64ToText_rejects_foreign_character_witness :
  In 45 (str "SG-k")
  /\ is_base64_char 45 = false
  /\ 45 <> 61
  /\ is_ascii_whitespace 45 = false
  /\ base64ToText (str "SG-k") = Returns (str "Invalid Base64").
Proof.
  assert (Hin : In 45 (str "SG-k")) by (right; right; left; reflexivity).
  assert (Hneq : 45 <> 61) by discriminate.
  split; [exact Hin|]. split; [reflexivity|]. split; [exact Hneq|].
  split; [reflexivity|].
  exact (base64ToText_rejects_foreign_character (str "SG-k") 45 Hin eq_refl Hneq eq_refl).
Defined.

(** X10: bytes that are not UTF-8 are not replaced by U+FFFD as in
    [hexToText]: when the decoded bytes start with a continuation byte
    (0x80 to 0xBF) or with a byte from 0xF8 on, [base64ToText] returns the
    text "Invalid Base64". *)
Theorem base64ToText_rejects_stray_byte :
  forall (b : Z) (rest : list Z),
    forallb is_byte (b :: rest) = true ->
    is_continuation b = true \/ 0xF8 <= b ->
    base64ToText (base64_encode (b :: rest)) = Returns (str "Invalid Base64").
Proof.
  intros b rest Hbytes Hb. unfold base64ToText.
  rewrite (atob_base64_encode _ Hbytes). cbn [bind].
  rewrite (escape_percent_text _ Hbytes).
  cbn [forallb] in Hbytes. apply andb_prop in Hbytes as [Hbyte _].
  unfold percent_text. cbn [flat_map].
  assert (escape_unescaped b = false) as ->.
  { destruct (escape_unescaped b) eqn:E; [|reflexivity].
    apply escape_unescaped_ascii in E. unfold is_continuation in Hb. lia. }
  unfold decodeURIComponent, percent_byte. cbn [app length].
  rewrite decode_from_escape, (hex_octet_percent b Hbyte).
  unfold is_byte in Hbyte.
  destruct Hb as [Hb|Hb].
  - unfold is_continuation in Hb. unfold leading_ones.
    assert ((b <? 128) = false) as -> by lia.
    assert ((b <? 192) = true) as -> by lia. reflexivity.
  - unfold leading_ones.
    assert ((b <? 128) = false) as -> by lia.
    assert ((b <? 192) = false) as -> by lia.
    assert ((b <? 224) = false) as -> by lia.
    assert ((b <? 240) = false) as -> by lia.
    assert ((b <? 248) = false) as -> by lia. reflexivity.
Qed.

Lemma base64ToText_rejects_stray_byte_witness :
  forallb is_byte [0xFF] = true
  /\ (is_continuation 0xFF = true \/ 0xF8 <= 0xFF)
  /\ base64ToText (base64_encode [0xFF]) = Returns (str "Invalid Base64").
Proof.
  assert (H : is_continuation 0xFF = true \/ 0xF8 <= 0xFF) by (right; discriminate).
  split; [reflexivity|]. split; [exact H|].
  exact (base64ToText_rejects_stray_byte 0xFF [] eq_refl H).
Defined.

(** ** More on percent-encoding *)

Lemma decode_from_plain s : forall fuel,
  forallb not_percent s = true -> (length s < fuel)%nat ->
  decode_from fuel s = Returns s.
Proof.
  induction s as [|c s IH]; intros fuel Hs Hfuel;
    (destruct fuel as [|fuel]; [lia|]); [reflexivity|].
  cbn [forallb] in Hs. apply andb_prop in Hs as [Hc Hs].
  unfold not_percent in Hc.
  rewrite decode_from_kept by lia.
  rewrite IH by (trivial; cbn [length] in Hfuel; lia). reflexivity.
Qed.

(** X11: [urlDecode] returns a text without percent sign as it is,
    unpaired surrogates included. *)
Theorem urlDecode_without_escape :
  forall s : jsstring,
    forallb not_percent s = true -> urlDecode s = Returns s.
Proof.
  intros s Hs. unfold urlDecode, decodeURIComponent.
  rewrite (decode_from_plain s _ Hs) by lia. reflexivity.
Qed.

Lemma urlDecode_without_escape_witness :
  forallb not_percent (str "a b+c") = true
  /\ urlDecode (str "a b+c") = Returns (str "a b+c").
Proof.
  split; [reflexivity|].
  exact (urlDecode_without_escape (str "a b+c") eq_refl).
Defined.

Lemma decode_from_bad_escape (pre rest : jsstring) : forall fuel,
  forallb not_percent pre = true -> bad_escape rest = true ->
  (length (pre ++ 37%Z :: rest) < fuel)%nat ->
  decode_from fuel (pre ++ 37 :: rest) = Throws URIError.
Proof.
  induction pre as [|c pre IH]; intros fuel Hpre Hbad Hfuel;
    (destruct fuel as [|fuel]; [lia|]).
  - cbn [app decode_from Z.eqb Pos.eqb].
    destruct rest as [|h1 [|h2 rest2]]; try reflexivity.
    cbn [bad_escape] in Hbad. now destruct (hex_octet h1 h2).
  - cbn [forallb] in Hpre. apply andb_prop in Hpre as [Hc Hpre].
    unfold not_percent in Hc. cbn [app].
    rewrite decode_from_kept by lia.
    rewrite IH by (trivial; cbn [app length] in Hfuel; lia). reflexivity.
Qed.

(** X12: a percent sign that is not followed by two hexadecimal digits
    makes [urlDecode] return the text "Invalid URL encoding", whatever
    comes after it. *)
Theorem urlDecode_bad_escape :
  forall pre rest : jsstring,
    forallb not_percent pre = true ->
    bad_escape rest = true ->
    urlDecode (pre ++ 37 :: rest) = Returns (str "Invalid URL encoding").
Proof.
  intros pre rest Hpre Hbad. unfold urlDecode, decodeURIComponent.
  rewrite (decode_from_bad_escape pre rest _ Hpre Hbad) by lia. reflexivity.
Qed.

Lemma urlDecode_bad_escape_witness :
  forallb not_percent (str "100") = true
  /\ bad_escape (str " sure") = true
  /\ urlDecode (str "100" ++ 37 :: str " sure") = Returns (str "Invalid URL encoding").
Proof.
  split; [reflexivity|]. split; [reflexivity|].
  exact (urlDecode_bad_escape (str "100") (str " sure") eq_refl eq_refl).
Defined.

Lemma percent_digits_unreserved b : is_byte b = true -> percent_digits_ok b = true.
Proof.
  intros Hb. unfold is_byte in Hb.
  apply (forallb_below 256 percent_digits_ok); [|lia].
  vm_compute. reflexivity.
Qed.

Lemma percent_text_safe bytes :
  forallb is_byte bytes = true ->
  forallb url_safe (percent_text uri_unescaped bytes) = true.
Proof.
  unfold percent_text. induction bytes as [|b bytes IH]; intros H; [reflexivity|].
  cbn [forallb] in H. apply andb_prop in H as [Hb Hbytes].
  cbn [flat_map]. rewrite forallb_app, (IH Hbytes), andb_true_r.
  destruct (uri_unescaped b) eqn:E.
  - cbn [forallb]. unfold url_safe. now rewrite E.
  - pose proof (percent_digits_unreserved b Hb) as Hd. unfold percent_digits_ok in Hd.
    apply andb_prop in Hd as [H1 H2].
    unfold percent_byte. cbn [forallb]. unfold url_safe. rewrite H1, H2. reflexivity.
Qed.

Lemma percent_text_unreserved s :
  forallb uri_unescaped s = true -> percent_text uri_unescaped s = s.
Proof.
  unfold percent_text. induction s as [|u s IH]; intros H; [reflexivity|].
  cbn [forallb] in H. apply andb_prop in H as [Hu Hs].
  cbn [flat_map]. now rewrite Hu, (IH Hs).
Qed.

(** X13: on well-formed text [urlEncode] returns a text made of
    unreserved characters (letters, digits and [- _ . ! ~ * ' ( )]) and
    percent signs only. *)
Theorem urlEncode_alphabet :
  forall t : jsstring,
    well_formed t = true ->
    exists r, urlEncode t = Returns r /\ forallb url_safe r = true.
Proof.
  intros t Hwf. unfold urlEncode.
  rewrite (encodeURIComponent_percent_text t Hwf).
  eexists. split; [reflexivity|].
  apply percent_text_safe, encoded_bytes, Hwf.
Qed.

Lemma urlEncode_alphabet_witness :
  well_formed (str "a b") = true
  /\ exists r, urlEncode (str "a b") = Returns r /\ forallb url_safe r = true.
Proof.
  split; [reflexivity|].
  exact (urlEncode_alphabet (str "a b") eq_refl).
Defined.

Lemma unreserved_plain s : forallb uri_unescaped s = true -> forallb plain s = true.
Proof.
  apply forallb_weaken. intros u Hu.
  unfold uri_unescaped, is_alnum in Hu. cbn [existsb] in Hu. unfold plain. lia.
Qed.

(** X14: a text made of unreserved characters only is returned unchanged
    by [urlEncode], and [urlDecode] returns it unchanged as well. *)
Theorem urlEncode_unreserved :
  forall t : jsstring,
    forallb uri_unescaped t = true ->
    urlEncode t = Returns t /\ urlDecode t = Returns t.
Proof.
  intros t Ht. split.
  - unfold urlEncode, encodeURIComponent.
    rewrite (chars_plain t (unreserved_plain t Ht)).
    induction t as [|u t IH]; [reflexivity|].
    cbn [forallb] in Ht. apply andb_prop in Ht as [Hu Ht].
    cbn [map map_completion codePointAt0].
    assert (is_surrogate u = false) as ->.
    { apply uri_unescaped_ascii in Hu. unfold is_surrogate. lia. }
    rewrite Hu. cbn [bind].
    specialize (IH Ht).
    destruct (map_completion _ (map (fun u0 => [u0]) t)) as [parts| |];
      cbn [bind] in *; try discriminate.
    inversion IH as [IH']. cbn [concat app]. now rewrite IH'.
  - unfold urlDecode, decodeURIComponent.
    rewrite decode_from_plain; [reflexivity| |lia].
    revert Ht. apply forallb_weaken. intros u Hu.
    apply uri_unescaped_ascii in Hu. unfold not_percent. lia.
Qed.

Lemma urlEncode_unreserved_witness :
  forallb uri_unescaped (str "a-b_c.d") = true
  /\ urlEncode (str "a-b_c.d") = Returns (str "a-b_c.d")
  /\ urlDecode (str "a-b_c.d") = Returns (str "a-b_c.d").
Proof.
  split; [reflexivity|].
  exact (urlEncode_unreserved (str "a-b_c.d") eq_refl).
Defined.

(** ** The Unicode inspector *)

Lemma read_radix_hex_upper d s a any :
  0 <= d < 16 ->
  read_radix 16 (ascii_upper (digit_char d) :: s) a any = read_radix 16 s (a * 16 + d) true.
Proof.
  intros Hd. cbn [read_radix]. unfold digit_char, digit_value, ascii_upper.
  destruct (d <? 10) eqn:E.
  - assert ((97 <=? 48 + d) && (48 + d <=? 122) = false) as -> by lia.
    assert ((48 <=? 48 + d) && (48 + d <=? 57) = true) as -> by lia.
    replace (48 + d - 48) with d by lia.
    now assert ((d <? 16) = true) as -> by lia.
  - assert ((97 <=? 87 + d) && (87 + d <=? 122) = true) as -> by lia.
    assert ((48 <=? 87 + d - 32) && (87 + d - 32 <=? 57) = false) as -> by lia.
    assert ((97 <=? 87 + d - 32) && (87 + d - 32 <=? 122) = false) as -> by lia.
    assert ((65 <=? 87 + d - 32) && (87 + d - 32 <=? 90) = true) as -> by lia.
    replace (87 + d - 32 - 55) with d by lia.
    now assert ((d <? 16) = true) as -> by lia.
Qed.

Lemma upper_hex_digit_char d : 0 <= d < 16 -> is_upper_hex (ascii_upper (digit_char d)) = true.
Proof.
  intros Hd. unfold is_upper_hex, ascii_upper, digit_char.
  destruct (d <? 10) eqn:E.
  - assert ((97 <=? 48 + d) && (48 + d <=? 122) = false) as -> by lia. lia.
  - assert ((97 <=? 87 + d) && (87 + d <=? 122) = true) as -> by lia. lia.
Qed.

(** The digits [toString(16)] writes, uppercased, are read back by
    [parseInt]. *)
Lemma digits_from_hex fuel : forall n acc,
  0 <= n < 16 ^ Z.of_nat (S fuel) ->
  exists ds,
    digits_from (S fuel) 16 n acc = ds ++ acc
    /\ ds <> []
    /\ forallb is_upper_hex (map ascii_upper ds) = true
    /\ forall a any rest,
        read_radix 16 (map ascii_upper ds ++ rest) a any
        = read_radix 16 rest (a * 16 ^ Z.of_nat (length ds) + n) true.
Proof.
  induction fuel as [|fuel IH]; intros n acc Hn.
  - change (16 ^ Z.of_nat 1) with 16 in Hn.
    exists [digit_char n]. cbn [digits_from]. assert ((n <? 16) = true) as -> by lia.
    repeat split; [discriminate| |].
    + cbn [map forallb]. now rewrite upper_hex_digit_char by lia.
    + intros a any rest. cbn [map app length]. rewrite read_radix_hex_upper by lia.
      f_equal.
  - cbn [digits_from]. fold (digits_from (S fuel)).
    destruct (n <? 16) eqn:E.
    + exists [digit_char n]. repeat split; [discriminate| |].
      * cbn [map forallb]. now rewrite upper_hex_digit_char by lia.
      * intros a any rest. cbn [map app length]. rewrite read_radix_hex_upper by lia.
        f_equal.
    + assert (Hpart : 0 <= n / 16 < 16 ^ Z.of_nat (S fuel)).
      { rewrite (Nat2Z.inj_succ (S fuel)), Z.pow_succ_r in Hn by lia.
        Z.to_euclidean_division_equations; lia. }
      destruct (IH (n / 16) (digit_char (n mod 16) :: acc) Hpart)
        as (ds & Hds & Hne & Hhex & Hread).
      exists (ds ++ [digit_char (n mod 16)]). repeat split.
      * change (digits_from (S fuel) 16 (n / 16) (digit_char (n mod 16) :: acc)
                = (ds ++ [digit_char (n mod 16)]) ++ acc).
        now rewrite Hds, <- app_assoc.
      * now destruct ds.
      * rewrite map_app, forallb_app, Hhex. cbn [map forallb andb].
        now rewrite upper_hex_digit_char by (Z.to_euclidean_division_equations; lia).
      * intros a any rest. rewrite map_app, <- app_assoc, Hread. cbn [map app].
        rewrite read_radix_hex_upper by (Z.to_euclidean_division_equations; lia).
        f_equal. rewrite length_app. cbn [length].
        replace (Z.of_nat (length ds + 1)) with (Z.succ (Z.of_nat (length ds))) by lia.
        rewrite Z.pow_succ_r by lia.
        Z.to_euclidean_division_equations; nia.
Qed.

Lemma number_toString_hex n :
  0 <= n ->
  exists ds,
    number_toString 16 n = ds
    /\ ds <> []
    /\ forallb is_upper_hex (map ascii_upper ds) = true
    /\ forall a any rest,
        read_radix 16 (map ascii_upper ds ++ rest) a any
        = read_radix 16 rest (a * 16 ^ Z.of_nat (length ds) + n) true.
Proof.
  intros Hn. unfold number_toString. assert ((n <? 0) = false) as -> by lia.
  destruct (digits_from_hex (Z.to_nat (Z.log2 n)) n []) as (ds & Hds & H).
  - rewrite Nat2Z.inj_succ, Z2Nat.id by apply Z.log2_nonneg.
    split; [lia|].
    apply Z.lt_le_trans with (2 ^ Z.succ (Z.log2 n)).
    + destruct (Z.eq_dec n 0) as [->|Hpos]; [cbn; lia|].
      pose proof (Z.log2_spec n). lia.
    + apply Z.pow_le_mono_l. pose proof (Z.log2_nonneg n). lia.
  - exists ds. rewrite app_nil_r in Hds. now split.
Qed.

Lemma read_radix_hex_zeros k : forall rest any,
  exists any', read_radix 16 (repeat 48 k ++ rest) 0 any = read_radix 16 rest 0 any'.
Proof.
  induction k as [|k IH]; intros rest any; [now exists any|].
  cbn [repeat app]. change 48 with (ascii_upper (digit_char 0)) at 1.
  rewrite read_radix_hex_upper by lia. apply IH.
Qed.

(** The digits of a label: at least four, uppercase, and [parseInt] reads
    the code point back from them. *)
Lemma label_digits_read cp :
  0 <= cp ->
  (4 <= length (label_digits cp))%nat
  /\ forallb is_upper_hex (label_digits cp) = true
  /\ parseInt (label_digits cp) 16 = Some cp.
Proof.
  intros Hcp. unfold label_digits.
  destruct (number_toString_hex cp Hcp) as (ds & -> & Hne & Hhex & Hread).
  set (us := map ascii_upper ds) in *.
  assert (Hform : exists k, padStart 4 (str "0") us = repeat 48 k ++ us
                            /\ (4 <= k + length us)%nat).
  { unfold padStart. cbn [str nonempty negb]. rewrite orb_false_r.
    destruct (4 <=? Z.of_nat (length us)) eqn:E; [exists 0%nat; split; [reflexivity|lia]|].
    exists (Z.to_nat (4 - Z.of_nat (length us))).
    change (String.list_ascii_of_string "0") with ["0"%char].
    cbn [map]. change (Z.of_N (N_of_ascii "0")) with 48.
    rewrite cycle_fill_zeros by auto. split; [reflexivity|lia]. }
  destruct Hform as (k & -> & Hlen).
  split; [now rewrite length_app, repeat_length|].
  assert (Hall : forallb is_upper_hex (repeat 48 k ++ us) = true).
  { rewrite forallb_app, Hhex, andb_true_r. clear.
    induction k; cbn [repeat forallb]; auto. }
  split; [exact Hall|].
  assert (Hus : us <> []) by (unfold us; now destruct ds).
  destruct (repeat 48 k ++ us) as [|d y] eqn:Edy;
    [apply app_eq_nil in Edy as [_ Edy]; contradiction|].
  cbn [forallb] in Hall. apply andb_prop in Hall as [Hd Hy].
  unfold parseInt.
  assert (Hsp : is_space d = false)
    by (unfold is_upper_hex in Hd; unfold is_space; lia).
  cbn [trim_start]. rewrite Hsp.
  assert ((d =? 45) = false) as -> by (unfold is_upper_hex in Hd; lia).
  assert ((d =? 43) = false) as -> by (unfold is_upper_hex in Hd; lia).
  cbn [Z.eqb Z.ltb Z.compare Pos.compare Pos.compare_cont negb andb orb Pos.eqb].
  assert (Hprefix :
    match y with
    | [] => (16, d :: y)
    | x :: t => if (d =? 48) && ((x =? 120) || (x =? 88)) then (16, t) else (16, d :: y)
    end = (16, d :: y)).
  { destruct y as [|x t]; [reflexivity|].
    cbn [forallb] in Hy. apply andb_prop in Hy as [Hx _].
    assert ((x =? 120) || (x =? 88) = false) as ->
      by (unfold is_upper_hex in Hx; lia).
    now rewrite andb_false_r. }
  rewrite Hprefix, <- Edy.
  destruct (read_radix_hex_zeros k us false) as [any' ->].
  rewrite <- (app_nil_r us), Hread. cbn [read_radix].
  f_equal. lia.
Qed.

Lemma concat_chars t : concat (chars t) = t.
Proof.
  induction t as [|u rest Hsingle IH|u v rest Hu Hv IH] using chars_ind.
  - reflexivity.
  - rewrite (chars_single _ _ Hsingle). cbn [concat app]. now rewrite IH.
  - rewrite (chars_pair _ _ _ Hu Hv). cbn [concat app]. now rewrite IH.
Qed.

Lemma inspectUnicode_map {host : Host} t :
  inspectUnicode t
  = Returns (map (fun c => mkRecord c (cp_of c) (str "U+" ++ label_digits (cp_of c)))
               (chars t)).
Proof.
  unfold inspectUnicode. pose proof (chars_elements t) as Hall.
  induction Hall as [|c l [cp Hcp] _ IH]; [reflexivity|].
  cbn [map_completion map]. rewrite Hcp. cbn [bind]. rewrite IH. cbn [bind].
  assert (Hc : cp_of c = cp) by (unfold cp_of; now rewrite Hcp).
  rewrite Hc. unfold label_digits.
  now rewrite (toUpperCase_plain _ (number_toString_16_plain cp)).
Qed.

(** X15: [inspectUnicode] returns one record per code point of the text,
    in order: the characters of the records put together are the text,
    the numbers are its code points, and each label is "U+" followed by at
    least four uppercase hexadecimal digits from which [parseInt] reads
    the number back. *)
Theorem inspectUnicode_records :
  forall (host : Host) (t : jsstring),
    forallb code_unit t = true ->
    exists rs,
      @inspectUnicode host t = Returns rs
      /\ map ch rs = chars t
      /\ concat (map ch rs) = t
      /\ map dec rs = code_points t
      /\ Forall
           (fun r =>
              hex r = str "U+" ++ label_digits (dec r)
              /\ (4 <= length (label_digits (dec r)))%nat
              /\ forallb is_upper_hex (label_digits (dec r)) = true
              /\ parseInt (label_digits (dec r)) 16 = Some (dec r))
           rs.
Proof.
  intros host t Hunits. eexists. split; [apply inspectUnicode_map|].
  rewrite !map_map. cbn [ch dec hex].
  split; [apply map_id|]. split; [rewrite map_id; apply concat_chars|].
  split; [reflexivity|].
  apply Forall_forall. intros r Hr. apply in_map_iff in Hr as (c & <- & Hc).
  cbn [ch dec hex]. split; [reflexivity|].
  apply label_digits_read.
  destruct (code_points_of_units t Hunits) as [Hrange _].
  rewrite forallb_forall in Hrange.
  assert (Hin : In (cp_of c) (code_points t)) by (apply in_map; exact Hc).
  apply Hrange in Hin. lia.
Qed.

Lemma inspectUnicode_records_witness :
  forallb code_unit (str "Hi" ++ grinning_face) = true
  /\ exists rs,
       @inspectUnicode plain_host (str "Hi" ++ grinning_face) = Returns rs
       /\ map ch rs = chars (str "Hi" ++ grinning_face)
       /\ concat (map ch rs) = str "Hi" ++ grinning_face
       /\ map dec rs = code_points (str "Hi" ++ grinning_face)
       /\ Forall
            (fun r =>
               hex r = str "U+" ++ label_digits (dec r)
               /\ (4 <= length (label_digits (dec r)))%nat
               /\ forallb is_upper_hex (label_digits (dec r)) = true
               /\ parseInt (label_digits (dec r)) 16 = Some (dec r))
            rs.
Proof.
  split; [reflexivity|].
  exact (inspectUnicode_records plain_host (str "Hi" ++ grinning_face) eq_refl).
Defined.

(** ** Binary words for any group size *)

Lemma padStart_zeros target ds :
  exists k,
    padStart target (str "0") ds = repeat 48 k ++ ds
    /\ Z.of_nat (k + length ds) = Z.max target (Z.of_nat (length ds)).
Proof.
  unfold padStart. cbn [str nonempty negb]. rewrite orb_false_r.
  destruct (target <=? Z.of_nat (length ds)) eqn:E.
  - exists 0%nat. split; [reflexivity|]. cbn [Nat.add]. lia.
  - exists (Z.to_nat (target - Z.of_nat (length ds))).
    change (String.list_ascii_of_string "0") with ["0"%char].
    cbn [map]. change (Z.of_N (N_of_ascii "0")) with 48.
    rewrite cycle_fill_zeros by auto. split; [reflexivity|lia].
Qed.

Lemma ceil_to_multiple_spec len g :
  0 < g -> 0 <= len ->
  len <= ceil_to_multiple len g /\ ceil_to_multiple len g mod g = 0.
Proof.
  intros Hg Hlen. unfold ceil_to_multiple. split.
  - Z.to_euclidean_division_equations; nia.
  - apply Z.mod_mul. lia.
Qed.

(** The word written for a code point is made of binary digits, its
    length agrees with the group size, and [parseInt] reads the code point
    back from it. *)
Lemma binary_group_read groupSize cp :
  0 <= cp ->
  binary_word (binary_group groupSize cp) = true
  /\ fits_group groupSize (binary_group groupSize cp)
  /\ parseInt (binary_group groupSize cp) 2 = Some cp.
Proof.
  intros Hcp. unfold binary_group.
  destruct (number_toString_binary cp Hcp) as (ds & -> & Hword & Hread).
  assert (Hform : exists k,
    match groupSize with
    | Some g =>
        if 0 <? g then padStart (ceil_to_multiple (Z.of_nat (length ds)) g) (str "0") ds
        else ds
    | None => ds
    end = repeat 48 k ++ ds
    /\ fits_group groupSize (repeat 48 k ++ ds)).
  { destruct groupSize as [g|]; [|now exists 0%nat].
    destruct (0 <? g) eqn:E.
    - destruct (padStart_zeros (ceil_to_multiple (Z.of_nat (length ds)) g) ds)
        as (k & Hk & Hlen).
      exists k. split; [exact Hk|]. cbn [fits_group]. intros Hg.
      destruct (ceil_to_multiple_spec (Z.of_nat (length ds)) g Hg ltac:(lia)) as [Hle Hmod].
      rewrite length_app, repeat_length, Hlen, Z.max_l by lia. exact Hmod.
    - exists 0%nat. split; [reflexivity|]. cbn [fits_group]. lia. }
  destruct Hform as (k & -> & Hfits).
  pose proof (binary_word_zeros k ds Hword) as Hw.
  split; [exact Hw|]. split; [exact Hfits|].
  destruct (binary_word_head _ Hw) as (d & y & Hdy & Hd).
  unfold parseInt. rewrite Hdy.
  assert (Hsp : is_space d = false)
    by (unfold binary_digit in Hd; unfold is_space; lia).
  cbn [trim_start]. rewrite Hsp.
  assert ((d =? 45) = false) as -> by (unfold binary_digit in Hd; lia).
  assert ((d =? 43) = false) as -> by (unfold binary_digit in Hd; lia).
  cbn [Z.eqb Z.ltb Z.compare Pos.compare Pos.compare_cont negb andb orb].
  rewrite <- Hdy. change ((2 =? 16)%positive) with false. cbn iota.
  destruct (read_radix_zeros k ds false) as [any' ->].
  rewrite <- (app_nil_r ds), Hread. cbn [read_radix].
  f_equal. lia.
Qed.

Lemma join_length_In (sep : jsstring) parts (w : jsstring) :
  In w parts -> (length w <= length (join sep parts))%nat.
Proof.
  induction parts as [|p rest IH]; [contradiction|]. intros Hin.
  destruct rest as [|q rest'].
  - destruct Hin as [->|[]]. cbn [join]. lia.
  - rewrite join_cons, !length_app.
    destruct Hin as [->|Hin]; [lia|]. specialize (IH Hin). lia.
Qed.

(** A word that is no longer than the longest string is padded. *)
Lemma binary_group_padded {host : Host} g cp :
  0 < g ->
  string_fits (binary_group (Some g) cp) = true ->
  padStart_limited
    (ceil_to_multiple (Z.of_nat (length (number_toString 2 cp))) g) (str "0")
    (number_toString 2 cp)
  = Returns (binary_group (Some g) cp).
Proof.
  intros Hg Hfits. unfold string_fits, binary_group in Hfits.
  unfold binary_group. assert ((0 <? g) = true) as Hpos by lia. rewrite Hpos in *.
  set (bin := number_toString 2 cp) in *.
  set (target := ceil_to_multiple (Z.of_nat (length bin)) g) in *.
  destruct (padStart_zeros target bin) as (k & Hk & Hlen).
  rewrite Hk, length_app, repeat_length in Hfits.
  pose proof max_string_length_bounds as Hmax. clearbody target bin.
  apply Z.leb_le in Hfits. clear Hk. pose proof (Z.le_max_l target (Z.of_nat (length bin))).
  unfold padStart_limited. rewrite Z.min_l by lia.
  assert ((max_string_length <? target) = false) as -> by lia.
  now rewrite andb_false_r.
Qed.

Lemma textToBinary_groups {host : Host} t groupSize delimiter :
  string_fits (join delimiter (map (binary_group groupSize) (code_points t))) = true ->
  textToBinary t groupSize delimiter false
  = Returns (join delimiter (map (binary_group groupSize) (code_points t))).
Proof.
  intros Hfits. unfold textToBinary.
  match goal with
  | |- bind (map_completion ?f _) _ = _ =>
      assert (Hparts : map_completion f (chars t)
                       = Returns (map (binary_group groupSize) (code_points t)))
  end.
  { rewrite (map_completion_code_points
               (fun code =>
                  match groupSize with
                  | Some g =>
                      if 0 <? g
                      then padStart_limited
                             (ceil_to_multiple (Z.of_nat (length (number_toString 2 code))) g)
                             (str "0") (number_toString 2 code)
                      else Returns (number_toString 2 code)
                  | None => Returns (number_toString 2 code)
                  end)).
    apply map_completion_each. apply Forall_forall. intros cp Hin.
    destruct groupSize as [g|]; [|reflexivity].
    destruct (0 <? g) eqn:Hg; [|unfold binary_group; now rewrite Hg].
    apply binary_group_padded; [lia|].
    unfold string_fits in *.
    pose proof (join_length_In delimiter _ _ (in_map (binary_group (Some g)) _ _ Hin)).
    lia. }
  now rewrite Hparts.
Qed.

Lemma code_points_nonnegative t :
  forallb code_unit t = true -> Forall (fun cp => 0 <= cp <= 0x10FFFF) (code_points t).
Proof.
  intros Hunits. destruct (code_points_of_units t Hunits) as [Hrange _].
  apply Forall_forall. intros cp Hin. rewrite forallb_forall in Hrange.
  apply Hrange in Hin. lia.
Qed.

(** X16: whenever the output is no longer than the longest string of the
    engine, [textToBinary] writes one word of binary digits per code point
    of the text, joined by the delimiter; with a positive group size the
    length of every word is a multiple of it, and [parseInt] reads the
    code point back from the word. *)
Theorem textToBinary_words_shape :
  forall (host : Host) (t delimiter : jsstring) (groupSize : number),
    forallb code_unit t = true ->
    string_fits (join delimiter (map (binary_group groupSize) (code_points t))) = true ->
    exists words,
      @textToBinary host t groupSize delimiter false = Returns (join delimiter words)
      /\ length words = length (code_points t)
      /\ Forall (fun w => binary_word w = true /\ fits_group groupSize w) words
      /\ map (fun w => parseInt w 2) words = map Some (code_points t).
Proof.
  intros host t delimiter groupSize Hunits Hfits.
  exists (map (binary_group groupSize) (code_points t)).
  split; [now apply textToBinary_groups|]. split; [apply length_map|].
  pose proof (code_points_nonnegative t Hunits) as Hcps.
  split.
  - apply Forall_forall. intros w Hw. apply in_map_iff in Hw as (cp & <- & Hin).
    rewrite Forall_forall in Hcps. apply Hcps in Hin.
    destruct (binary_group_read groupSize cp ltac:(lia)) as (H1 & H2 & _). now split.
  - rewrite map_map. apply map_ext_in. intros cp Hin.
    rewrite Forall_forall in Hcps. apply Hcps in Hin.
    now destruct (binary_group_read groupSize cp ltac:(lia)) as (_ & _ & H).
Qed.

Lemma textToBinary_words_shape_witness :
  forallb code_unit (str "Hi") = true
  /\ @string_fits plain_host
       (join (str ", ") (map (binary_group (Some 4)) (code_points (str "Hi")))) = true
  /\ exists words,
       @textToBinary plain_host (str "Hi") (Some 4) (str ", ") false
       = Returns (join (str ", ") words)
       /\ length words = length (code_points (str "Hi"))
       /\ Forall (fun w => binary_word w = true /\ fits_group (Some 4) w) words
       /\ map (fun w => parseInt w 2) words = map Some (code_points (str "Hi")).
Proof.
  split; [reflexivity|]. split; [reflexivity|].
  exact (textToBinary_words_shape plain_host (str "Hi") (str ", ") (Some 4) eq_refl eq_refl).
Defined.

(** ** Any delimiter between the binary words *)

(** What [replace(/[^01\s]/g, " ")] does to a character. *)
Lemma replace_all_from_blank negated items fuel done s :
  (length s < fuel)%nat ->
  replace_all_from fuel (Class negated items) (str " ") done s
  = map (fun u => if class_has negated items u then 32 else u) s.
Proof.
  revert done s. induction fuel as [|f IH]; intros done s Hlen; [lia|].
  destruct (class_split negated items s) as [Hnone | (pre & u & post & -> & Hpre & Hu)].
  - cbn [replace_all_from].
    rewrite (exec_never_matches _ _ _ (class_never_matches _ _ _ Hnone)).
    rewrite <- (map_id s) at 1. apply map_ext_in. intros u Hu.
    rewrite forallb_forall in Hnone. apply Hnone in Hu.
    apply negb_true_iff in Hu. now rewrite Hu.
  - cbn [replace_all_from]. rewrite (exec_class_found _ _ _ _ _ _ Hpre Hu).
    rewrite length_tail_neq.
    change (get_substitution ?m ?b ?a (str " ")) with [32].
    rewrite map_app. cbn [map]. rewrite Hu.
    rewrite IH by (rewrite length_app in Hlen; cbn [length] in Hlen; lia).
    cbn [rev app]. rewrite <- app_assoc. cbn [app]. f_equal.
    rewrite <- (map_id pre) at 1. apply map_ext_in. intros c Hc.
    rewrite forallb_forall in Hpre. apply Hpre in Hc.
    apply negb_true_iff in Hc. now rewrite Hc.
Qed.

Lemma map_join (f : Z -> Z) sep parts :
  map f (join sep parts) = join (map f sep) (map (map f) parts).
Proof.
  induction parts as [|p [|q rest] IH]; [reflexivity|reflexivity|].
  rewrite join_cons. cbn [map]. rewrite join_cons, !map_app. now rewrite IH.
Qed.

Lemma join_first sep words :
  words <> [] -> Forall (fun w => binary_word w = true) words ->
  exists d y, join sep words = d :: y /\ binary_digit d = true.
Proof.
  intros Hne Hall. destruct words as [|p rest]; [contradiction|].
  inversion Hall as [|? ? Hp _]; subst.
  destruct (binary_word_head p Hp) as (d & y & -> & Hd).
  destruct rest; [now exists d, y|].
  rewrite join_cons. cbn [app]. eauto.
Qed.

Lemma join_end sep words :
  words <> [] -> Forall (fun w => binary_word w = true) words ->
  exists y d, join sep words = y ++ [d] /\ binary_digit d = true.
Proof.
  induction words as [|p [|q rest] IH]; intros Hne Hall; [contradiction| |].
  - inversion Hall as [|? ? Hp _]; subst. cbn [join].
    unfold binary_word in Hp. apply andb_prop in Hp as [Hp Hds].
    destruct (exists_last (l := p)) as (y & d & ->); [now destruct p|].
    rewrite forallb_app in Hds. apply andb_prop in Hds as [_ Hd].
    cbn [forallb] in Hd. rewrite andb_true_r in Hd. eauto.
  - inversion Hall as [|? ? _ Hrest]; subst.
    destruct (IH ltac:(discriminate) Hrest) as (y & d & Hy & Hd).
    rewrite join_cons, Hy. exists (p ++ sep ++ y), d.
    now rewrite <- !app_assoc.
Qed.

Lemma trim_joined sep words :
  Forall (fun w => binary_word w = true) words ->
  trim (join sep words) = join sep words.
Proof.
  intros Hall. destruct words as [|p rest] eqn:E; [reflexivity|]. rewrite <- E in *.
  assert (Hne : words <> []) by (rewrite E; discriminate).
  destruct (join_first sep words Hne Hall) as (d & y & Hhead & Hd).
  destruct (join_end sep words Hne Hall) as (y' & d' & Hlast & Hd').
  unfold trim. rewrite Hhead, (trim_start_kept d y (binary_digit_not_space d Hd)).
  rewrite <- Hhead, Hlast, rev_app_distr. cbn [rev app].
  rewrite (trim_start_kept d' _ (binary_digit_not_space d' Hd')).
  change (d' :: rev y') with (rev [d'] ++ rev y').
  now rewrite <- rev_app_distr, rev_involutive.
Qed.

(** [\s+] takes a whole run of white space in front of a character that
    is not white space. *)
Lemma space_run_greedy ws : forall fuel lo d y,
  forallb is_space ws = true -> is_space d = false ->
  (length ws < fuel)%nat ->
  (lo = 0 \/ (lo = 1 /\ ws <> []))%nat ->
  hd_error (repeat_matcher (matches (Class false [Space])) fuel lo None (ws ++ d :: y))
  = Some (d :: y).
Proof.
  induction ws as [|w ws IH]; intros fuel lo d y Hws Hd Hfuel Hlo;
    (destruct fuel as [|fuel]; [lia|]); rewrite repeat_matcher_unbounded; cbv zeta.
  - destruct Hlo as [->|[_ Hne]]; [|contradiction].
    cbn [app]. rewrite matches_space_cons, Hd. reflexivity.
  - cbn [forallb] in Hws. apply andb_prop in Hws as [Hw Hws].
    cbn [app]. rewrite matches_space_cons, Hw.
    cbn [flat_map]. rewrite app_nil_r.
    assert (Hlen : Nat.eqb (length (ws ++ d :: y)) (length (w :: ws ++ d :: y)) = false)
      by apply length_tail_neq.
    rewrite Hlen, andb_false_r.
    assert (Hrest : hd_error (repeat_matcher (matches (Class false [Space])) fuel 0 None
                                (ws ++ d :: y)) = Some (d :: y)).
    { apply IH; trivial; [cbn [length] in Hfuel; lia|now left]. }
    destruct Hlo as [->|[-> _]]; cbn [Nat.eqb Nat.pred].
    + destruct (repeat_matcher _ fuel 0 None (ws ++ d :: y)); [discriminate|exact Hrest].
    + exact Hrest.
Qed.

Lemma space_run_takes_run ws d y :
  ws <> [] -> forallb is_space ws = true -> is_space d = false ->
  match_here (pattern space_run) (ws ++ d :: y) = Some (d :: y).
Proof.
  intros Hne Hws Hd. unfold match_here. cbn [pattern space_run].
  rewrite matches_repeat. apply space_run_greedy; trivial.
  - rewrite length_app. cbn [length]. lia.
  - now right.
Qed.

Lemma exec_here r skipped x y :
  match_here r x = Some y -> exec r skipped x = Some (rev skipped, x, y).
Proof. intros H. destruct x; cbn [exec]; now rewrite H. Qed.

Lemma matched_run (ws rest : jsstring) :
  matched_text (ws ++ rest) rest = ws.
Proof.
  unfold matched_text. rewrite length_app.
  replace (length ws + length rest - length rest)%nat with (length ws) by lia.
  rewrite firstn_app, Nat.sub_diag, firstn_all. cbn [firstn]. apply app_nil_r.
Qed.

(** Collapsing the runs of white space turns every delimiter made of
    white space into a single space. *)
Lemma space_run_joined ws words : forall fuel done,
  ws <> [] -> forallb is_space ws = true ->
  Forall (fun w => binary_word w = true) words ->
  (length (join ws words) < fuel)%nat ->
  replace_all_from fuel (pattern space_run) (str " ") done (join ws words)
  = join (str " ") words.
Proof.
  intros fuel done Hne Hws. revert fuel done.
  induction words as [|p [|q rest] IH]; intros fuel done Hall Hfuel;
    (destruct fuel as [|fuel]; [lia|]).
  - reflexivity.
  - inversion Hall as [|? ? Hp _]; subst. cbn [join replace_all_from].
    pose proof (exec_skips_word (pattern space_run) p [] [] space_run_or_digit
                  (binary_word_digits p Hp)) as Hskip.
    rewrite app_nil_r in Hskip. rewrite Hskip.
    cbn [exec]. now rewrite space_run_fails_at_end.
  - inversion Hall as [|? ? Hp Hrest]; subst.
    destruct (join_first ws (q :: rest) ltac:(discriminate) Hrest)
      as (d & y & Hhead & Hd).
    rewrite !join_cons in Hfuel |- *. rewrite Hhead in Hfuel |- *.
    cbn [replace_all_from].
    rewrite (exec_skips_word _ p [] _ space_run_or_digit (binary_word_digits p Hp)).
    rewrite (exec_here _ _ _ _
               (space_run_takes_run ws d y Hne Hws (binary_digit_not_space d Hd))).
    rewrite app_nil_r, rev_involutive.
    assert (Nat.eqb (length (d :: y)) (length (ws ++ d :: y)) = false) as ->
      by (apply Nat.eqb_neq; rewrite length_app; destruct ws; [contradiction|];
          cbn [length]; lia).
    rewrite matched_run.
    change (get_substitution ws (rev done ++ p) (d :: y) (str " ")) with [32].
    rewrite <- Hhead. rewrite IH; [now rewrite <- app_assoc|exact Hrest|].
    rewrite Hhead. rewrite !length_app in Hfuel.
    assert (1 <= length ws)%nat by (destruct ws; [contradiction|cbn [length]; lia]).
    cbn [length] in *. lia.
Qed.

(** The cleaning steps of [binaryToText] turn any delimiter without
    binary digits into a single space. *)
Lemma cleaned_joined delimiter words :
  delimiter <> [] ->
  forallb not_binary_digit delimiter = true ->
  Forall (fun w => binary_word w = true) words ->
  replace space_run (str " ") (replace not_binary (str " ") (trim (join delimiter words)))
  = join (str " ") words.
Proof.
  intros Hne Hd Hwords. rewrite (trim_joined _ _ Hwords).
  set (blank := fun u => if class_has true [One 48; One 49; Space] u then 32 else u).
  assert (Hblank : replace not_binary (str " ") (join delimiter words)
                   = join (map blank delimiter) words).
  { unfold replace, not_binary. cbn [global pattern]. unfold replace_all.
    rewrite replace_all_from_blank by lia. fold blank. rewrite map_join. f_equal.
    rewrite <- (map_id words) at 2. apply map_ext_in. intros w Hw.
    rewrite Forall_forall in Hwords. apply Hwords, binary_word_digits in Hw.
    rewrite <- (map_id w) at 2. apply map_ext_in. intros u Hu.
    rewrite forallb_forall in Hw. apply Hw in Hu.
    unfold blank, class_has, binary_digit in *. cbn [existsb item_matches].
    destruct ((u =? 48) || ((u =? 49) || (is_space u || false))) eqn:E; [reflexivity|].
    lia. }
  rewrite Hblank. unfold replace, replace_all. cbn [global space_run].
  apply space_run_joined; trivial; [now destruct delimiter| |lia].
  rewrite forallb_forall. intros c Hc. apply in_map_iff in Hc as (u & <- & Hu).
  rewrite forallb_forall in Hd. apply Hd in Hu.
  unfold not_binary_digit, binary_digit in Hu.
  unfold blank, class_has. cbn [existsb item_matches].
  destruct (is_space u) eqn:Es.
  - assert ((u =? 48) || ((u =? 49) || (true || false)) = true) as -> by lia.
    exact Es.
  - assert ((u =? 48) || ((u =? 49) || (false || false)) = false) as -> by lia.
    reflexivity.
Qed.

Lemma binary_groups_read groupSize cps :
  Forall (fun cp => 0 <= cp <= 0x10FFFF) cps ->
  Forall (fun w => binary_word w = true) (map (binary_group groupSize) cps)
  /\ map_completion (fun b => fromCodePoint (parseInt b 2)) (map (binary_group groupSize) cps)
     = Returns (map utf16_of_code_point cps).
Proof.
  induction 1 as [|cp cps Hcp _ [IH1 IH2]]; [split; [constructor|reflexivity]|].
  destruct (binary_group_read groupSize cp ltac:(lia)) as (Hw & _ & Hread).
  cbn [map map_completion]. split; [now constructor|].
  rewrite Hread. cbn [fromCodePoint].
  assert ((0 <=? cp) && (cp <=? 1114111) = true) as -> by lia.
  cbn [bind]. now rewrite IH2.
Qed.

(** [binaryToText] reads the words back, whatever delimiter without
    binary digits stands between them. *)
Lemma binaryToText_joined groupSize delimiter cps :
  delimiter <> [] ->
  forallb not_binary_digit delimiter = true ->
  Forall (fun cp => 0 <= cp <= 0x10FFFF) cps ->
  binaryToText (join delimiter (map (binary_group groupSize) cps))
  = Returns (flat_map utf16_of_code_point cps).
Proof.
  intros Hne Hd Hcps.
  destruct (binary_groups_read groupSize cps Hcps) as [Hwords Hread].
  unfold binaryToText. rewrite (cleaned_joined _ _ Hne Hd Hwords).
  destruct cps as [|cp cps]; [reflexivity|].
  set (words := map (binary_group groupSize) (cp :: cps)) in *.
  assert (Hwne : words <> []) by discriminate.
  destruct (join_words_head words Hwne Hwords) as (d & y & Hhead & _).
  assert (nonempty (join (str " ") words) = true) as -> by now rewrite Hhead.
  cbn [negb]. rewrite split_string_space.
  destruct (split_words words (S (length (join (str " ") words))) [] Hwne Hwords
              ltac:(lia))
    as (first & others & Hw & ->).
  cbn [rev app]. rewrite <- Hw.
  rewrite filter_all.
  2:{ rewrite forallb_forall. rewrite Forall_forall in Hwords.
      intros w Hin. apply Hwords in Hin. unfold binary_word in Hin.
      now apply andb_prop in Hin as [Hin _]. }
  rewrite Hread. cbn [bind try_catch].
  now rewrite join_nil, flat_map_concat_map.
Qed.

(** X17: [binaryToText] after [textToBinary] returns the text for every
    group size (not a number and non-positive sizes included) and every
    non-empty delimiter that contains no binary digit, for any string of
    code units, whenever the binary output is no longer than the longest
    string of the engine. *)
Theorem binary_round_trip_any_delimiter :
  forall (host : Host) (t delimiter : jsstring) (groupSize : number),
    forallb code_unit t = true ->
    delimiter <> [] ->
    forallb not_binary_digit delimiter = true ->
    string_fits (join delimiter (map (binary_group groupSize) (code_points t))) = true ->
    bind (@textToBinary host t groupSize delimiter false) binaryToText = Returns t.
Proof.
  intros host t delimiter groupSize Hunits Hne Hd Hfits.
  rewrite textToBinary_groups by exact Hfits. cbn [bind].
  rewrite (binaryToText_joined _ _ _ Hne Hd (code_points_nonnegative t Hunits)).
  now destruct (code_points_of_units t Hunits) as [_ ->].
Qed.

Lemma binary_round_trip_any_delimiter_witness :
  forallb code_unit (str "Hi" ++ grinning_face) = true
  /\ str ", " <> []
  /\ forallb not_binary_digit (str ", ") = true
  /\ @string_fits plain_host
       (join (str ", ") (map (binary_group (Some 12)) (code_points (str "Hi" ++ grinning_face))))
     = true
  /\ bind (@textToBinary plain_host (str "Hi" ++ grinning_face) (Some 12) (str ", ") false)
       binaryToText
     = Returns (str "Hi" ++ grinning_face).
Proof.
  assert (Hne : str ", " <> []) by discriminate.
  split; [reflexivity|]. split; [exact Hne|]. split; [reflexivity|].
  split; [reflexivity|].
  exact (binary_round_trip_any_delimiter plain_host (str "Hi" ++ grinning_face)
           (str ", ") (Some 12) eq_refl Hne eq_refl eq_refl).
Defined.

(** ** More on Morse *)

Lemma chars_short s : Forall (fun c => (length c <= 2)%nat) (chars s).
Proof.
  induction s as [|u rest Hsingle IH|u v rest Hu Hv IH] using chars_ind.
  - constructor.
  - rewrite (chars_single _ _ Hsingle). constructor; [cbn [length]; lia|exact IH].
  - rewrite (chars_pair _ _ _ Hu Hv). constructor; [cbn [length]; lia|exact IH].
Qed.

Lemma jsstring_eqb_length a b : jsstring_eqb a b = true -> length a = length b.
Proof. intros H. apply jsstring_eqb_eq in H. now subst. Qed.

Lemma short_not_inherited c :
  (length c <= 2)%nat -> existsb (jsstring_eqb c) object_prototype_names = false.
Proof.
  intros Hc. destruct (existsb _ _) eqn:E; [|reflexivity].
  apply existsb_exists in E as (name & Hin & Heq).
  apply jsstring_eqb_length in Heq.
  assert (Hlong : forallb (fun n => Nat.ltb 2 (length n)) object_prototype_names = true)
    by (vm_compute; reflexivity).
  rewrite forallb_forall in Hlong. apply Hlong in Hin. apply Nat.ltb_lt in Hin. lia.
Qed.

Lemma MORSE_value k v : In (k, v) MORSE -> forallb signal v = true.
Proof.
  intros H. pose proof MORSE_entries_ok as Hall. rewrite forallb_forall in Hall.
  specialize (Hall _ H). unfold entry_ok in Hall. cbn [fst snd] in Hall.
  apply andb_prop in Hall as [Hall _]. now apply andb_prop in Hall as [_ Hall].
Qed.

(** What the table gives for a character of the text is a text of dots
    and dashes, empty when the character is unknown. *)
Lemma morse_lookup c :
  (length c <= 2)%nat ->
  exists v,
    (let code := get MORSE c in
     if falsy code then VString []
     else match code with Some w => w | None => VString [] end) = VString v
    /\ forallb signal v = true.
Proof.
  intros Hc. cbv zeta. unfold get.
  destruct (own_property MORSE c) as [v|] eqn:E.
  - cbn [falsy]. destruct (nonempty v); cbn [negb]; [|now exists []].
    exists v. split; [reflexivity|].
    apply own_property_In in E. now apply MORSE_value in E.
  - rewrite (short_not_inherited c Hc). cbn [falsy]. now exists [].
Qed.

Section MorseAlphabet.
Context {host : Host}.

Lemma word_signals cs :
  Forall (fun c => (length c <= 2)%nat) cs ->
  Forall (fun p => forallb signal p = true)
    (map to_text
       (filter (fun s => match s with VString [] => false | _ => true end)
          (map
             (fun ch =>
                let code := get MORSE ch in
                if falsy code then VString []
                else match code with Some c => c | None => VString [] end)
             cs))).
Proof.
  induction 1 as [|c cs Hc _ IH]; [constructor|].
  destruct (morse_lookup c Hc) as (v & Hlook & Hv). cbv zeta in Hlook.
  cbn [map]. cbv zeta. rewrite Hlook.
  cbn [filter]. destruct v as [|v0 v]; [exact IH|].
  cbn [map to_text]. now constructor.
Qed.

End MorseAlphabet.

Lemma existsb_self u (s : jsstring) : In u s -> existsb (Z.eqb u) s = true.
Proof.
  intros H. apply existsb_exists. exists u. split; [exact H|apply Z.eqb_refl].
Qed.

(** X18: when unknown characters are not kept, [toMorse] writes nothing
    but dots, dashes and the two separators, whatever the text. *)
Theorem toMorse_alphabet :
  forall (host : Host) (t letterSep wordSep : jsstring),
    forallb (morse_output_char letterSep wordSep)
      (@toMorse host t letterSep wordSep false) = true.
Proof.
  intros host t letterSep wordSep. unfold toMorse.
  apply forallb_join.
  - rewrite forallb_forall. intros u Hu. unfold morse_output_char.
    now rewrite (existsb_self u wordSep Hu), orb_true_r.
  - apply Forall_forall. intros w Hw. apply in_map_iff in Hw as (word & <- & _).
    apply forallb_join.
    + rewrite forallb_forall. intros u Hu. unfold morse_output_char.
      now rewrite (existsb_self u letterSep Hu), orb_true_r.
    + eapply Forall_impl; [|apply (word_signals _ (chars_short word))].
      intros p Hp. cbn beta in Hp. revert Hp. apply forallb_weaken.
      intros u Hu. unfold morse_output_char. now rewrite Hu.
Qed.

Lemma signals_not_inherited c :
  forallb signal c = true -> existsb (jsstring_eqb c) object_prototype_names = false.
Proof.
  intros Hc. destruct (existsb _ _) eqn:E; [|reflexivity].
  apply existsb_exists in E as (name & Hin & Heq).
  apply jsstring_eqb_eq in Heq. subst name.
  assert (Hnames : forallb (fun n => negb (forallb signal n)) object_prototype_names = true)
    by (vm_compute; reflexivity).
  rewrite forallb_forall in Hnames. apply Hnames in Hin. now rewrite Hc in Hin.
Qed.

Section MorseTokens.
Context {host : Host}.

Lemma decode_tokens (strict : bool) (cs : list jsstring) :
  Forall (fun c => c <> [] /\ forallb signal c = true) cs ->
  join []
    (map to_text
       (map
          (fun sym =>
             let r := get REVMORSE sym in
             if falsy r then VString (if strict then [0xFFFD] else [])
             else match r with Some v => v | None => VString [] end)
          (filter nonempty cs)))
  = concat (map (decode_token strict) cs).
Proof.
  rewrite join_nil. cbv zeta.
  induction 1 as [|c cs [Hne Hsig] _ IH]; [reflexivity|].
  cbn [filter]. rewrite (nonempty_true c Hne). cbn [map concat]. rewrite IH.
  f_equal. unfold get, decode_token.
  destruct (own_property REVMORSE c) as [k|].
  - cbn [falsy]. destruct (nonempty k); reflexivity.
  - rewrite (signals_not_inherited c Hsig). reflexivity.
Qed.

End MorseTokens.

(** X19: a word of Morse tokens, each a non-empty text of dots and
    dashes, separated by a letter separator that cannot be confused with
    them, is decoded token by token: a token of the table gives its
    character; any other token gives nothing, or U+FFFD in strict mode. *)
Theorem fromMorse_tokens :
  forall (host : Host) (tokens : list jsstring) (letterSep wordSep : jsstring)
         (strict : bool),
    Forall (fun c => c <> [] /\ forallb signal c = true) tokens ->
    letterSep <> [] ->
    forallb separator_safe letterSep = true ->
    has_gap letterSep = false ->
    occurs wordSep (join letterSep tokens) = false ->
    @fromMorse host (join letterSep tokens) letterSep wordSep strict
    = Returns (concat (map (decode_token strict) tokens)).
Proof.
  intros host cs letterSep wordSep strict Hcodes HL Hsafe Hgap Hocc.
  assert (HW : wordSep <> []).
  { intros ->. now rewrite occurs_empty in Hocc. }
  rewrite <- (decode_tokens strict cs Hcodes).
  destruct letterSep as [|l0 sep]; [contradiction|].
  assert (Hl0 : signal l0 = false).
  { cbn [forallb] in Hsafe. apply andb_prop in Hsafe as [H _].
    now apply separator_safe_untouched in H. }
  assert (Hclean : forallb (fun u => negb (normalized_away u)) (join (l0 :: sep) cs) = true).
  { apply forallb_join.
    - revert Hsafe. apply forallb_weaken. intros u Hu.
      now apply separator_safe_untouched in Hu.
    - apply (Forall_codes_weaken _ _ (fun u Hu => proj1 (signal_untouched u Hu)) Hcodes). }
  assert (Hslash : forallb (fun u => negb (u =? 47)) (join (l0 :: sep) cs) = true).
  { apply forallb_join.
    - revert Hsafe. apply forallb_weaken. intros u Hu.
      now apply separator_safe_untouched in Hu.
    - apply (Forall_codes_weaken _ _ (fun u Hu => proj2 (signal_untouched u Hu)) Hcodes). }
  assert (Hnogap : has_gap (join (l0 :: sep) cs) = false) by now apply join_codes_no_gap.
  unfold fromMorse.
  rewrite (nonempty_true wordSep HW), (nonempty_true (l0 :: sep) HL).
  rewrite (wordSplitter_parsed wordSep HW), (letterSplitter_parsed (l0 :: sep) HL).
  cbn [bind]. f_equal.
  destruct cs as [|c codes].
  - change (join (l0 :: sep) []) with (@nil Z).
    change (normalizePunctuation []) with (@nil Z).
    unfold split. cbn [pattern].
    rewrite (word_pattern_fails wordSep []); trivial.
    destruct wordSep; [contradiction|reflexivity].
  - assert (Hne : c :: codes <> []) by discriminate.
    inversion Hcodes as [|? ? [Hc Hsig] Hrest]; subst.
    destruct (join_codes_head (l0 :: sep) c codes Hc Hsig) as (a & s & Ee & Ha).
    destruct (join_codes_last (l0 :: sep) (c :: codes) Hne Hcodes) as (z & r & Er & Hz).
    set (e := join (l0 :: sep) (c :: codes)) in *.
    rewrite normalizePunctuation_id; trivial.
    2:{ intros a' s' E'. rewrite Ee in E'. inversion E'; subst.
        now apply signal_not_space. }
    2:{ intros z' r' E'. rewrite Er in E'. inversion E'; subst.
        now apply signal_not_space. }
    assert (Hsplit : split (mkRegExp (word_pattern wordSep) true) e = [e]).
    { unfold split. cbn [pattern]. rewrite Ee. rewrite <- Ee.
      rewrite split_from_never_matches; [reflexivity | lia |].
      now apply word_pattern_never_matches. }
    rewrite Hsplit. cbn [filter]. rewrite Ee at 1. cbn [nonempty map].
    assert (Hletters : split (mkRegExp (seq_literal (l0 :: sep) Empty) true) e = c :: codes).
    { unfold split. cbn [pattern]. rewrite Ee. rewrite <- Ee.
      apply split_from_codes; trivial. fold e. lia. }
    rewrite Hletters. reflexivity.
Qed.

Lemma fromMorse_tokens_witness :
  Forall (fun c => c <> [] /\ forallb signal c = true)
    [str "..."; str "........"; str "---"]
  /\ str " " <> []
  /\ forallb separator_safe (str " ") = true
  /\ has_gap (str " ") = false
  /\ occurs (str " / ") (join (str " ") [str "..."; str "........"; str "---"]) = false
  /\ @fromMorse plain_host (join (str " ") [str "..."; str "........"; str "---"])
       (str " ") (str " / ") true
     = Returns (concat (map (decode_token true) [str "..."; str "........"; str "---"])).
Proof.
  assert (H1 : Forall (fun c => c <> [] /\ forallb signal c = true)
                 [str "..."; str "........"; str "---"])
    by (repeat constructor; discriminate).
  assert (H2 : str " " <> []) by discriminate.
  split; [exact H1|]. split; [exact H2|]. split; [reflexivity|]. split; [reflexivity|].
  split; [reflexivity|].
  exact (fromMorse_tokens plain_host [str "..."; str "........"; str "---"]
           (str " ") (str " / ") true H1 H2 eq_refl eq_refl eq_refl).
Defined.

(** ** Morse words with the default separators *)

Lemma space_class_consumes x y :
  In y (matches (Class false [Space]) x) ->
  exists p, x = p ++ y /\ forallb is_space p = true.
Proof.
  destruct x as [|u x]; [contradiction|]. rewrite matches_space_cons.
  destruct (is_space u) eqn:E; [|contradiction]. intros [<-|[]].
  exists [u]. split; trivial. cbn [forallb]. now rewrite E.
Qed.

Lemma first_non_space ws : forall (c : Z) rest p d rest',
  forallb is_space ws = true -> forallb is_space p = true ->
  is_space c = false -> is_space d = false ->
  ws ++ c :: rest = p ++ d :: rest' -> c = d.
Proof.
  induction ws as [|w ws IH]; intros c rest p d rest' Hws Hp Hc Hd E.
  - destruct p as [|u p]; cbn [app] in E; inversion E; subst; trivial.
    cbn [forallb] in Hp. apply andb_prop in Hp as [Hu _]. congruence.
  - cbn [forallb] in Hws. apply andb_prop in Hws as [Hw Hws].
    destruct p as [|u p]; cbn [app] in E; inversion E; subst.
    + congruence.
    + cbn [forallb] in Hp. apply andb_prop in Hp as [_ Hp]. eauto.
Qed.

(** [\s*/\s*] does not match where the first character after the white
    space is not a slash. *)
Lemma slash_fails_at ws c rest :
  forallb is_space ws = true -> is_space c = false -> c <> 47 ->
  matches slash_pattern (ws ++ c :: rest) = [].
Proof.
  intros Hws Hc Hslash. unfold slash_pattern. rewrite matches_seq.
  apply flat_map_nil; intros z Hz. exfalso.
  rewrite matches_seq in Hz. apply in_flat_map in Hz as (y & Hy & Hz).
  rewrite matches_repeat in Hy.
  apply (repeat_matcher_consumes is_space _ space_class_consumes) in Hy
    as (p & Hp & Hall).
  rewrite matches_seq in Hz. apply in_flat_map in Hz as (y' & Hy' & _).
  destruct y as [|u y]; [contradiction|].
  rewrite matches_char_cons in Hy'.
  destruct (u =? 47) eqn:Eu; [|contradiction]. apply Z.eqb_eq in Eu. subst u.
  apply Hslash. apply (first_non_space ws c rest p 47 y Hws Hall Hc); trivial.
Qed.

Lemma word_pattern_at_signal c x :
  signal c = true -> match_here (word_pattern (str " / ")) (c :: x) = None.
Proof.
  intros Hc. unfold match_here, word_pattern. rewrite !matches_alt.
  rewrite literal_alternative_fails.
  2:{ change (str " / ") with [32; 47; 32]. cbn [strip_prefix].
      assert ((c =? 32) = false) as -> by (unfold signal in Hc; lia). reflexivity. }
  assert (Hs : matches slash_pattern (c :: x) = []).
  { apply (slash_fails_at [] c x eq_refl (signal_not_space c Hc)).
    unfold signal in Hc. lia. }
  rewrite Hs.
  rewrite gap_alternative_fails; [reflexivity|].
  destruct x as [|b [|d x]]; cbn [starts_with_gap]; trivial.
  now rewrite (signal_not_space c Hc).
Qed.

Lemma word_pattern_at_space c x :
  signal c = true -> match_here (word_pattern (str " / ")) (32 :: c :: x) = None.
Proof.
  intros Hc. unfold match_here, word_pattern. rewrite !matches_alt.
  rewrite literal_alternative_fails.
  2:{ change (str " / ") with [32; 47; 32]. cbn [strip_prefix Z.eqb Pos.eqb].
      assert ((c =? 47) = false) as -> by (unfold signal in Hc; lia). reflexivity. }
  assert (Hs : matches slash_pattern (32 :: c :: x) = []).
  { apply (slash_fails_at [32] c x eq_refl (signal_not_space c Hc)).
    unfold signal in Hc. lia. }
  rewrite Hs.
  rewrite gap_alternative_fails; [reflexivity|].
  destruct x as [|d x]; cbn [starts_with_gap]; trivial.
  now rewrite (signal_not_space c Hc), andb_false_r.
Qed.

Lemma word_pattern_at_separator next :
  match_here (word_pattern (str " / ")) (str " / " ++ next) = Some next.
Proof.
  unfold match_here, word_pattern. rewrite matches_alt, matches_seq, matches_literal.
  now rewrite strip_prefix_app.
Qed.

Lemma split_token tok : forall fuel token rest,
  forallb signal tok = true ->
  split_from (length tok + fuel) (word_pattern (str " / ")) token (tok ++ rest)
  = split_from fuel (word_pattern (str " / ")) (rev tok ++ token) rest.
Proof.
  induction tok as [|u tok IH]; intros fuel token rest Hc; [reflexivity|].
  cbn [forallb] in Hc. apply andb_prop in Hc as [Hu Hc].
  cbn [length Nat.add app split_from].
  rewrite (word_pattern_at_signal u _ Hu).
  rewrite IH by trivial. cbn [rev]. now rewrite <- app_assoc.
Qed.

Lemma token_head c : morse_token c -> exists u s, c = u :: s /\ signal u = true.
Proof.
  intros [Hne Hsig]. destruct c as [|u s]; [contradiction|].
  cbn [forallb] in Hsig. apply andb_prop in Hsig as [Hu _]. eauto.
Qed.

(** The characters of a Morse word are put on the current token. *)
Lemma split_morse_word toks : forall fuel token rest,
  morse_tokens toks ->
  split_from (length (join (str " ") toks) + fuel) (word_pattern (str " / ")) token
    (join (str " ") toks ++ rest)
  = split_from fuel (word_pattern (str " / ")) (rev (join (str " ") toks) ++ token) rest.
Proof.
  induction toks as [|c [|c2 toks] IH]; intros fuel token rest [Hne Hall];
    [contradiction| |].
  - inversion Hall as [|? ? [_ Hsig] _]; subst. cbn [join].
    now apply split_token.
  - inversion Hall as [|? ? [_ Hsig] Hrest]; subst.
    rewrite join_cons, !length_app, <- !app_assoc, <- Nat.add_assoc.
    rewrite split_token by trivial.
    assert (Hnext : morse_tokens (c2 :: toks)) by (split; [discriminate|exact Hrest]).
    inversion Hrest as [|? ? Hc2 _]; subst.
    destruct (token_head c2 Hc2) as (u & s & E2 & Hu).
    assert (Hhead : exists s', join (str " ") (c2 :: toks) = u :: s').
    { rewrite E2. destruct toks; cbn [join app]; eauto. }
    destruct Hhead as [s' Hhead].
    change (length (str " ")) with 1%nat. cbn [Nat.add].
    change (str " " ++ join (str " ") (c2 :: toks) ++ rest)
      with (32 :: (join (str " ") (c2 :: toks) ++ rest)).
    rewrite Hhead at 2. cbn [app split_from].
    rewrite (word_pattern_at_space u _ Hu).
    change (u :: s' ++ rest) with ((u :: s') ++ rest). rewrite <- Hhead.
    rewrite (IH _ _ _ Hnext).
    rewrite !rev_app_distr. cbn [rev app]. now rewrite <- !app_assoc.
Qed.

Lemma token_ends c : morse_token c -> signal_ends c.
Proof.
  intros Hc. split; [now apply token_head|].
  destruct Hc as [Hne Hsig].
  destruct (rev c) as [|v r] eqn:E.
  - apply (f_equal (@rev Z)) in E. rewrite rev_involutive in E. contradiction.
  - exists v, r. split; trivial.
    rewrite forallb_forall in Hsig. apply Hsig, in_rev. rewrite E. now left.
Qed.

Lemma join_signal_ends sep parts :
  parts <> [] -> Forall signal_ends parts -> signal_ends (join sep parts).
Proof.
  induction parts as [|p [|q rest] IH]; intros Hne Hall; [contradiction| |].
  - now inversion Hall.
  - inversion Hall as [|? ? [(u & s & -> & Hu) _] Hrest]; subst.
    destruct (IH ltac:(discriminate) Hrest) as [_ (v & r & Hv & Hsig)].
    rewrite join_cons. split.
    + exists u. eexists. split; [reflexivity|exact Hu].
    + rewrite !rev_app_distr, Hv. cbn [app]. eauto.
Qed.

Lemma morse_word_ends toks : morse_tokens toks -> signal_ends (join (str " ") toks).
Proof.
  intros [Hne Hall]. apply join_signal_ends; trivial.
  eapply Forall_impl; [|exact Hall]. apply token_ends.
Qed.

Lemma morse_word_chars toks :
  morse_tokens toks -> forallb morse_char (join (str " ") toks) = true.
Proof.
  intros [_ Hall]. apply forallb_join; [reflexivity|].
  eapply Forall_impl; [|exact Hall]. intros c [_ Hc]. revert Hc.
  apply forallb_weaken. intros u Hu. unfold morse_char. now rewrite Hu.
Qed.

(** Splitting at the word separator gives the words back. *)
Lemma split_morse_words wss : forall fuel,
  wss <> [] -> Forall morse_tokens wss ->
  (length (join (str " / ") (map (join (str " ")) wss)) < fuel)%nat ->
  split_from fuel (word_pattern (str " / ")) [] (join (str " / ") (map (join (str " ")) wss))
  = map (join (str " ")) wss.
Proof.
  induction wss as [|w [|w2 wss] IH]; intros fuel Hne Hall Hfuel; [contradiction| |].
  - inversion Hall as [|? ? Hw _]; subst. cbn [map join] in *.
    replace fuel with (length (join (str " ") w) + (fuel - length (join (str " ") w)))%nat
      by lia.
    pose proof (split_morse_word w (fuel - length (join (str " ") w)) [] [] Hw) as Hs.
    rewrite app_nil_r in Hs. rewrite Hs.
    destruct (fuel - length (join (str " ") w))%nat eqn:E; [lia|].
    cbn [split_from]. now rewrite app_nil_r, rev_involutive.
  - inversion Hall as [|? ? Hw Hrest]; subst.
    cbn [map] in *. rewrite join_cons in Hfuel |- *. rewrite !length_app in Hfuel.
    change (length (str " / ")) with 3%nat in Hfuel.
    replace fuel with (length (join (str " ") w) + (fuel - length (join (str " ") w)))%nat
      by lia.
    rewrite (split_morse_word w _ [] _ Hw).
    destruct (fuel - length (join (str " ") w))%nat as [|fuel'] eqn:E; [lia|].
    rewrite app_nil_r.
    set (next := join (str " / ") (join (str " ") w2 :: map (join (str " ")) wss)) in *.
    change (str " / " ++ next) with (32 :: (str "/ " ++ next)).
    cbn [split_from].
    change (32 :: (str "/ " ++ next)) with (str " / " ++ next).
    rewrite word_pattern_at_separator.
    destruct (morse_word_ends w Hw) as [(u & s & Eu & _) _].
    assert (Htok : nonempty (rev (join (str " ") w)) = true).
    { rewrite Eu. cbn [rev]. now destruct (rev s). }
    rewrite Htok. cbn [negb andb]. rewrite rev_involutive. f_equal.
    apply (IH fuel' ltac:(discriminate) Hrest). lia.
Qed.

Lemma morse_text_ends wss :
  wss <> [] -> Forall morse_tokens wss ->
  signal_ends (join (str " / ") (map (join (str " ")) wss)).
Proof.
  intros Hne Hall. apply join_signal_ends; [now destruct wss|].
  apply Forall_forall. intros w Hw. apply in_map_iff in Hw as (toks & <- & Hin).
  rewrite Forall_forall in Hall. now apply morse_word_ends, Hall.
Qed.

Lemma morse_text_chars wss :
  Forall morse_tokens wss ->
  forallb morse_char (join (str " / ") (map (join (str " ")) wss)) = true.
Proof.
  intros Hall. apply forallb_join; [reflexivity|].
  apply Forall_forall. intros w Hw. apply in_map_iff in Hw as (toks & <- & Hin).
  rewrite Forall_forall in Hall. now apply morse_word_chars, Hall.
Qed.

Lemma morse_text_normalized wss :
  wss <> [] -> Forall morse_tokens wss ->
  normalizePunctuation (join (str " / ") (map (join (str " ")) wss))
  = join (str " / ") (map (join (str " ")) wss).
Proof.
  intros Hne Hall.
  destruct (morse_text_ends wss Hne Hall) as [(u & s & Eu & Hu) (v & r & Ev & Hv)].
  apply normalizePunctuation_id.
  - eapply forallb_weaken; [|exact (morse_text_chars wss Hall)].
    intros c Hc. unfold morse_char, signal in Hc. unfold normalized_away.
    cbn [existsb]. lia.
  - intros u' s' E. rewrite Eu in E. inversion E; subst. now apply signal_not_space.
  - intros v' r' E. rewrite Ev in E. inversion E; subst. now apply signal_not_space.
Qed.

Lemma split_letters toks :
  morse_tokens toks ->
  split (mkRegExp (seq_literal (str " ") Empty) true) (join (str " ") toks) = toks.
Proof.
  intros Htoks. destruct (morse_word_ends toks Htoks) as [(u & s & Eu & _) _].
  destruct Htoks as [Hne Hall].
  unfold split. cbn [pattern]. rewrite Eu. rewrite <- Eu.
  apply (split_from_codes 32 [] toks); trivial.
  change [32] with (str " "). lia.
Qed.

Lemma fromMorse_of_words :
  forall (host : Host) (words : list (list jsstring)) (strict : bool),
    Forall morse_tokens words ->
    @fromMorse host (join (str " / ") (map (join (str " ")) words)) (str " ") (str " / ")
      strict
    = Returns
        (join (str " ") (map (fun toks => concat (map (decode_token strict) toks)) words)).
Proof.
  intros host wss strict Hall. unfold fromMorse.
  change (nonempty (str " / ")) with true. change (nonempty (str " ")) with true.
  cbv iota.
  rewrite (wordSplitter_parsed (str " / ")) by discriminate.
  rewrite (letterSplitter_parsed (str " ")) by discriminate.
  cbn [bind]. f_equal.
  destruct wss as [|w wss].
  - reflexivity.
  - assert (Hne : w :: wss <> []) by discriminate.
    rewrite (morse_text_normalized _ Hne Hall).
    destruct (morse_text_ends _ Hne Hall) as [(u & s & Eu & _) _].
    assert (Hsplit : split (mkRegExp (word_pattern (str " / ")) true)
                       (join (str " / ") (map (join (str " ")) (w :: wss)))
                     = map (join (str " ")) (w :: wss)).
    { unfold split. cbn [pattern]. rewrite Eu. rewrite <- Eu.
      apply split_morse_words; trivial. lia. }
    rewrite Hsplit. rewrite filter_all.
    2:{ rewrite forallb_forall. intros x Hx. apply in_map_iff in Hx as (toks & <- & Hin).
        rewrite Forall_forall in Hall. apply Hall in Hin.
        destruct (morse_word_ends toks Hin) as [(a & b & -> & _) _]. reflexivity. }
    rewrite map_map. f_equal. apply map_ext_in. intros toks Hin.
    rewrite Forall_forall in Hall. apply Hall in Hin.
    rewrite (split_letters toks Hin).
    apply (decode_tokens strict toks). now destruct Hin.
Qed.

(** X20: a Morse text whose words are separated by " / " and whose tokens
    are separated by single spaces is decoded word by word and token by
    token (a token of the table gives its character; any other token
    gives nothing, or U+FFFD in strict mode), and the decoded words are
    joined by single spaces. *)
Theorem fromMorse_words :
  forall (host : Host) (words : list (list jsstring)) (strict : bool),
    Forall morse_tokens words ->
    @fromMorse host (join (str " / ") (map (join (str " ")) words)) (str " ") (str " / ")
      strict
    = Returns
        (join (str " ") (map (fun toks => concat (map (decode_token strict) toks)) words)).
Proof. exact fromMorse_of_words. Qed.

Lemma fromMorse_words_witness :
  Forall morse_tokens [[str "..."; str "---"; str "..."]; [str "."; str "........"]]
  /\ @fromMorse plain_host
       (join (str " / ")
          (map (join (str " ")) [[str "..."; str "---"; str "..."]; [str "."; str "........"]]))
       (str " ") (str " / ") false
     = Returns
         (join (str " ")
            (map (fun toks => concat (map (decode_token false) toks))
               [[str "..."; str "---"; str "..."]; [str "."; str "........"]])).
Proof.
  assert (H : Forall morse_tokens
                [[str "..."; str "---"; str "..."]; [str "."; str "........"]]).
  { repeat constructor; discriminate. }
  split; [exact H|].
  exact (fromMorse_words plain_host
           [[str "..."; str "---"; str "..."]; [str "."; str "........"]] false H).
Defined.

(** ** Texts of several words *)

Lemma split_string_skips w : forall fuel token x,
  forallb (fun u => negb (u =? 32)) w = true ->
  split_string_from (length w + fuel) (str " ") token (w ++ x)
  = split_string_from fuel (str " ") (rev w ++ token) x.
Proof.
  induction w as [|d w IH]; intros fuel token x Hw; [reflexivity|].
  cbn [forallb] in Hw. apply andb_prop in Hw as [Hd Hw].
  cbn [app length Nat.add split_string_from].
  change (strip_prefix (str " ") (d :: w ++ x))
    with (if d =? 32 then Some (w ++ x) else None).
  apply negb_true_iff in Hd. rewrite Hd.
  rewrite (IH fuel (d :: token) x Hw). cbn [rev]. now rewrite <- app_assoc.
Qed.

Lemma split_string_joined ws : forall fuel token,
  ws <> [] ->
  Forall (fun w => forallb (fun u => negb (u =? 32)) w = true) ws ->
  (length (join (str " ") ws) < fuel)%nat ->
  exists first others,
    ws = first :: others
    /\ split_string_from fuel (str " ") token (join (str " ") ws)
       = (rev token ++ first) :: others.
Proof.
  induction ws as [|p [|q rest] IH]; intros fuel token Hne Hall Hfuel;
    [contradiction| |].
  - inversion Hall as [|? ? Hp _]; subst. exists p, []. split; [reflexivity|].
    cbn [join] in *.
    replace fuel with (length p + (fuel - length p))%nat by lia.
    pose proof (split_string_skips p (fuel - length p) token [] Hp) as Hskip.
    rewrite app_nil_r in Hskip. rewrite Hskip.
    destruct (fuel - length p)%nat eqn:E; [lia|].
    cbn [split_string_from]. now rewrite rev_app_distr, rev_involutive.
  - inversion Hall as [|? ? Hp Hrest]; subst.
    exists p, (q :: rest). split; [reflexivity|].
    rewrite join_cons in *. rewrite !length_app in Hfuel.
    change (length (str " ")) with 1%nat in Hfuel.
    replace fuel with (length p + (fuel - length p))%nat by lia.
    rewrite (split_string_skips p _ token _ Hp).
    destruct (fuel - length p)%nat as [|fuel'] eqn:E; [lia|].
    change (str " " ++ join (str " ") (q :: rest))
      with (32 :: join (str " ") (q :: rest)).
    cbn [split_string_from].
    change (strip_prefix (str " ") (32 :: join (str " ") (q :: rest)))
      with (Some (join (str " ") (q :: rest))).
    cbn iota. rewrite rev_app_distr, rev_involutive.
    destruct (IH fuel' [] ltac:(discriminate) Hrest ltac:(lia))
      as (first & others & Hw & ->).
    cbn [rev app]. now rewrite Hw.
Qed.

Lemma decode_morse_codes w :
  forallb encodable w = true ->
  concat (map (decode_token false) (codes_of w)) = map ascii_upper w.
Proof.
  induction w as [|u w IH]; intros H; [reflexivity|].
  cbn [forallb] in H. apply andb_prop in H as [Hu Hw].
  destruct (encodable_key u Hu) as (_ & _ & v & Hv).
  destruct (MORSE_key _ _ Hv) as (_ & _ & _ & _ & _ & Hrev).
  unfold codes_of in *. cbn [map concat]. rewrite (IH Hw).
  unfold morse_code at 1. rewrite Hv. unfold decode_token.
  unfold get in Hrev. destruct (own_property REVMORSE v) as [k|].
  - inversion Hrev; subst. reflexivity.
  - destruct (existsb _ _); discriminate.
Qed.

Section MorseText.
Context {host : Host}.

Lemma words_plain words :
  Forall (fun w => w <> [] /\ forallb encodable w = true) words ->
  forallb plain (join (str " ") words) = true.
Proof.
  intros Hall. apply forallb_join; [reflexivity|].
  eapply Forall_impl; [|exact Hall]. intros w [_ Hw]. now apply encodable_plain.
Qed.

(** A text of words is encoded word by word. *)
Lemma toMorse_of_words words :
  words <> [] ->
  Forall (fun w => w <> [] /\ forallb encodable w = true) words ->
  toMorse (join (str " ") words) (str " ") (str " / ") false
  = join (str " / ") (map (join (str " ")) (map codes_of words)).
Proof.
  intros Hne Hall. unfold toMorse.
  rewrite (toUpperCase_plain _ (words_plain words Hall)), map_join.
  change (map ascii_upper (str " ")) with (str " ").
  change (split_string (str " ") (join (str " ") (map (map ascii_upper) words)))
    with (split_string_from (S (length (join (str " ") (map (map ascii_upper) words))))
            (str " ") [] (join (str " ") (map (map ascii_upper) words))).
  destruct (split_string_joined (map (map ascii_upper) words)
              (S (length (join (str " ") (map (map ascii_upper) words)))) [])
    as (first & others & Hw & ->); [now destruct words| |lia|].
  { apply Forall_forall. intros x Hx. apply in_map_iff in Hx as (w & <- & Hin).
    rewrite Forall_forall in Hall. apply Hall in Hin as [_ Hin].
    now apply encodable_upper_no_space. }
  cbn [rev app]. rewrite <- Hw, !map_map. f_equal.
  apply map_ext_in. intros w Hin.
  rewrite Forall_forall in Hall. apply Hall in Hin as [_ Hw'].
  rewrite (chars_plain _ (forallb_map_plain_upper w (encodable_plain w Hw'))).
  now rewrite word_codes.
Qed.

End MorseText.

(** X21: with the default separators, a text made of words of characters
    of the Morse table (or lowercase letters), with single spaces between
    the words, comes back uppercased from [toMorse] followed by
    [fromMorse]. *)
Theorem morse_round_trip_words :
  forall (host : Host) (words : list jsstring),
    Forall (fun w => w <> [] /\ forallb encodable w = true) words ->
    @fromMorse host (@toMorse host (join (str " ") words) (str " ") (str " / ") false)
      (str " ") (str " / ") false
    = Returns (@toUpperCase host (join (str " ") words)).
Proof.
  intros host words Hall.
  destruct words as [|w0 ws]; [vm_compute; reflexivity|].
  rewrite (toMorse_of_words (w0 :: ws) ltac:(discriminate) Hall).
  rewrite fromMorse_of_words.
  - rewrite (toUpperCase_plain _ (words_plain _ Hall)), map_join, map_map.
    change (map ascii_upper (str " ")) with (str " "). do 2 f_equal.
    apply map_ext_in. intros w Hin. rewrite Forall_forall in Hall.
    apply Hall in Hin as [_ Hw]. now apply decode_morse_codes.
  - apply Forall_forall. intros toks Hin. apply in_map_iff in Hin as (w & <- & Hin).
    rewrite Forall_forall in Hall. apply Hall in Hin as [Hne Hw]. split.
    + unfold codes_of. destruct w; [contradiction|cbn [map]; discriminate].
    + apply codes_of_signals, Hw.
Qed.

Lemma morse_round_trip_words_witness :
  Forall (fun w => w <> [] /\ forallb encodable w = true) [str "Sos"; str "help!"]
  /\ @fromMorse plain_host
       (@toMorse plain_host (join (str " ") [str "Sos"; str "help!"]) (str " ") (str " / ")
          false)
       (str " ") (str " / ") false
     = Returns (@toUpperCase plain_host (join (str " ") [str "Sos"; str "help!"])).
Proof.
  assert (H : Forall (fun w => w <> [] /\ forallb encodable w = true)
                [str "Sos"; str "help!"]).
  { repeat constructor; discriminate. }
  split; [exact H|].
  exact (morse_round_trip_words plain_host [str "Sos"; str "help!"] H).
Defined.

(** ** Hexadecimal output with any delimiter *)

Lemma parse_alternative_char f c s' :
  is_syntax c = false -> no_quantifier_ahead s' = true ->
  parse_alternative (S f) (c :: s')
  = match parse_alternative f s' with
    | Parsed (r, rest') => Parsed (Seq (Char c) r, rest')
    | BadSyntax => BadSyntax
    | Unmodelled => Unmodelled
    end.
Proof.
  intros Hc Hs. destruct (is_syntax_false c Hc)
    as (H46 & H42 & H43 & H63 & H94 & H36 & H123 & H125 & H40 & H41 & H124 & H91 & H93 & H92).
  cbn [parse_alternative].
  rewrite H124, H41, H36, H94, H91, H42, H43, H63, H123, H46, H92, H40.
  cbn [orb]. rewrite (parse_quantifier_absent _ _ Hs).
  destruct (parse_alternative f s') as [[r rest']| |]; reflexivity.
Qed.

Lemma parse_alternative_repeated f c :
  is_syntax c = false ->
  parse_alternative (S (S (S f))) (c :: str "+$")
  = Parsed (Seq (Repeat 1 None (Char c)) (Seq InputEnd Empty), []).
Proof.
  intros Hc. destruct (is_syntax_false c Hc)
    as (H46 & H42 & H43 & H63 & H94 & H36 & H123 & H125 & H40 & H41 & H124 & H91 & H93 & H92).
  cbn [parse_alternative].
  rewrite H124, H41, H36, H94, H91, H42, H43, H63, H123, H46, H92, H40.
  reflexivity.
Qed.

Lemma not_syntax_no_quantifier c s :
  is_syntax c = false -> no_quantifier_ahead (c :: s) = true.
Proof.
  intros Hc. destruct (is_syntax_false c Hc)
    as (H46 & H42 & H43 & H63 & H94 & H36 & H123 & _).
  cbn [no_quantifier_ahead]. now rewrite H42, H43, H63, H123.
Qed.

Lemma parse_trailing d : forall fuel,
  d <> [] -> forallb (fun c => negb (is_syntax c)) d = true ->
  (length d + 2 < fuel)%nat ->
  parse_alternative fuel (d ++ str "+$") = Parsed (trailing_pattern d, []).
Proof.
  induction d as [|c [|c2 d] IH]; intros fuel Hne Hd Hfuel; [contradiction| |].
  - cbn [forallb] in Hd. apply andb_prop in Hd as [Hc _]. apply negb_true_iff in Hc.
    cbn [length] in Hfuel.
    destruct fuel as [|[|[|fuel]]]; try lia.
    now apply parse_alternative_repeated.
  - cbn [forallb] in Hd. apply andb_prop in Hd as [Hc Hd]. apply negb_true_iff in Hc.
    destruct fuel as [|fuel]; [lia|].
    change ((c :: c2 :: d) ++ str "+$") with (c :: ((c2 :: d) ++ str "+$")).
    rewrite parse_alternative_char; trivial.
    + rewrite IH; [reflexivity|discriminate|exact Hd|cbn [length] in *; lia].
    + cbn [forallb] in Hd. apply andb_prop in Hd as [Hc2 _].
      apply negb_true_iff in Hc2. now apply not_syntax_no_quantifier.
Qed.

Lemma trailing_parsed d :
  d <> [] -> forallb (fun c => negb (is_syntax c)) d = true ->
  RegExp_new (d ++ str "+$") false = Returns (mkRegExp (trailing_pattern d) false).
Proof.
  intros Hne Hd. unfold RegExp_new.
  replace (2 * length (d ++ str "+$") + 3)%nat
    with (S (2 * length (d ++ str "+$") + 2)) by lia.
  rewrite parse_disjunction_step, parse_trailing; trivial.
  rewrite length_app. cbn [length str map String.list_ascii_of_string]. lia.
Qed.

(** A match of the trailing pattern takes the rest of the input, which is
    not empty and made of characters of the delimiter. *)
Lemma trailing_consumes d : forall x y,
  d <> [] ->
  In y (matches (trailing_pattern d) x) ->
  y = [] /\ x <> [] /\ forallb (fun u => existsb (Z.eqb u) d) x = true.
Proof.
  induction d as [|c [|c2 d] IH]; intros x y Hne Hy; [contradiction| |].
  - cbn [trailing_pattern] in Hy. rewrite matches_seq in Hy.
    apply in_flat_map in Hy as (y1 & Hy1 & Hy).
    rewrite matches_seq in Hy. apply in_flat_map in Hy as (y2 & Hy2 & Hy).
    destruct y1 as [|? ?]; [|contradiction]. destruct Hy2 as [<-|[]].
    destruct Hy as [<-|[]]. split; [reflexivity|].
    destruct x as [|u x]; [contradiction|]. split; [discriminate|].
    rewrite matches_repeat in Hy1.
    apply (repeat_matcher_consumes (Z.eqb c) _ (char_consumes c)) in Hy1
      as (p & Hp & Hall).
    rewrite app_nil_r in Hp. subst p. revert Hall. apply forallb_weaken.
    intros a Ha. apply Z.eqb_eq in Ha. subst a. cbn [existsb].
    now rewrite Z.eqb_refl.
  - change (trailing_pattern (c :: c2 :: d)) with (Seq (Char c) (trailing_pattern (c2 :: d)))
      in Hy.
    rewrite matches_seq in Hy. apply in_flat_map in Hy as (y1 & Hy1 & Hy).
    destruct x as [|u x]; [contradiction|]. rewrite matches_char_cons in Hy1.
    destruct (u =? c) eqn:E; [|contradiction]. destruct Hy1 as [<-|[]].
    destruct (IH x y ltac:(discriminate) Hy) as (Hy0 & Hx & Hall).
    split; [exact Hy0|]. split; [discriminate|].
    cbn [forallb existsb]. rewrite E. cbn [orb andb].
    revert Hall. apply forallb_weaken. intros a Ha. cbn [existsb] in *.
    now rewrite Ha, orb_true_r.
Qed.

Lemma exec_spec r s : forall skipped before x y,
  exec r skipped s = Some (before, x, y) ->
  rev skipped ++ s = before ++ x /\ match_here r x = Some y.
Proof.
  induction s as [|u s IH]; intros skipped before x y H; cbn [exec] in H.
  - destruct (match_here r []) as [y0|] eqn:E; [|discriminate].
    inversion H; subst. now split.
  - destruct (match_here r (u :: s)) as [y0|] eqn:E.
    + inversion H; subst. now split.
    + apply IH in H as [H1 H2]. split; [|exact H2].
      rewrite <- H1. cbn [rev]. now rewrite <- app_assoc.
Qed.

Lemma match_here_In r x y : match_here r x = Some y -> In y (matches r x).
Proof.
  unfold match_here. destruct (matches r x) as [|y0 l]; [discriminate|].
  intros H. inversion H. now left.
Qed.





Section HexDelimiters.
Context {host : Host}.



End HexDelimiters.



Lemma trailing_fails_at_end d : d <> [] -> match_here (trailing_pattern d) [] = None.
Proof.
  intros Hne. unfold match_here.
  destruct (matches (trailing_pattern d) []) as [|y l] eqn:E; [reflexivity|].
  assert (Hin : In y (matches (trailing_pattern d) [])) by (rewrite E; now left).
  apply (trailing_consumes d [] y Hne) in Hin as (_ & Hx & _). contradiction.
Qed.

(** The trailing pattern finds nothing in a text that is empty or ends
    with a hexadecimal digit. *)
Lemma replace_trailing_absent d s :
  plain_delimiter d = true ->
  (s = [] \/ exists y h, s = y ++ [h] /\ is_hex_digit h = true) ->
  replace (mkRegExp (trailing_pattern d) false) [] s = s.
Proof.
  intros Hd Hs. unfold plain_delimiter in Hd. apply andb_prop in Hd as [Hne Hd].
  assert (Hne' : d <> []) by (now destruct d).
  unfold replace, replace_first. cbn [global pattern].
  destruct (exec (trailing_pattern d) [] s) as [[[before x] y]|] eqn:E; [|reflexivity].
  exfalso. apply exec_spec in E as [Hsx Hm]. cbn [rev app] in Hsx.
  apply match_here_In, (trailing_consumes d x y Hne') in Hm as (_ & Hx & Hall).
  destruct Hs as [->|(y' & h & -> & Hh)].
  - symmetry in Hsx. apply app_eq_nil in Hsx as [_ Hsx]. contradiction.
  - destruct (exists_last Hx) as (x' & a & ->).
    rewrite app_assoc in Hsx. apply app_inj_tail in Hsx as [_ <-].
    rewrite forallb_app in Hall. apply andb_prop in Hall as [_ Ha].
    cbn [forallb] in Ha. rewrite andb_true_r in Ha.
    apply existsb_exists in Ha as (c & Hin & Hc). apply Z.eqb_eq in Hc. subst c.
    rewrite forallb_forall in Hd. apply Hd in Hin.
    apply andb_prop in Hin as [_ Hin]. apply negb_true_iff in Hin. congruence.
Qed.


Section HexUngrouped.
Context {host : Host}.



End HexUngrouped.



(** ** Hexadecimal output in groups *)

Lemma grouped_cons c g i p q rest :
  grouped c g i (p :: q :: rest)
  = p ++ (if Z.rem (i + 1) g =? 0 then [c; c; c] else [c]) ++ grouped c g (i + 1) (q :: rest).
Proof. reflexivity. Qed.

Section HexGroups.
Context {host : Host}.

(** The joined parts: the groups, and two delimiters more when the last
    pair ends a group. *)
Lemma joined_groups c g upper bytes : forall i,
  1 < g ->
  join [c] (hex_parts [c] upper (Some g) i bytes)
  = grouped c g i (map (hex_pair_text upper) bytes)
    ++ group_tail c g i (map (hex_pair_text upper) bytes).
Proof.
  intros i Hg. revert i.
  induction bytes as [|b [|b2 bytes] IH]; intros i; [reflexivity| |].
  - cbn [hex_parts map grouped group_tail length]. fold (hex_pair upper b).
    rewrite hex_pair_is_text. assert ((1 <? g) = true) as -> by lia. cbn [andb].
    change (Z.of_nat 1) with 1.
    destruct (Z.rem (i + 1) g =? 0); cbn [app join]; [reflexivity|].
    now rewrite app_nil_r.
  - specialize (IH (i + 1)).
    change (hex_parts [c] upper (Some g) i (b :: b2 :: bytes))
      with ((if upper then toUpperCase (padStart 2 (str "0") (number_toString 16 b))
             else padStart 2 (str "0") (number_toString 16 b))
            :: (if (1 <? g) && (Z.rem (i + 1) g =? 0) then [[c]] else [])
            ++ hex_parts [c] upper (Some g) (i + 1) (b2 :: bytes)).
    fold (hex_pair upper b). rewrite hex_pair_is_text.
    assert ((1 <? g) = true) as -> by lia. cbn [andb].
    destruct (hex_parts_head [c] upper (Some g) (i + 1) b2 bytes) as [more Hmore].
    rewrite Hmore in *.
    change (map (hex_pair_text upper) (b :: b2 :: bytes))
      with (hex_pair_text upper b :: map (hex_pair_text upper) (b2 :: bytes)).
    assert (Htail : group_tail c g i
                      (hex_pair_text upper b :: map (hex_pair_text upper) (b2 :: bytes))
                    = group_tail c g (i + 1) (map (hex_pair_text upper) (b2 :: bytes))).
    { cbn [map group_tail length]. rewrite !Nat2Z.inj_succ.
      replace (i + Z.succ (Z.succ (Z.of_nat (length (map (hex_pair_text upper) bytes)))))
        with (i + 1 + Z.succ (Z.of_nat (length (map (hex_pair_text upper) bytes)))) by lia.
      reflexivity. }
    rewrite Htail. cbn [map] in *. rewrite grouped_cons.
    destruct (Z.rem (i + 1) g =? 0); cbn [app].
    + rewrite !join_cons, IH. cbn [app]. now rewrite <- app_assoc.
    + rewrite join_cons, IH. cbn [app]. now rewrite <- app_assoc.
Qed.

End HexGroups.

Lemma exec_at_suffix r G run y : forall skipped,
  (forall x1 x2, G = x1 ++ x2 -> x2 <> [] -> match_here r (x2 ++ run) = None) ->
  match_here r run = Some y ->
  exec r skipped (G ++ run) = Some (rev skipped ++ G, run, y).
Proof.
  induction G as [|u G IH]; intros skipped Hnone Hrun.
  - cbn [app]. rewrite app_nil_r. now apply exec_here.
  - pose proof (Hnone [] (u :: G) eq_refl ltac:(discriminate)) as Hhere.
    cbn [app] in Hhere. cbn [app exec]. rewrite Hhere.
    rewrite IH; trivial.
    + cbn [rev]. now rewrite <- app_assoc.
    + intros x1 x2 E Hne. apply (Hnone (u :: x1) x2); [now rewrite E|exact Hne].
Qed.

Lemma trailing_run_match c : match_here (trailing_pattern [c]) [c; c] = Some [].
Proof.
  unfold match_here. cbn [trailing_pattern].
  rewrite matches_seq, matches_repeat. cbn [length Nat.add].
  rewrite repeat_matcher_unbounded. cbv zeta.
  rewrite matches_char_cons, Z.eqb_refl. cbn [Nat.eqb andb Nat.pred flat_map].
  rewrite repeat_matcher_unbounded. cbv zeta.
  rewrite matches_char_cons, Z.eqb_refl. cbn [Nat.eqb andb Nat.pred flat_map length].
  rewrite repeat_matcher_unbounded. cbv zeta.
  reflexivity.
Qed.

Lemma grouped_end c g pairs : forall i,
  pairs <> [] -> Forall digit_pair pairs ->
  exists y h, grouped c g i pairs = y ++ [h] /\ is_hex_digit h = true.
Proof.
  induction pairs as [|p [|q rest] IH]; intros i Hne Hall; [contradiction| |].
  - inversion Hall as [|? ? (d1 & d2 & -> & _ & H2) _]; subst. cbn [grouped].
    now exists [d1], d2.
  - inversion Hall as [|? ? _ Hrest]; subst.
    destruct (IH (i + 1) ltac:(discriminate) Hrest) as (y & h & Hy & Hh).
    rewrite grouped_cons, Hy.
    exists (p ++ (if Z.rem (i + 1) g =? 0 then [c; c; c] else [c]) ++ y), h.
    now rewrite <- !app_assoc.
Qed.

(** Trimming takes the two delimiters after the last group away, and
    nothing else. *)
Lemma replace_group_tail c G tail :
  plain_delimiter [c] = true ->
  (G = [] \/ exists y h, G = y ++ [h] /\ is_hex_digit h = true) ->
  tail = [] \/ (tail = [c; c] /\ G <> []) ->
  replace (mkRegExp (trailing_pattern [c]) false) [] (G ++ tail) = G.
Proof.
  intros Hd HG [->|[-> Hne]].
  - rewrite app_nil_r. now apply replace_trailing_absent.
  - destruct HG as [->|(y & h & HG & Hh)]; [contradiction|].
    unfold replace, replace_first. cbn [global pattern].
    rewrite (exec_at_suffix _ G [c; c] [] []); [|..].
    + cbn [rev app get_substitution]. now rewrite app_nil_r.
    + intros x1 x2 E Hx2.
      destruct (match_here (trailing_pattern [c]) (x2 ++ [c; c])) as [z|] eqn:Em;
        [exfalso|reflexivity].
      apply match_here_In, (trailing_consumes [c] _ z ltac:(discriminate)) in Em
        as (_ & _ & Hall).
      destruct (exists_last Hx2) as (x2' & a & ->).
      rewrite HG, app_assoc in E. apply app_inj_tail in E as [_ <-].
      rewrite !forallb_app in Hall. apply andb_prop in Hall as [Hall _].
      apply andb_prop in Hall as [_ Ha]. cbn [forallb existsb] in Ha.
      rewrite !orb_false_r, andb_true_r in Ha. apply Z.eqb_eq in Ha. subst h.
      unfold plain_delimiter in Hd. cbn [nonempty forallb andb] in Hd.
      rewrite Hh in Hd. cbn [negb] in Hd. now rewrite !andb_false_r in Hd.
    + apply trailing_run_match.
Qed.

(** X24: with a group size of 2 or more and a one-character delimiter
    (no hexadecimal digit, no pattern syntax), [textToHex] separates the
    two-digit pairs of a group by one delimiter and two groups by three
    delimiters, and leaves no delimiter at the end. *)
Theorem textToHex_grouped :
  forall (host : Host) (t : jsstring) (c : Z) (upper : bool) (g : Z),
    well_formed t = true ->
    plain_delimiter [c] = true ->
    1 < g ->
    @textToHex host t [c] upper (Some g)
    = Returns (grouped c g 0 (map (hex_pair_text upper) (TextEncoder_encode t))).
Proof.
  intros host t c upper g Hwf Hd Hg. unfold textToHex.
  assert (Hd' := Hd). unfold plain_delimiter in Hd'. apply andb_prop in Hd' as [_ Hsyn].
  rewrite trailing_parsed; [|discriminate|].
  2:{ revert Hsyn. apply forallb_weaken. intros a Ha.
      now apply andb_prop in Ha as [Ha _]. }
  cbn [bind]. f_equal. rewrite (joined_groups c g upper _ 0 Hg).
  pose proof (map_hex_pair_digits upper _ (encoded_bytes t Hwf)) as Hpairs.
  set (pairs := map (hex_pair_text upper) (TextEncoder_encode t)) in *.
  apply (replace_group_tail c _ _ Hd).
  - destruct pairs as [|p rest] eqn:E; [now left|right].
    apply grouped_end; [discriminate|exact Hpairs].
  - destruct pairs as [|p rest] eqn:E; [now left|].
    unfold group_tail. destruct (_ =? 0); [right|now left].
    split; [reflexivity|].
    destruct (grouped_end c g (p :: rest) 0 ltac:(discriminate) Hpairs) as (y & h & -> & _).
    now destruct y.
Qed.

Lemma textToHex_grouped_witness :
  well_formed (str "Hello!") = true
  /\ plain_delimiter [32] = true
  /\ 1 < 2
  /\ @textToHex plain_host (str "Hello!") [32] true (Some 2)
     = Returns (grouped 32 2 0 (map (hex_pair_text true) (TextEncoder_encode (str "Hello!")))).
Proof.
  split; [reflexivity|]. split; [reflexivity|]. split; [reflexivity|].
  exact (textToHex_grouped plain_host (str "Hello!") 32 true 2 eq_refl eq_refl eq_refl).
Defined.

(** ** What [binaryToText] reads *)

Lemma read_radix_word w : forall a any,
  forallb binary_digit w = true ->
  read_radix 2 w a any
  = (fold_left (fun acc d => acc * 2 + (d - 48)) w a, any || nonempty w).
Proof.
  induction w as [|d w IH]; intros a any Hw.
  - cbn [read_radix fold_left nonempty]. now rewrite orb_false_r.
  - cbn [forallb] in Hw. apply andb_prop in Hw as [Hd Hw].
    assert (Hdc : d = digit_char (d - 48)).
    { unfold digit_char, binary_digit in *.
      assert ((d - 48 <? 10) = true) as -> by lia. lia. }
    rewrite Hdc at 1. rewrite read_radix_binary by (unfold binary_digit in Hd; lia).
    rewrite (IH _ _ Hw). cbn [fold_left nonempty]. now rewrite orb_true_r.
Qed.

Lemma fold_binary_nonnegative w : forall a,
  0 <= a -> forallb binary_digit w = true ->
  0 <= fold_left (fun acc d => acc * 2 + (d - 48)) w a.
Proof.
  induction w as [|d w IH]; intros a Ha Hw; [exact Ha|].
  cbn [forallb] in Hw. apply andb_prop in Hw as [Hd Hw].
  cbn [fold_left]. apply IH; [|exact Hw]. unfold binary_digit in Hd. lia.
Qed.

(** [parseInt(w, 2)] of a word of binary digits is the number it
    denotes. *)
Lemma parseInt_binary_word w :
  binary_word w = true -> parseInt w 2 = Some (binary_value w).
Proof.
  intros Hw. unfold binary_word in Hw. apply andb_prop in Hw as [Hne Hds].
  destruct w as [|d w]; [discriminate|].
  pose proof Hds as Hall. cbn [forallb] in Hds. apply andb_prop in Hds as [Hd _].
  unfold parseInt. cbn [trim_start].
  assert (is_space d = false) as ->.
  { unfold binary_digit, is_space in *. lia. }
  assert ((d =? 45) = false) as -> by (unfold binary_digit in Hd; lia).
  assert ((d =? 43) = false) as -> by (unfold binary_digit in Hd; lia).
  change (2 =? 0) with false. change (2 =? 16) with false.
  cbn [negb andb orb]. rewrite (read_radix_word _ _ _ Hall).
  cbn [orb nonempty]. unfold binary_value.
  change ((2 <? 2) || (36 <? 2)) with false. cbv iota. f_equal. lia.
Qed.

Lemma words_read words :
  Forall (fun w => binary_word w = true) words ->
  map_completion (fun b => fromCodePoint (parseInt b 2)) words
  = if forallb (fun w => is_code_point (binary_value w)) words
    then Returns (map (fun w => utf16_of_code_point (binary_value w)) words)
    else Throws RangeError.
Proof.
  induction 1 as [|w words Hw _ IH]; [reflexivity|].
  cbn [map_completion forallb map]. rewrite (parseInt_binary_word _ Hw).
  cbn [fromCodePoint].
  assert (0 <= binary_value w).
  { apply fold_binary_nonnegative; [lia|now apply binary_word_digits]. }
  unfold is_code_point at 1.
  destruct (binary_value w <=? 1114111) eqn:E.
  - assert ((0 <=? binary_value w) = true) as -> by lia. cbn [andb bind].
    rewrite IH. now destruct (forallb _ words).
  - rewrite andb_false_r. reflexivity.
Qed.

Lemma binaryToText_of_words delimiter words :
  delimiter <> [] ->
  forallb not_binary_digit delimiter = true ->
  words <> [] ->
  Forall (fun w => binary_word w = true) words ->
  binaryToText (join delimiter words)
  = if forallb (fun w => is_code_point (binary_value w)) words
    then Returns (flat_map (fun w => utf16_of_code_point (binary_value w)) words)
    else Returns (str "Invalid binary sequence").
Proof.
  intros Hne Hd Hwne Hwords.
  unfold binaryToText. rewrite (cleaned_joined _ _ Hne Hd Hwords).
  destruct (join_words_head words Hwne Hwords) as (d & y & Hhead & _).
  assert (nonempty (join (str " ") words) = true) as -> by now rewrite Hhead.
  cbn [negb]. rewrite split_string_space.
  destruct (split_words words (S (length (join (str " ") words))) [] Hwne Hwords
              ltac:(lia))
    as (first & others & Hw & ->).
  cbn [rev app]. rewrite <- Hw.
  rewrite filter_all.
  2:{ rewrite forallb_forall. rewrite Forall_forall in Hwords.
      intros w Hin. apply Hwords in Hin. unfold binary_word in Hin.
      now apply andb_prop in Hin as [Hin _]. }
  rewrite (words_read _ Hwords).
  destruct (forallb _ words); [|reflexivity].
  cbn [bind try_catch]. now rewrite join_nil, flat_map_concat_map.
Qed.

(** X25: [binaryToText] of words of binary digits, separated by any
    non-empty delimiter that holds no binary digit, is the text of the code
    points the words denote when every word denotes at most 0x10FFFF; one
    word above that makes the whole result the diagnostic "Invalid binary
    sequence". *)
Theorem binaryToText_reads_words :
  forall (delimiter : jsstring) (words : list jsstring),
    delimiter <> [] ->
    forallb not_binary_digit delimiter = true ->
    words <> [] ->
    Forall (fun w => binary_word w = true) words ->
    binaryToText (join delimiter words)
    = if forallb (fun w => is_code_point (binary_value w)) words
      then Returns (flat_map (fun w => utf16_of_code_point (binary_value w)) words)
      else Returns (str "Invalid binary sequence").
Proof. exact binaryToText_of_words. Qed.

Lemma binaryToText_reads_words_witness :
  Forall (fun w => binary_word w = true) [str "1001000"; str "100010000000000000000"]
  /\ binaryToText (str "1001000,100010000000000000000")
     = Returns (str "Invalid binary sequence").
Proof.
  assert (H : Forall (fun w => binary_word w = true)
                [str "1001000"; str "100010000000000000000"]).
  { repeat constructor. }
  assert (Hd : str "," <> []) by discriminate.
  assert (Hw : [str "1001000"; str "100010000000000000000"] <> []) by discriminate.
  split; [exact H|].
  exact (binaryToText_reads_words (str ",") [str "1001000"; str "100010000000000000000"]
           Hd eq_refl Hw H).
Defined.

(** ** Input without a binary digit *)

Lemma space_run_to_end ws : forall fuel lo,
  forallb is_space ws = true ->
  (length ws < fuel)%nat ->
  (lo = 0 \/ (lo = 1 /\ ws <> []))%nat ->
  hd_error (repeat_matcher (matches (Class false [Space])) fuel lo None ws) = Some [].
Proof.
  induction ws as [|w ws IH]; intros fuel lo Hws Hfuel Hlo;
    (destruct fuel as [|fuel]; [cbn [length] in Hfuel; lia|]);
    rewrite repeat_matcher_unbounded; cbv zeta.
  - destruct Hlo as [->|[_ Hne]]; [|contradiction]. reflexivity.
  - cbn [forallb] in Hws. apply andb_prop in Hws as [Hw Hws].
    rewrite matches_space_cons, Hw.
    cbn [flat_map]. rewrite app_nil_r.
    assert (Hlen : Nat.eqb (length ws) (length (w :: ws)) = false)
      by apply length_tail_neq.
    rewrite Hlen, andb_false_r.
    assert (Hrest : hd_error (repeat_matcher (matches (Class false [Space])) fuel 0 None ws)
                    = Some []).
    { apply IH; trivial; [cbn [length] in Hfuel; lia|now left]. }
    destruct Hlo as [->|[-> _]]; cbn [Nat.eqb Nat.pred].
    + destruct (repeat_matcher _ fuel 0 None ws); [discriminate|exact Hrest].
    + exact Hrest.
Qed.

(** A text of white space only collapses to one space. *)
Lemma space_run_only ws :
  ws <> [] -> forallb is_space ws = true ->
  replace space_run (str " ") ws = str " ".
Proof.
  intros Hne Hws. unfold replace, replace_all. cbn [global pattern space_run].
  assert (Hm : match_here (Repeat 1 None (Class false [Space])) ws = Some []).
  { unfold match_here. rewrite matches_repeat. apply space_run_to_end; trivial.
    - lia.
    - now right. }
  cbn [replace_all_from]. rewrite (exec_here _ _ _ _ Hm).
  destruct ws as [|w ws]; [contradiction|]. reflexivity.
Qed.

Lemma forallb_trim_start (P : Z -> bool) s :
  forallb P s = true -> forallb P (trim_start s) = true.
Proof.
  induction s as [|u s IH]; intros H; [reflexivity|].
  cbn [trim_start]. destruct (is_space u); [|exact H].
  cbn [forallb] in H. apply andb_prop in H as [_ H]. now apply IH.
Qed.

Lemma forallb_trim (P : Z -> bool) s :
  forallb P s = true -> forallb P (trim s) = true.
Proof.
  assert (Hrev : forall l, forallb P l = true -> forallb P (rev l) = true).
  { intros l Hl. rewrite forallb_forall in *. intros x Hx. apply Hl.
    now apply in_rev. }
  intros H. unfold trim. now apply Hrev, forallb_trim_start, Hrev, forallb_trim_start.
Qed.

Lemma binaryToText_no_digit s :
  forallb not_binary_digit s = true -> binaryToText s = Returns [].
Proof.
  intros H. apply forallb_trim in H. unfold binaryToText.
  set (t := trim s) in *.
  set (blank := fun u => if class_has true [One 48; One 49; Space] u then 32 else u).
  assert (Hblank : replace not_binary (str " ") t = map blank t).
  { unfold replace, not_binary. cbn [global pattern]. unfold replace_all.
    now rewrite replace_all_from_blank by lia. }
  rewrite Hblank.
  destruct t as [|u t']; [reflexivity|].
  rewrite space_run_only; [reflexivity|discriminate|].
  rewrite forallb_forall. intros c Hc. apply in_map_iff in Hc as (v & <- & Hv).
  rewrite forallb_forall in H. apply H in Hv.
  unfold not_binary_digit, binary_digit in Hv.
  unfold blank, class_has. cbn [existsb item_matches].
  destruct (is_space v) eqn:Es.
  - assert ((v =? 48) || ((v =? 49) || (true || false)) = true) as -> by lia.
    exact Es.
  - assert ((v =? 48) || ((v =? 49) || (false || false)) = false) as -> by lia.
    reflexivity.
Qed.

(** X26: a text that holds no [0] and no [1] is read by [binaryToText] as
    the empty text: it is never reported as an invalid sequence. *)
Theorem binaryToText_without_digits :
  forall s : jsstring,
    forallb not_binary_digit s = true -> binaryToText s = Returns [].
Proof. exact binaryToText_no_digit. Qed.

Lemma binaryToText_without_digits_witness :
  binaryToText (str " two, three ") = Returns [].
Proof. exact (binaryToText_without_digits (str " two, three ") eq_refl). Defined.

(** ** Look-alike characters in Morse code *)

Section UnitPattern.
(** A pattern that matches exactly one code unit, the ones [p] holds
    for. *)
Variable r : regex.
Variable p : Z -> bool.
Hypothesis Hhere : forall u x, match_here r (u :: x) = if p u then Some x else None.
Hypothesis Hend : match_here r [] = None.

Lemma unit_split s :
  forallb (fun u => negb (p u)) s = true
  \/ exists pre u post,
       s = pre ++ u :: post
       /\ forallb (fun u => negb (p u)) pre = true
       /\ p u = true.
Proof.
  induction s as [|c s IH]; [now left|].
  destruct (p c) eqn:E.
  - right. exists [], c, s. repeat split; trivial.
  - destruct IH as [IH | (pre & u & post & -> & Hpre & Hu)].
    + left. cbn [forallb]. now rewrite E, IH.
    + right. exists (c :: pre), u, post. repeat split; trivial.
      cbn [forallb]. now rewrite E, Hpre.
Qed.

Lemma exec_unit_absent s : forall skipped,
  forallb (fun u => negb (p u)) s = true -> exec r skipped s = None.
Proof.
  induction s as [|u s IH]; intros skipped H; cbn [exec].
  - now rewrite Hend.
  - cbn [forallb] in H. apply andb_prop in H as [Hu Hs].
    apply negb_true_iff in Hu. rewrite Hhere, Hu. now apply IH.
Qed.

Lemma exec_unit_found pre u post : forall skipped,
  forallb (fun u => negb (p u)) pre = true -> p u = true ->
  exec r skipped (pre ++ u :: post) = Some (rev skipped ++ pre, u :: post, post).
Proof.
  induction pre as [|c pre IH]; intros skipped Hpre Hu.
  - cbn [app exec]. rewrite Hhere, Hu. now rewrite app_nil_r.
  - cbn [forallb] in Hpre. apply andb_prop in Hpre as [Hc Hpre].
    apply negb_true_iff in Hc.
    cbn [app exec]. rewrite Hhere, Hc.
    rewrite IH; trivial. cbn [rev]. now rewrite <- app_assoc.
Qed.

(** Replacing every match by one character that is not [$]. *)
Lemma unit_replaced c fuel : forall done s,
  (c =? 36) = false ->
  (length s < fuel)%nat ->
  replace_all_from fuel r [c] done s = map (fun u => if p u then c else u) s.
Proof.
  induction fuel as [|f IH]; intros done s Hc Hlen; [lia|].
  destruct (unit_split s) as [Hnone | (pre & u & post & -> & Hpre & Hu)].
  - cbn [replace_all_from]. rewrite (exec_unit_absent _ _ Hnone).
    rewrite <- (map_id s) at 1. apply map_ext_in. intros u Hu.
    rewrite forallb_forall in Hnone. apply Hnone in Hu.
    apply negb_true_iff in Hu. now rewrite Hu.
  - cbn [replace_all_from]. rewrite (exec_unit_found _ _ _ _ Hpre Hu).
    rewrite length_tail_neq. cbn [get_substitution]. rewrite Hc.
    rewrite map_app. cbn [map]. rewrite Hu.
    rewrite IH by (trivial; rewrite length_app in Hlen; cbn [length] in Hlen; lia).
    cbn [rev app]. rewrite <- app_assoc. cbn [app]. f_equal.
    rewrite <- (map_id pre) at 1. apply map_ext_in. intros d Hd.
    rewrite forallb_forall in Hpre. apply Hpre in Hd.
    apply negb_true_iff in Hd. now rewrite Hd.
Qed.

(** Deleting every match. *)
Lemma unit_deleted fuel : forall done s,
  (length s < fuel)%nat ->
  replace_all_from fuel r [] done s = filter (fun u => negb (p u)) s.
Proof.
  induction fuel as [|f IH]; intros done s Hlen; [lia|].
  destruct (unit_split s) as [Hnone | (pre & u & post & -> & Hpre & Hu)].
  - cbn [replace_all_from]. rewrite (exec_unit_absent _ _ Hnone).
    symmetry. now apply forallb_filter_id.
  - cbn [replace_all_from]. rewrite (exec_unit_found _ _ _ _ Hpre Hu).
    rewrite length_tail_neq. cbn [get_substitution rev app].
    rewrite filter_app, (forallb_filter_id _ _ Hpre). cbn [filter]. rewrite Hu.
    cbn [negb]. rewrite app_nil_r.
    rewrite IH by (rewrite length_app in Hlen; cbn [length] in Hlen; lia).
    reflexivity.
Qed.
End UnitPattern.

Lemma class_unit_here negated items u x :
  match_here (Class negated items) (u :: x)
  = if class_has negated items u then Some x else None.
Proof.
  unfold match_here, class_has. cbn [matches].
  now destruct (xorb negated (existsb (item_matches u) items)).
Qed.

Lemma zero_width_here u x :
  match_here (pattern zero_width) (u :: x) = if is_zero_width u then Some x else None.
Proof.
  unfold match_here, is_zero_width. cbn [pattern zero_width matches].
  destruct (u =? 8203) eqn:E1; [reflexivity|].
  destruct (u =? 8204) eqn:E2; [reflexivity|].
  destruct (u =? 8205) eqn:E3; [reflexivity|].
  destruct (u =? 65279); reflexivity.
Qed.

(** [normalizePunctuation]: the look-alikes become the ASCII signals, the
    zero-width characters go, the rest is trimmed. *)
Lemma normalizePunctuation_reads s :
  normalizePunctuation s
  = trim (filter (fun u => negb (is_zero_width u)) (map ascii_signal s)).
Proof.
  unfold normalizePunctuation. f_equal.
  change (str "-") with [45]. change (str ".") with [46].
  unfold replace at 3. cbn [global dash_like pattern]. unfold replace_all.
  rewrite (unit_replaced _ _ (class_unit_here _ _) eq_refl) by (trivial; lia).
  unfold replace at 2. cbn [global dot_like pattern]. unfold replace_all.
  rewrite (unit_replaced _ _ (class_unit_here _ _) eq_refl) by (trivial; lia).
  unfold replace. cbn [global zero_width]. unfold replace_all.
  rewrite (unit_deleted _ _ zero_width_here eq_refl) by lia.
  rewrite map_map. f_equal. apply map_ext. intros u.
  unfold ascii_signal, class_has. cbn [xorb existsb item_matches].
  rewrite !orb_false_r.
  destruct (u =? 8211) eqn:E1; [reflexivity|].
  destruct (u =? 8212) eqn:E2; [reflexivity|].
  destruct (u =? 8722) eqn:E3; [reflexivity|].
  cbn [orb]. rewrite <- orb_assoc. reflexivity.
Qed.

Lemma ascii_signal_idempotent u : ascii_signal (ascii_signal u) = ascii_signal u.
Proof.
  unfold ascii_signal.
  destruct ((u =? 8211) || (u =? 8212) || (u =? 8722)) eqn:E1; [reflexivity|].
  destruct ((u =? 183) || (u =? 8226) || (u =? 8729)) eqn:E2; [reflexivity|].
  now rewrite E1, E2.
Qed.

Lemma ascii_signal_zero_width u : is_zero_width (ascii_signal u) = is_zero_width u.
Proof.
  unfold ascii_signal, is_zero_width.
  destruct ((u =? 8211) || (u =? 8212) || (u =? 8722)) eqn:E1; [lia|].
  destruct ((u =? 183) || (u =? 8226) || (u =? 8729)) eqn:E2; [lia|].
  reflexivity.
Qed.

Lemma filter_map_commute {A} (f : A -> A) (q : A -> bool) l :
  (forall a, q (f a) = q a) -> filter q (map f l) = map f (filter q l).
Proof.
  intros H. induction l as [|a l IH]; [reflexivity|].
  cbn [map filter]. rewrite H. destruct (q a); cbn [map]; now rewrite IH.
Qed.

Lemma normalizePunctuation_signals s :
  normalizePunctuation (filter (fun u => negb (is_zero_width u)) (map ascii_signal s))
  = normalizePunctuation s.
Proof.
  rewrite !normalizePunctuation_reads. f_equal.
  assert (Hq : forall a, negb (is_zero_width (ascii_signal a)) = negb (is_zero_width a))
    by (intros a; now rewrite ascii_signal_zero_width).
  rewrite !(filter_map_commute ascii_signal (fun u => negb (is_zero_width u)) _ Hq).
  rewrite filter_idempotent, map_map.
  apply map_ext. intros u. apply ascii_signal_idempotent.
Qed.

(** X27: [fromMorse] reads the typographic dashes (en dash, em dash,
    minus sign) as [-], the dot-like signs (middle dot, bullet, bullet
    operator) as [.], and ignores the zero-width characters, wherever they
    stand and whatever the separators are. *)
Theorem fromMorse_reads_lookalikes :
  forall (host : Host) (code letterSep wordSep : jsstring) (strict : bool),
    @fromMorse host code letterSep wordSep strict
    = @fromMorse host
        (filter (fun u => negb (is_zero_width u)) (map ascii_signal code))
        letterSep wordSep strict.
Proof.
  intros host code letterSep wordSep strict. unfold fromMorse.
  now rewrite normalizePunctuation_signals.
Qed.
